(** * Flag Finder: a shallow embedding of [flag_finder.py]

    The development follows the Python module function by function.  Text is
    a list of Unicode code points, the [FlagFinder] object and the standard
    output form the state of a small state-and-exception monad, and the
    collaborators of the program (file system, HTTP session, HTML parser,
    [urljoin]) are gathered in a record [World], whose answers depend on
    the arguments of the call only: reading a file, a request, the parser
    and [urljoin] either answer or raise an exception.  The command line
    comes to [main] as [argparse] reads it.  Writing to the standard
    output is taken never to fail. *)

From Stdlib Require Import ZArith NArith List String Ascii Lia DecimalString.
From stdpp Require Import base tactics option list sets gmap sorting.

Local Open Scope list_scope.

(** ** Python text *)

(** A Python [str] is a sequence of code points. *)
Abbreviation codepoint := N (only parsing).
Abbreviation str := (list N) (only parsing).

(** A string literal of the program, as a [str]. *)
Definition lit (s : string) : str := map N_of_ascii (list_ascii_of_string s).

(** [len(x)] and truthiness of the values the program tests. *)
Definition truthy_str (s : str) : bool :=
  match s with [] => false | _ :: _ => true end.

Definition truthy_list {A} (l : list A) : bool :=
  match l with [] => false | _ :: _ => true end.

Definition truthy_opt {A} (t : A -> bool) (o : option A) : bool :=
  match o with None => false | Some a => t a end.

(** [str(n)] for a non-negative integer. *)
Definition str_of_nat (n : nat) : str :=
  lit (NilZero.string_of_uint (Nat.to_uint n)).

(** [s.endswith(suffix)]. *)
Definition endswith (s suffix : str) : bool :=
  (length suffix <=? length s)%nat
  && bool_decide (drop (length s - length suffix) s = suffix).

(** ** The regular-expression engine

    The pattern of the program only needs literals, negated literals and a
    greedy repetition of a one-character node; the nodes carry the names
    they have in the compiled form of Python's [re] module. *)
Module Re.

Inductive charnode : Type :=
| LITERAL (c : codepoint)
| NOT_LITERAL (c : codepoint).

Inductive node : Type :=
| Single (cn : charnode)
| MAX_REPEAT (lo : nat) (cn : charnode).

Definition pattern := list node.

Definition char_matches (cn : charnode) (c : codepoint) : bool :=
  match cn with
  | LITERAL x => bool_decide (c = x)
  | NOT_LITERAL x => negb (bool_decide (c = x))
  end.

(** Length of the longest run of characters at the head of [s] that
    [cn] accepts. *)
Fixpoint run_length (cn : charnode) (s : str) : nat :=
  match s with
  | c :: s' => if char_matches cn c then S (run_length cn s') else 0
  | [] => 0
  end.

(** Greedy repetition with backtracking: try the continuation after [k]
    characters, then after [k-1], down to [lo]. *)
Fixpoint backtrack (k lo : nat) (cont : nat -> option nat) : option nat :=
  if (k <? lo)%nat then None
  else match cont k with
       | Some m => Some (k + m)%nat
       | None => match k with
                 | O => None
                 | S k' => backtrack k' lo cont
                 end
       end.

(** [match_at p s]: the length of the match of [p] anchored at the head
    of [s], if there is one. *)
Fixpoint match_at (p : pattern) (s : str) : option nat :=
  match p with
  | [] => Some O
  | Single cn :: p' =>
      match s with
      | c :: s' =>
          if char_matches cn c then option_map S (match_at p' s') else None
      | [] => None
      end
  | MAX_REPEAT lo cn :: p' =>
      backtrack (run_length cn s) lo (fun k => match_at p' (drop k s))
  end.

(** [pattern.findall(text)]: scan left to right, report the leftmost
    match, resume after it ([skip] characters of the current match are
    still to be passed over). An empty match advances by one character. *)
Fixpoint scan (p : pattern) (skip : nat) (s : str) : list str :=
  match s with
  | [] => match skip, match_at p [] with
          | O, Some _ => [[]]
          | _, _ => []
          end
  | _ :: s' =>
      match skip with
      | S k => scan p k s'
      | O => match match_at p s with
             | Some n => take n s :: scan p (pred n) s'
             | None => scan p 0 s'
             end
      end
  end.

Definition findall (p : pattern) (text : str) : list str := scan p 0 text.

End Re.

(** [re.compile(r'USU\{[^}]+\}')] *)
Definition flag_pattern : Re.pattern :=
  map (fun c => Re.Single (Re.LITERAL c)) (lit "USU{")
  ++ [Re.MAX_REPEAT 1 (Re.NOT_LITERAL 125%N); Re.Single (Re.LITERAL 125%N)].


(** ** Reading a file as text

    [open(filepath, 'r', encoding='utf-8', errors='ignore')] followed by
    [f.read()]: the bytes are decoded by the UTF-8 codec, every erroneous
    range is skipped, and the universal-newline translation of text mode
    is applied. *)
Module Utf8.

Definition is_continuation (b : N) : bool := (128 <=? b)%N && (b <=? 191)%N.

Definition cp2 (ch ch2 : N) : codepoint :=
  (N.shiftl ch 6 + ch2 - (N.shiftl 192 6 + 128))%N.

Definition cp3 (ch ch2 ch3 : N) : codepoint :=
  (N.shiftl ch 12 + N.shiftl ch2 6 + ch3
   - (N.shiftl 224 12 + N.shiftl 128 6 + 128))%N.

Definition cp4 (ch ch2 ch3 ch4 : N) : codepoint :=
  (N.shiftl ch 18 + N.shiftl ch2 12 + N.shiftl ch3 6 + ch4
   - (N.shiftl 240 18 + N.shiftl 128 12 + N.shiftl 128 6 + 128))%N.

(** The decoder on the values of the bytes.  An invalid start byte is an
    error range of one byte; an invalid continuation byte ends an error
    range made of the bytes before it; a sequence cut by the end of the
    data is an error range up to the end.  With [errors='ignore'] the
    decoder resumes after the error range. *)
Fixpoint decode_ignore (s : list N) : str :=
  match s with
  | [] => []
  | ch :: s1 =>
      if (ch <? 128)%N then ch :: decode_ignore s1
      else if (ch <? 194)%N then decode_ignore s1
      else if (ch <? 224)%N then
        match s1 with
        | [] => []
        | ch2 :: s2 =>
            if is_continuation ch2 then cp2 ch ch2 :: decode_ignore s2
            else decode_ignore s1
        end
      else if (ch <? 240)%N then
        match s1 with
        | [] => []
        | ch2 :: s2 =>
            if negb (is_continuation ch2)
               || (if (ch2 <? 160)%N then (ch =? 224)%N else (ch =? 237)%N)
            then decode_ignore s1
            else match s2 with
                 | [] => []
                 | ch3 :: s3 =>
                     if is_continuation ch3
                     then cp3 ch ch2 ch3 :: decode_ignore s3
                     else decode_ignore s2
                 end
        end
      else if (ch <? 245)%N then
        match s1 with
        | [] => []
        | ch2 :: s2 =>
            if negb (is_continuation ch2)
               || (if (ch2 <? 144)%N then (ch =? 240)%N else (ch =? 244)%N)
            then decode_ignore s1
            else match s2 with
                 | [] => []
                 | ch3 :: s3 =>
                     if negb (is_continuation ch3) then decode_ignore s2
                     else match s3 with
                          | [] => []
                          | ch4 :: s4 =>
                              if is_continuation ch4
                              then cp4 ch ch2 ch3 ch4 :: decode_ignore s4
                              else decode_ignore s3
                          end
                 end
        end
      else decode_ignore s1
  end.

Definition decode (data : list Byte.byte) : str :=
  decode_ignore (map Byte.to_N data).

End Utf8.

(** Text mode with the default [newline=None]: "\r\n" and "\r" are read
    as "\n". *)
Fixpoint translate_newlines (s : str) : str :=
  match s with
  | [] => []
  | c :: s' =>
      if (c =? 13)%N then
        10%N :: match s' with
                | [] => []
                | c2 :: s'' =>
                    if (c2 =? 10)%N then translate_newlines s''
                    else translate_newlines s'
                end
      else c :: translate_newlines s'
  end.

Definition read_text (data : list Byte.byte) : str :=
  translate_newlines (Utf8.decode data).

(** ** UTF-8, declaratively *)

(** A continuation byte. *)
Definition trail (b : N) : Prop := (128 <= b <= 191)%N.

(** The well-formed byte sequences and the code point each one encodes
    (Unicode, table 3-7): no overlong form, no surrogate, nothing above
    U+10FFFF. *)
Inductive well_formed : list N -> codepoint -> Prop :=
| wf_1 b : (b < 128)%N -> well_formed [b] b
| wf_2 b1 b2 :
    (194 <= b1 <= 223)%N -> trail b2 ->
    well_formed [b1; b2] ((b1 - 192) * 64 + (b2 - 128))%N
| wf_3 b1 b2 b3 :
    (224 <= b1 <= 239)%N -> trail b2 -> trail b3 ->
    (b1 = 224 -> 160 <= b2)%N -> (b1 = 237 -> b2 <= 159)%N ->
    well_formed [b1; b2; b3]
      ((b1 - 224) * 4096 + (b2 - 128) * 64 + (b3 - 128))%N
| wf_4 b1 b2 b3 b4 :
    (240 <= b1 <= 244)%N -> trail b2 -> trail b3 -> trail b4 ->
    (b1 = 240 -> 144 <= b2)%N -> (b1 = 244 -> b2 <= 143)%N ->
    well_formed [b1; b2; b3; b4]
      ((b1 - 240) * 262144 + (b2 - 128) * 4096 + (b3 - 128) * 64
       + (b4 - 128))%N.

(** What decoding with [errors='ignore'] hands back: a well-formed
    sequence gives its code point; where no well-formed sequence starts,
    a byte is dropped, with continuation bytes that follow it, and
    decoding resumes after them. *)
Inductive decoded : list N -> str -> Prop :=
| decoded_end : decoded [] []
| decoded_char bs c rest out :
    well_formed bs c -> decoded rest out -> decoded (bs ++ rest) (c :: out)
| decoded_drop b conts rest out :
    (∀ bs c, well_formed bs c -> ¬ bs `prefix_of` (b :: conts ++ rest)) ->
    Forall trail conts ->
    decoded rest out -> decoded (b :: conts ++ rest) out.

(** ** Paths and directory trees *)

(** [os.path.join(a, b)] on a POSIX system. *)
Definition path_join (a b : str) : str :=
  match b with
  | 47%N :: _ => b
  | _ => if negb (truthy_str a) || endswith a [47%N] then a ++ b
         else a ++ 47%N :: b
  end.

(** What a directory holds: the names of its files and its
    subdirectories, each with its own content. *)
Inductive dir_tree : Type :=
| Dir (filenames : list str) (subdirs : list (str * dir_tree)).

(** [os.walk(top)], top-down: the triple of the directory, then the walk
    of every subdirectory. *)
Fixpoint walk (top : str) (t : dir_tree) : list (str * list str * list str) :=
  match t with
  | Dir filenames subdirs =>
      (top, map fst subdirs, filenames)
      :: flat_map (fun d => walk (path_join top (fst d)) (snd d)) subdirs
  end.

(** ** The collaborators *)

(** [requests.Response], the fields the program and [raise_for_status]
    read. *)
Record Response : Type := mkResponse {
  status_code : Z;
  reason : str;
  response_url : str;
  text : str
}.

(** A tag of the parsed document: its attributes and its [.string]. *)
Record Tag : Type := mkTag {
  attrs : list (str * str);
  tag_string : option str
}.

(** [tag.get(name)] *)
Fixpoint tag_get (l : list (str * str)) (name : str) : option str :=
  match l with
  | [] => None
  | (k, v) :: l' => if bool_decide (k = name) then Some v else tag_get l' name
  end.

(** The result of the four [find_all] queries on a parsed document. *)
Record Soup : Type := mkSoup {
  find_all_script : list Tag;
  find_all_link_stylesheet : list Tag;
  find_all_style : list Tag;
  find_all_strings : list str
}.

Record World : Type := mkWorld {
  (** [open] and [read]: the message of the exception, or the bytes *)
  fs_read : str -> str + list Byte.byte;
  (** the directory tree [os.walk] finds at a path; [os.walk] yields
      nothing when the top directory cannot be listed *)
  fs_tree : str -> option dir_tree;
  (** [session.get(url, timeout=10)], sent with the [User-Agent] header
      of the session: the message of the transport exception (connection
      error, timeout), or the response *)
  session_get : str -> str + Response;
  (** [urljoin(base, url)] of [urllib.parse]: the message of the exception
      it raises on a reference it cannot split, or the joined URL *)
  url_join : str -> str -> str + str;
  (** the HTML parser behind [BeautifulSoup]: the message of the exception
      it raises on markup it rejects, or the parsed document *)
  html_parser : str -> str + Soup;
  (** the text [parser.print_help()] prints *)
  format_help : str
}.

(** ** The machine: object, output and exceptions *)

Inductive exn : Type :=
| Exception (msg : str)
| SystemExit (code : Z).

Record FlagFinder : Type := mkFlagFinder {
  found_flags : gset str;
  verbose : bool;
  crawl : bool;
  max_depth : Z;
  visited_urls : gset str;
  base_domain : option str
}.

(** A call to a collaborator.  The calls are recorded, in the order they
    are made, next to the state of the program: the record is what the
    properties on the order and the extent of a scan are stated on. *)
Inductive call : Type :=
| Open (filepath : str)
| Walk (directory : str)
| Get (url : str)
| Parse (html : str).

Record Proc : Type := mkProc {
  self : FlagFinder;
  (** the arguments of the calls to [print], oldest first *)
  stdout : list str;
  calls : list call
}.

Definition Py (A : Type) : Type := Proc -> (exn + A) * Proc.

Global Instance Py_ret : MRet Py := fun A a p => (inr a, p).

Global Instance Py_bind : MBind Py := fun A B f m p =>
  match m p with
  | (inr a, p') => f a p'
  | (inl e, p') => (inl e, p')
  end.

Definition raise {A} (e : exn) : Py A := fun p => (inl e, p).

(** [try: body except Exception as e: handler(e)] *)
Definition try_except {A} (body : Py A) (handler : str -> Py A) : Py A :=
  fun p =>
    match body p with
    | (inl (Exception msg), p') => handler msg p'
    | r => r
    end.

Fixpoint for_ {A} (l : list A) (body : A -> Py unit) : Py unit :=
  match l with
  | [] => mret tt
  | x :: l' => body x ;; for_ l' body
  end.

Definition get_self : Py FlagFinder := fun p => (inr (self p), p).

Definition print (s : str) : Py unit := fun p =>
  (inr tt, mkProc (self p) (stdout p ++ [s]) (calls p)).

Definition record (c : call) : Py unit := fun p =>
  (inr tt, mkProc (self p) (stdout p) (calls p ++ [c])).

(** The object with another set of flags. *)
Definition set_found_flags (s : gset str) (f : FlagFinder) : FlagFinder :=
  mkFlagFinder s (verbose f) (crawl f) (max_depth f) (visited_urls f)
    (base_domain f).

(** [self.found_flags.add(flag)] *)
Definition found_flags_add (flag : str) : Py unit := fun p =>
  (inr tt,
   mkProc (set_found_flags ({[flag]} ∪ found_flags (self p)) (self p))
          (stdout p) (calls p)).

(** [FlagFinder.__init__] *)
Definition FlagFinder_init (verbose crawl : bool) (max_depth : Z) : FlagFinder :=
  mkFlagFinder ∅ verbose crawl max_depth ∅ None.

(** [finder = FlagFinder(verbose=...)] *)
Definition new_finder (v : bool) : Py unit := fun p =>
  (inr tt, mkProc (FlagFinder_init v false 3) (stdout p) (calls p)).

(** ** The program *)

Definition nl : codepoint := 10%N.

Section Program.

Variable w : World.

(** [FlagFinder.log] *)
Definition log (message : str) : Py unit :=
  f ← get_self;
  if verbose f then print (lit "[*] " ++ message) else mret tt.

(** [FlagFinder.find_flags_in_text] *)
Definition find_flags_in_text (text source : str) : Py unit :=
  let matches := Re.findall flag_pattern text in
  if truthy_list matches then
    for_ matches (fun flag =>
      f ← get_self;
      if negb (bool_decide (flag ∈ found_flags f)) then
        found_flags_add flag;;
        print (nl :: lit "[+] FLAG FOUND: " ++ flag);;
        print (lit "    Source: " ++ source)
      else mret tt)
  else mret tt.

(** [open(filepath, 'r', encoding='utf-8', errors='ignore')] and
    [f.read()] *)
Definition open_read (filepath : str) : Py str :=
  record (Open filepath);;
  match fs_read w filepath with
  | inl msg => raise (Exception msg)
  | inr data => mret (read_text data)
  end.

(** [FlagFinder.scan_file] *)
Definition scan_file (filepath : str) : Py unit :=
  try_except
    (content ← open_read filepath;
     log (lit "Scanning file: " ++ filepath);;
     find_flags_in_text content filepath)
    (fun e => print (lit "[-] Error reading " ++ filepath ++ lit ": " ++ e)).

Definition default_extensions : list str :=
  [lit ".html"; lit ".htm"; lit ".js"; lit ".css"; lit ".php"; lit ".txt";
   lit ".json"; lit ".xml"].

(** [os.walk(directory)] *)
Definition os_walk (directory : str) : Py (list (str * list str * list str)) :=
  record (Walk directory);;
  mret (match fs_tree w directory with
        | Some t => walk directory t
        | None => []
        end).

(** [FlagFinder.scan_directory] *)
Definition scan_directory (directory : str) (extensions : option (list str))
  : Py unit :=
  let extensions :=
    match extensions with
    | None => default_extensions
    | Some l => l
    end in
  log (lit "Scanning directory: " ++ directory);;
  triples ← os_walk directory;
  for_ triples (fun '(root, dirs, files) =>
    for_ files (fun file =>
      if existsb (fun ext => endswith file ext) extensions then
        let filepath := path_join root file in
        scan_file filepath
      else mret tt)).

(** [response.raise_for_status()] of the HTTP library: an error for the
    client-error and server-error statuses. *)
Definition raise_for_status (response : Response) : Py unit :=
  let sc := status_code response in
  let tail :=
    reason response ++ lit " for url: " ++ response_url response in
  let http_error_msg :=
    if (400 <=? sc)%Z && (sc <? 500)%Z then
      str_of_nat (Z.to_nat sc) ++ lit " Client Error: " ++ tail
    else if (500 <=? sc)%Z && (sc <? 600)%Z then
      str_of_nat (Z.to_nat sc) ++ lit " Server Error: " ++ tail
    else [] in
  if truthy_str http_error_msg then raise (Exception http_error_msg)
  else mret tt.

(** [self.session.get(url, timeout=10)] *)
Definition get (url : str) : Py Response :=
  record (Get url);;
  match session_get w url with
  | inl msg => raise (Exception msg)
  | inr response => mret response
  end.

(** [FlagFinder.fetch_url_content]; [None] is the Python [None]. *)
Definition fetch_url_content (url : str) : Py (option str) :=
  try_except
    (log (lit "Fetching: " ++ url);;
     response ← get url;
     raise_for_status response;;
     mret (Some (text response)))
    (fun e =>
       print (lit "[-] Error fetching " ++ url ++ lit ": " ++ e);;
       mret None).

(** [BeautifulSoup(html_content, 'html.parser')] *)
Definition BeautifulSoup (html_content : str) : Py Soup :=
  record (Parse html_content);;
  match html_parser w html_content with
  | inl msg => raise (Exception msg)
  | inr soup => mret soup
  end.

(** [urljoin(base, url)] *)
Definition urljoin (base url : str) : Py str :=
  match url_join w base url with
  | inl msg => raise (Exception msg)
  | inr joined => mret joined
  end.

(** [FlagFinder.scan_url] *)
Definition scan_url (url : str) : Py unit :=
  log (lit "Scanning URL: " ++ url);;
  html_content ← fetch_url_content url;
  if negb (truthy_opt truthy_str html_content) then mret tt
  else
    let html_content := default [] html_content in
    find_flags_in_text html_content (url ++ lit " (HTML)");;
    soup ← BeautifulSoup html_content;
    for_ (find_all_script soup) (fun script =>
      if truthy_opt truthy_str (tag_get (attrs script) (lit "src")) then
        script_url ←
          urljoin url (default [] (tag_get (attrs script) (lit "src")));
        script_content ← fetch_url_content script_url;
        if truthy_opt truthy_str script_content then
          find_flags_in_text (default [] script_content)
            (script_url ++ lit " (JavaScript)")
        else mret tt
      else if truthy_opt truthy_str (tag_string script) then
        find_flags_in_text (default [] (tag_string script))
          (url ++ lit " (Inline JavaScript)")
      else mret tt);;
    for_ (find_all_link_stylesheet soup) (fun link =>
      if truthy_opt truthy_str (tag_get (attrs link) (lit "href")) then
        css_url ←
          urljoin url (default [] (tag_get (attrs link) (lit "href")));
        css_content ← fetch_url_content css_url;
        if truthy_opt truthy_str css_content then
          find_flags_in_text (default [] css_content)
            (css_url ++ lit " (CSS)")
        else mret tt
      else mret tt);;
    for_ (find_all_style soup) (fun style =>
      if truthy_opt truthy_str (tag_string style) then
        find_flags_in_text (default [] (tag_string style))
          (url ++ lit " (Inline CSS)")
      else mret tt);;
    for_ (find_all_strings soup) (fun comment =>
      find_flags_in_text comment (url ++ lit " (HTML Content)")).

(** [sorted(self.found_flags)]: the comparison of two [str] is the
    lexicographic comparison of their code points. *)
Fixpoint str_lt (a b : str) : bool :=
  match a, b with
  | _, [] => false
  | [], _ :: _ => true
  | x :: a', y :: b' =>
      if (x <? y)%N then true
      else if (y <? x)%N then false
      else str_lt a' b'
  end.

Definition str_le (a b : str) : Prop := str_lt b a = false.

Global Instance str_le_dec : RelDecision str_le.
Proof. intros a b. unfold str_le. apply _. Defined.

Definition sorted (s : gset str) : list str :=
  merge_sort str_le (elements s).

(** ["=" * 60] *)
Definition rule : str := repeat 61%N 60.

(** [FlagFinder.print_summary] *)
Definition print_summary : Py unit :=
  print (nl :: rule);;
  f ← get_self;
  (if negb (bool_decide (found_flags f = ∅)) then
     print (lit "[+] Total flags found: " ++ str_of_nat (size (found_flags f)));;
     print (nl :: lit "All flags:");;
     for_ (sorted (found_flags f)) (fun flag => print (lit "  " ++ flag))
   else
     print (lit "[-] No flags found"));;
  print rule.

(** The namespace [parser.parse_args()] returns. *)
Record Namespace : Type := mkNamespace {
  arg_url : option str;
  arg_files : option (list str);
  arg_directory : option str;
  arg_verbose : bool
}.

(** How [parser.parse_args()] ends on a command line: with the namespace;
    after [-h], by printing the help and leaving with status 0; on a
    command line it rejects, by leaving with status 2 (the usage and the
    message go to the standard error). *)
Inductive command_line : Type :=
| Parsed (args : Namespace)
| HelpRequested
| Rejected.

(** [parser.parse_args()] *)
Definition parse_args (c : command_line) : Py Namespace :=
  match c with
  | Parsed args => mret args
  | HelpRequested => print (format_help w);; raise (SystemExit 0)
  | Rejected => raise (SystemExit 2)
  end.

(** [main], on the command line as [argparse] reads it. *)
Definition main (c : command_line) : Py unit :=
  args ← parse_args c;
  (if negb (truthy_opt truthy_str (arg_url args)
            || truthy_opt truthy_list (arg_files args)
            || truthy_opt truthy_str (arg_directory args))
   then print (format_help w);; raise (SystemExit 1)
   else mret tt);;
  new_finder (arg_verbose args);;
  print (lit "[*] Starting flag search...");;
  print (lit "[*] Looking for pattern: USU{...}" ++ [nl]);;
  (if truthy_opt truthy_str (arg_url args)
   then scan_url (default [] (arg_url args)) else mret tt);;
  (if truthy_opt truthy_list (arg_files args)
   then for_ (default [] (arg_files args)) (fun file => scan_file file)
   else mret tt);;
  (if truthy_opt truthy_str (arg_directory args)
   then scan_directory (default [] (arg_directory args)) None
   else mret tt);;
  print_summary.

(** The exit status of the process. *)
Definition exit_status (r : exn + unit) : Z :=
  match r with
  | inr _ => 0
  | inl (SystemExit code) => code
  | inl (Exception _) => 1
  end.

End Program.

(** ** What the specification says a flag is *)

(** A flag: [USU{], one or more characters other than the closing brace,
    and the closing brace. *)
Definition is_flag (f : str) : Prop :=
  ∃ body, f = lit "USU{" ++ body ++ [125%N] ∧ body ≠ [] ∧ (125%N ∉ body).

(** The leftmost, non-overlapping flags of a text, left to right: at every
    position either a flag starts, is reported, and the search resumes
    after its closing brace, or no flag starts there and the search moves
    on by one character. *)
Inductive occurrences : str -> list str -> Prop :=
| occ_end : occurrences [] []
| occ_hit f rest fs :
    is_flag f -> occurrences rest fs -> occurrences (f ++ rest) (f :: fs)
| occ_skip c t fs :
    (∀ f, is_flag f -> ¬ f `prefix_of` (c :: t)) ->
    occurrences t fs -> occurrences (c :: t) fs.

(** A text contains a flag somewhere. *)
Definition contains_flag (text : str) : Prop :=
  ∃ pre f post, text = pre ++ f ++ post ∧ is_flag f.

(** The two parts of the flag pattern after its literal prefix. *)
Definition closing : Re.pattern := [Re.Single (Re.LITERAL 125%N)].

Definition flag_tail : Re.pattern :=
  Re.MAX_REPEAT 1 (Re.NOT_LITERAL 125%N) :: closing.

(** ** Directory trees, declaratively *)

(** A file named [f] lies in the tree under the chain of subdirectory
    names [ds], of any length. *)
Inductive file_at : dir_tree -> list str -> str -> Prop :=
| file_here filenames subdirs f :
    f ∈ filenames -> file_at (Dir filenames subdirs) [] f
| file_below filenames subdirs d t ds f :
    (d, t) ∈ subdirs -> file_at t ds f ->
    file_at (Dir filenames subdirs) (d :: ds) f.

(** The files of a tree with the path of their directory, in the order of
    the walk. *)
Fixpoint tree_files (top : str) (t : dir_tree) : list (str * str) :=
  match t with
  | Dir filenames subdirs =>
      map (pair top) filenames
      ++ flat_map (fun d => tree_files (path_join top (fst d)) (snd d)) subdirs
  end.

(** The name ends with one of the extensions. *)
Definition has_extension (extensions : list str) (name : str) : Prop :=
  Exists (fun ext => ext `suffix_of` name) extensions.

Global Instance has_extension_dec extensions name :
  Decision (has_extension extensions name).
Proof. unfold has_extension. apply _. Defined.

(** The paths a directory scan hands to [scan_file]. *)
Definition selected (w : World) (directory : str) (extensions : list str)
  : list str :=
  map (fun rf => path_join (fst rf) (snd rf))
    (filter (fun rf => has_extension extensions (snd rf))
       (match fs_tree w directory with
        | Some t => tree_files directory t
        | None => []
        end)).

(** ** Fetching, declaratively *)

(** The statuses [raise_for_status] turns into an error. *)
Definition is_error_status (sc : Z) : bool := (400 <=? sc)%Z && (sc <? 600)%Z.

(** What a fetch hands back: the body, or [None] after a failure. *)
Definition fetch_result (w : World) (url : str) : option str :=
  match session_get w url with
  | inl _ => None
  | inr response =>
      if is_error_status (status_code response) then None
      else Some (text response)
  end.

(** ** Pages, declaratively *)

Definition no_soup : Soup := mkSoup [] [] [] [].

(** The document the parser hands back for a body it accepts. *)
Definition parsed (w : World) (body : str) : Soup :=
  match html_parser w body with
  | inr soup => soup
  | inl _ => no_soup
  end.

(** The URL a reference is resolved to, when [urljoin] accepts it. *)
Definition resolved (w : World) (url ref : str) : str :=
  match url_join w url ref with
  | inr joined => joined
  | inl _ => []
  end.

(** The collaborator answered. *)
Definition answered {A B} (r : A + B) : Prop :=
  match r with
  | inr _ => True
  | inl _ => False
  end.

Global Instance answered_dec {A B} (r : A + B) : Decision (answered r).
Proof. destruct r; apply _. Defined.

(** [urljoin] accepts the reference the tag carries in [attr]; a tag
    without the attribute, or with an empty one, is not resolved. *)
Definition resolves (w : World) (url attr : str) (tag : Tag) : Prop :=
  truthy_opt truthy_str (tag_get (attrs tag) attr) = true ->
  answered (url_join w url (default [] (tag_get (attrs tag) attr))).

Global Instance resolves_dec w url attr tag : Decision (resolves w url attr tag).
Proof. unfold resolves. apply _. Defined.

(** The parser accepts the body, and [urljoin] the [src] of every script
    and the [href] of every stylesheet link of the document. *)
Definition page_ok (w : World) (url body : str) : Prop :=
  answered (html_parser w body)
  ∧ Forall (resolves w url (lit "src")) (find_all_script (parsed w body))
  ∧ Forall (resolves w url (lit "href"))
      (find_all_link_stylesheet (parsed w body)).

Global Instance page_ok_dec w url body : Decision (page_ok w url body).
Proof. unfold page_ok. apply _. Defined.

(** The scan of the URL meets no exception of the parser or of [urljoin]:
    the main page is not handed back, or is empty, or is a page that they
    accept. *)
Definition url_scan_ok (w : World) (url : str) : Prop :=
  truthy_opt truthy_str (fetch_result w url) = true ->
  page_ok w url (default [] (fetch_result w url)).

Global Instance url_scan_ok_dec w url : Decision (url_scan_ok w url).
Proof. unfold url_scan_ok. apply _. Defined.

(** The fetches made for the tags that carry a non-empty attribute [attr]
    (the [src] of a script, the [href] of a stylesheet link). *)
Definition resource_calls (w : World) (url attr : str) (tags : list Tag)
  : list call :=
  flat_map (fun tag =>
    if truthy_opt truthy_str (tag_get (attrs tag) attr)
    then [Get (resolved w url (default [] (tag_get (attrs tag) attr)))]
    else []) tags.

(** The calls made for a page whose body was fetched. *)
Definition page_calls (w : World) (url body : str) : list call :=
  Parse body
  :: resource_calls w url (lit "src") (find_all_script (parsed w body))
  ++ resource_calls w url (lit "href")
       (find_all_link_stylesheet (parsed w body)).

(** A call that the scan of a URL makes. *)
Definition web_call (c : call) : Prop :=
  match c with
  | Get _ | Parse _ => True
  | Open _ | Walk _ => False
  end.

(** The calls of the scan of a URL. *)
Definition url_calls (w : World) (url : str) : list call :=
  Get url
  :: (if truthy_opt truthy_str (fetch_result w url)
      then page_calls w url (default [] (fetch_result w url))
      else []).

(** The part of [scan_url] that works on the parsed document: the loops
    over the scripts, the stylesheet links, the inline styles and the
    text nodes.  It is named for the statements on that part of the scan;
    [scan_url] above is the function in one piece. *)
Definition scan_parsed (w : World) (url : str) (soup : Soup) : Py unit :=
  for_ (find_all_script soup) (fun script =>
    if truthy_opt truthy_str (tag_get (attrs script) (lit "src")) then
      script_url ←
        urljoin w url (default [] (tag_get (attrs script) (lit "src")));
      script_content ← fetch_url_content w script_url;
      if truthy_opt truthy_str script_content then
        find_flags_in_text (default [] script_content)
          (script_url ++ lit " (JavaScript)")
      else mret tt
    else if truthy_opt truthy_str (tag_string script) then
      find_flags_in_text (default [] (tag_string script))
        (url ++ lit " (Inline JavaScript)")
    else mret tt);;
  for_ (find_all_link_stylesheet soup) (fun link =>
    if truthy_opt truthy_str (tag_get (attrs link) (lit "href")) then
      css_url ←
        urljoin w url (default [] (tag_get (attrs link) (lit "href")));
      css_content ← fetch_url_content w css_url;
      if truthy_opt truthy_str css_content then
        find_flags_in_text (default [] css_content)
          (css_url ++ lit " (CSS)")
      else mret tt
    else mret tt);;
  for_ (find_all_style soup) (fun style =>
    if truthy_opt truthy_str (tag_string style) then
      find_flags_in_text (default [] (tag_string style))
        (url ++ lit " (Inline CSS)")
    else mret tt);;
  for_ (find_all_strings soup) (fun comment =>
    find_flags_in_text comment (url ++ lit " (HTML Content)")).

(** ** The summary, declaratively *)

(** [a] comes before [b] in the lexicographic order of the code points:
    [a] is a proper prefix of [b], or they differ first at a position
    where [a] has the smaller code point. *)
Definition lex_lt (a b : str) : Prop :=
  ∃ pre,
    (∃ y b', a = pre ∧ b = pre ++ y :: b')
    ∨ (∃ x y a' b', a = pre ++ x :: a' ∧ b = pre ++ y :: b' ∧ (x < y)%N).

(** The scan of the URL of a run, if it has one, meets no exception. *)
Definition run_ok (w : World) (args : Namespace) : Prop :=
  truthy_opt truthy_str (arg_url args) = true ->
  url_scan_ok w (default [] (arg_url args)).

Global Instance run_ok_dec w args : Decision (run_ok w args).
Proof. unfold run_ok. apply _. Defined.

(** The calls of a whole run, in the order url, files, directory. *)
Definition main_calls (w : World) (args : Namespace) : list call :=
  (if truthy_opt truthy_str (arg_url args)
   then url_calls w (default [] (arg_url args)) else [])
  ++ (if truthy_opt truthy_list (arg_files args)
      then map Open (default [] (arg_files args)) else [])
  ++ (if truthy_opt truthy_str (arg_directory args)
      then Walk (default [] (arg_directory args))
           :: map Open (selected w (default [] (arg_directory args))
                          default_extensions)
      else []).

(** The state in which the scans of a run start. *)
Definition started (args : Namespace) (p : Proc) : Proc :=
  mkProc (FlagFinder_init (arg_verbose args) false 3)
    (stdout p ++ [lit "[*] Starting flag search...";
                  lit "[*] Looking for pattern: USU{...}" ++ [nl]])
    (calls p).

(** ** Reports and invariants *)

(** The two lines printed for a new flag. *)
Definition report (source flag : str) : list str :=
  [nl :: lit "[+] FLAG FOUND: " ++ flag; lit "    Source: " ++ source].

(** The matches that are new, each once, in the order of the text. *)
Fixpoint fresh (seen : gset str) (matches : list str) : list str :=
  match matches with
  | [] => []
  | x :: l =>
      if decide (x ∈ seen) then fresh seen l else x :: fresh ({[x]} ∪ seen) l
  end.

(** A printed line that announces a flag announces a well-formed one. *)
Definition well_reported (line : str) : Prop :=
  ∀ x, line = nl :: lit "[+] FLAG FOUND: " ++ x -> is_flag x.

(** What every operation of the program guarantees between the state it
    starts from and the state it leaves. *)
Record grows (p p' : Proc) : Prop := mkGrows {
  grows_flags : found_flags (self p) ⊆ found_flags (self p');
  grows_new : ∀ f, f ∈ found_flags (self p') ->
                   f ∈ found_flags (self p) ∨ is_flag f;
  grows_verbose : verbose (self p') = verbose (self p);
  grows_stdout : ∃ out, stdout p' = stdout p ++ out ∧ Forall well_reported out
}.

(** [steps l p p']: the state grew and the calls [l] were made, in order. *)
Definition steps (l : list call) (p p' : Proc) : Prop :=
  grows p p' ∧ calls p' = calls p ++ l.

(** [browses p p']: the state grew, and only calls of the scan of a URL
    were made. *)
Definition browses (p p' : Proc) : Prop :=
  ∃ l, steps l p p' ∧ Forall web_call l.

(** [m] returns normally from every state, in a state related by [R]. *)
Definition returns {A} (R : Proc -> Proc -> Prop) (m : Py A) : Prop :=
  ∀ p, ∃ a p', m p = (inr a, p') ∧ R p p'.

(** [m] returns the value [a] from every state, in a state related by [R]. *)
Definition yields {A} (a : A) (R : Proc -> Proc -> Prop) (m : Py A) : Prop :=
  ∀ p, ∃ p', m p = (inr a, p') ∧ R p p'.

(** The operations of the program on the object. *)
Inductive operation : Type :=
| FindFlagsInText (text source : str)
| ScanFile (filepath : str)
| ScanDirectory (directory : str) (extensions : option (list str))
| ScanUrl (url : str)
| PrintSummary.

Definition perform (w : World) (o : operation) : Py unit :=
  match o with
  | FindFlagsInText text source => find_flags_in_text text source
  | ScanFile filepath => scan_file w filepath
  | ScanDirectory directory extensions =>
      scan_directory w directory extensions
  | ScanUrl url => scan_url w url
  | PrintSummary => print_summary
  end.

(** The operation meets no exception: the scan of a URL is the only one
    that can. *)
Definition operation_ok (w : World) (o : operation) : Prop :=
  match o with
  | ScanUrl url => url_scan_ok w url
  | _ => True
  end.

Global Instance operation_ok_dec w o : Decision (operation_ok w o).
Proof. destruct o; apply _. Defined.

(** A listing of a set of flags as the summary shows it: every flag once,
    in ascending lexicographic order. *)
Definition lists (s : gset str) (listing : list str) : Prop :=
  StronglySorted lex_lt listing ∧ NoDup listing
  ∧ length listing = size s ∧ ∀ f, f ∈ listing ↔ f ∈ s.

(** The lines of the summary for a listing. *)
Definition summary_lines (listing : list str) : list str :=
  [nl :: rule]
  ++ match listing with
     | [] => [lit "[-] No flags found"]
     | _ :: _ =>
         [lit "[+] Total flags found: " ++ str_of_nat (length listing);
          nl :: lit "All flags:"]
         ++ map (app (lit "  ")) listing
     end
  ++ [rule].

(** Every flag of the set is well-formed. *)
Definition all_flags (p : Proc) : Prop :=
  ∀ f, f ∈ found_flags (self p) -> is_flag f.

(** ** The flags of a source *)

(** The flags of a text. *)
Definition text_flags (text : str) : gset str :=
  list_to_set (Re.findall flag_pattern text).

(** The flags of a file: those of its text, none if it cannot be read. *)
Definition file_flags (w : World) (filepath : str) : gset str :=
  match fs_read w filepath with
  | inr data => text_flags (read_text data)
  | inl _ => ∅
  end.

(** The flags of what a fetch hands back, none after a failure. *)
Definition fetched_flags (w : World) (url : str) : gset str :=
  text_flags (default [] (fetch_result w url)).

(** The flags of a page: those of its body, of its scripts (the fetched
    one for a script with a [src], the inline one otherwise), of its
    stylesheets, of its inline styles and of its text nodes; none when
    the main page is not fetched or is empty. *)
Definition url_flags (w : World) (url : str) : gset str :=
  if truthy_opt truthy_str (fetch_result w url) then
    let body := default [] (fetch_result w url) in
    let soup := parsed w body in
    text_flags body
    ∪ (⋃ map (fun script =>
                if truthy_opt truthy_str (tag_get (attrs script) (lit "src"))
                then fetched_flags w
                       (resolved w url
                          (default [] (tag_get (attrs script) (lit "src"))))
                else text_flags (default [] (tag_string script)))
             (find_all_script soup)
       ∪ (⋃ map (fun link =>
                   if truthy_opt truthy_str (tag_get (attrs link) (lit "href"))
                   then fetched_flags w
                          (resolved w url
                             (default [] (tag_get (attrs link) (lit "href"))))
                   else ∅)
                (find_all_link_stylesheet soup)
          ∪ (⋃ map (fun style => text_flags (default [] (tag_string style)))
                   (find_all_style soup)
             ∪ ⋃ map text_flags (find_all_strings soup))))
  else ∅.

(** The flags an operation adds to the set. *)
Definition operation_flags (w : World) (o : operation) : gset str :=
  match o with
  | FindFlagsInText text _ => text_flags text
  | ScanFile filepath => file_flags w filepath
  | ScanDirectory directory extensions =>
      ⋃ map (file_flags w)
          (selected w directory (default default_extensions extensions))
  | ScanUrl url => url_flags w url
  | PrintSummary => ∅
  end.

(** Between two states, the flags [X] joined the set. *)
Definition adds (X : gset str) (p p' : Proc) : Prop :=
  found_flags (self p') = found_flags (self p) ∪ X.

(** ** What a scan hands to the matcher *)

(** What was handed back, if it is not empty, with the label under which
    it is scanned. *)
Definition scanned_if (content : option str) (source : str)
  : list (str * str) :=
  if truthy_opt truthy_str content then [(default [] content, source)] else [].

(** The texts that the scan of a page hands to the matcher, each with its
    source label, in the order of the scan: the body, the scripts (the
    fetched one for a script with a [src], the inline one otherwise), the
    fetched stylesheets, the inline styles and the text nodes. *)
Definition page_scans (w : World) (url body : str) : list (str * str) :=
  let soup := parsed w body in
  (body, url ++ lit " (HTML)")
  :: flat_map (fun script =>
       if truthy_opt truthy_str (tag_get (attrs script) (lit "src")) then
         let script_url :=
           resolved w url (default [] (tag_get (attrs script) (lit "src"))) in
         scanned_if (fetch_result w script_url)
           (script_url ++ lit " (JavaScript)")
       else
         scanned_if (tag_string script) (url ++ lit " (Inline JavaScript)"))
     (find_all_script soup)
  ++ flat_map (fun link =>
       if truthy_opt truthy_str (tag_get (attrs link) (lit "href")) then
         let css_url :=
           resolved w url (default [] (tag_get (attrs link) (lit "href"))) in
         scanned_if (fetch_result w css_url) (css_url ++ lit " (CSS)")
       else [])
     (find_all_link_stylesheet soup)
  ++ flat_map (fun style =>
       scanned_if (tag_string style) (url ++ lit " (Inline CSS)"))
     (find_all_style soup)
  ++ map (fun comment => (comment, url ++ lit " (HTML Content)"))
       (find_all_strings soup).

(** The texts that the scan of a URL hands to the matcher. *)
Definition url_scans (w : World) (url : str) : list (str * str) :=
  if truthy_opt truthy_str (fetch_result w url)
  then page_scans w url (default [] (fetch_result w url))
  else [].

(** The flags of a list of texts. *)
Definition scans_flags (scans : list (str * str)) : gset str :=
  ⋃ map (fun s => text_flags (fst s)) scans.

(** The lines that report the new flags of the texts, scanned one after
    the other from the set [seen]: each flag under the label of the first
    text that holds it. *)
Fixpoint scan_reports (seen : gset str) (scans : list (str * str))
  : list str :=
  match scans with
  | [] => []
  | (text, source) :: rest =>
      flat_map (report source) (fresh seen (Re.findall flag_pattern text))
      ++ scan_reports (seen ∪ text_flags text) rest
  end.

(** A line of the report of a flag: its announcement or its source. *)
Definition is_report_line (line : str) : Prop :=
  (nl :: lit "[+] FLAG FOUND: ") `prefix_of` line
  ∨ lit "    Source: " `prefix_of` line.

Global Instance is_report_line_dec line : Decision (is_report_line line).
Proof. unfold is_report_line. apply _. Defined.

(** Between two states, the texts [scans] were scanned: their flags
    joined the set, and the report lines printed are those of their new
    flags, with their labels, in order. *)
Definition scanned (scans : list (str * str)) (p p' : Proc) : Prop :=
  found_flags (self p') = found_flags (self p) ∪ scans_flags scans
  ∧ ∃ out,
      stdout p' = stdout p ++ out
      ∧ filter is_report_line out = scan_reports (found_flags (self p)) scans.

(** ** Failures and their reports *)

(** A line that reports a failure. *)
Definition is_error_line (line : str) : Prop :=
  lit "[-] Error " `prefix_of` line.

Global Instance is_error_line_dec line : Decision (is_error_line line).
Proof. unfold is_error_line. apply _. Defined.

(** A call whose failure the program catches: a file that cannot be read,
    a fetch that hands back [None].  A walk never fails, and an exception
    of the parser is not caught. *)
Definition failed (w : World) (c : call) : Prop :=
  match c with
  | Open filepath =>
      match fs_read w filepath with inl _ => True | inr _ => False end
  | Get url => fetch_result w url = None
  | Walk _ | Parse _ => False
  end.

Global Instance failed_dec w c : Decision (failed w c).
Proof. destruct c; cbn [failed]; [destruct (fs_read _ _)| | |]; apply _. Defined.

(** Between two states, as many failures were reported as calls failed. *)
Definition reported (w : World) (p p' : Proc) : Prop :=
  ∃ out l,
    stdout p' = stdout p ++ out
    ∧ calls p' = calls p ++ l
    ∧ length (filter is_error_line out) = length (filter (failed w) l).

(** ** Relations between states, and between runs *)

(** [m] ends from every state, normally or with an [Exception], in a
    state related by [R]. *)
Definition completes {A} (R : Proc -> Proc -> Prop) (m : Py A) : Prop :=
  ∀ p, ∃ r p', m p = (r, p') ∧ R p p' ∧ ∀ code, r ≠ inl (SystemExit code).

(** Two programs run side by side from states related by [S] end the same
    way, with the same value or exception, in states related by [S]. *)
Definition related {A} (S : Proc -> Proc -> Prop) (m1 m2 : Py A) : Prop :=
  ∀ p q, S p q -> ∃ r p' q', m1 p = (r, p') ∧ m2 q = (r, q') ∧ S p' q'.

(** The fields of the object other than the set of flags. *)
Definition same_config (p p' : Proc) : Prop :=
  verbose (self p') = verbose (self p)
  ∧ crawl (self p') = crawl (self p)
  ∧ max_depth (self p') = max_depth (self p)
  ∧ visited_urls (self p') = visited_urls (self p)
  ∧ base_domain (self p') = base_domain (self p).

(** The number of announcements of a flag among printed lines. *)
Definition announcements (f : str) (out : list str) : nat :=
  length (filter (fun line => line = nl :: lit "[+] FLAG FOUND: " ++ f) out).

(** Between two states, every flag that entered the set was announced
    once, and no other flag was announced. *)
Definition announced_once (p p' : Proc) : Prop :=
  found_flags (self p) ⊆ found_flags (self p')
  ∧ ∃ out,
      stdout p' = stdout p ++ out
      ∧ ∀ f, announcements f out
             = if decide (f ∈ found_flags (self p') ∧ f ∉ found_flags (self p))
               then 1%nat else 0%nat.

(** The lines that only the verbose mode prints. *)
Definition is_log_line (line : str) : Prop :=
  lit "[*] Scanning " `prefix_of` line ∨ lit "[*] Fetching: " `prefix_of` line.

Global Instance is_log_line_dec line : Decision (is_log_line line).
Proof. unfold is_log_line. apply _. Defined.

(** [q] is a quiet run next to the run [p]: same flags, same calls, and
    the output of [p] without its log lines. *)
Definition quieter (p q : Proc) : Prop :=
  found_flags (self q) = found_flags (self p)
  ∧ calls q = calls p
  ∧ verbose (self q) = false
  ∧ stdout q = filter (fun line => ¬ is_log_line line) (stdout p).

(** Two runs that may differ in the fields [crawl], [max_depth],
    [visited_urls] and [base_domain] of the object only. *)
Definition same_but_unused (p q : Proc) : Prop :=
  found_flags (self q) = found_flags (self p)
  ∧ verbose (self q) = verbose (self p)
  ∧ stdout q = stdout p
  ∧ calls q = calls p.

(** The run [p] is ahead of the run [q] by the flags [X]. *)
Definition ahead (X : gset str) (p q : Proc) : Prop :=
  found_flags (self p) = found_flags (self q) ∪ X.

(** The operations a run performs, in order, for its arguments. *)
Definition main_operations (args : Namespace) : list operation :=
  (if truthy_opt truthy_str (arg_url args)
   then [ScanUrl (default [] (arg_url args))] else [])
  ++ (if truthy_opt truthy_list (arg_files args)
      then map ScanFile (default [] (arg_files args)) else [])
  ++ (if truthy_opt truthy_str (arg_directory args)
      then [ScanDirectory (default [] (arg_directory args)) None] else []).


(** ** Concrete worlds and states for the examples *)

(** The state of a process that just built its [FlagFinder]. *)
Definition boot : Proc := mkProc (FlagFinder_init false false 3) [] [].

(** A directory [site] holding [a.js] and [a.txt], each with a flag. *)
Definition site_world : World :=
  mkWorld
    (fun path =>
       if decide (path = lit "site/a.js")
       then inr (list_byte_of_string "var f = 'USU{x1}';")
       else if decide (path = lit "site/a.txt")
       then inr (list_byte_of_string "USU{x2}")
       else inl (lit "[Errno 2] No such file or directory"))
    (fun d =>
       if decide (d = lit "site")
       then Some (Dir [lit "a.js"; lit "a.txt"] []) else None)
    (fun _ => inl (lit "connection refused"))
    (fun _ r => inr r)
    (fun _ => inr no_soup)
    (lit "usage: flag_finder.py [-h] [-u URL]").

(** A directory [top] whose only files lie two levels down. *)
Definition deep_world : World :=
  mkWorld
    (fun path =>
       if decide (path = lit "top/a/b/c.txt")
       then inr (list_byte_of_string "USU{deep}")
       else if decide (path = lit "top/a/b/c.bin")
       then inr (list_byte_of_string "USU{bin}")
       else inl (lit "[Errno 2] No such file or directory"))
    (fun d =>
       if decide (d = lit "top")
       then Some (Dir []
                    [(lit "a",
                      Dir [] [(lit "b", Dir [lit "c.txt"; lit "c.bin"] [])])])
       else None)
    (fun _ => inl (lit "connection refused"))
    (fun _ r => inr r)
    (fun _ => inr no_soup)
    (lit "usage: flag_finder.py [-h] [-u URL]").

(** A server that answers every request with the given status and body. *)
Definition server_world (status : Z) (body : str) : World :=
  mkWorld
    (fun _ => inl (lit "[Errno 2] No such file or directory"))
    (fun _ => None)
    (fun url => inr (mkResponse status (lit "reason") url body))
    (fun _ r => inr r)
    (fun _ => inr no_soup)
    (lit "usage: flag_finder.py [-h] [-u URL]").

(** A site whose main page embeds an external script and an inline
    style. *)
Definition page_world : World :=
  mkWorld
    (fun _ => inl (lit "[Errno 2] No such file or directory"))
    (fun _ => None)
    (fun url =>
       if decide (url = lit "http://h/")
       then inr (mkResponse 200 (lit "OK") url (lit "<html>page</html>"))
       else if decide (url = lit "http://h/app.js")
       then inr (mkResponse 200 (lit "OK") url (lit "var k = 'USU{y1}';"))
       else inr (mkResponse 404 (lit "Not Found") url (lit "USU{hidden}")))
    (fun base ref => inr (base ++ ref))
    (fun _ =>
       inr (mkSoup [mkTag [(lit "src", lit "app.js")] None]
              [mkTag [(lit "rel", lit "stylesheet"); (lit "href", lit "x.css")]
                 None]
              [mkTag [] (Some (lit "p { content: 'USU{y2}' }"))]
              [lit "page"]))
    (lit "usage: flag_finder.py [-h] [-u URL]").

(** A server whose page the HTML parser rejects; the body of the page
    holds a flag. *)
Definition rejected_markup_world : World :=
  mkWorld
    (fun path =>
       if decide (path = lit "a.txt")
       then inr (list_byte_of_string "USU{x2}")
       else inl (lit "[Errno 2] No such file or directory"))
    (fun _ => None)
    (fun url => inr (mkResponse 200 (lit "OK") url (lit "<![USU{y0}")))
    (fun base ref => inr (base ++ ref))
    (fun _ => inl (lit "ParserRejectedMarkup"))
    (lit "usage: flag_finder.py [-h] [-u URL]").

(** A page with an inline script and, after it, a script whose [src]
    [urljoin] rejects. *)
Definition invalid_src_world : World :=
  mkWorld
    (fun _ => inl (lit "[Errno 2] No such file or directory"))
    (fun _ => None)
    (fun url => inr (mkResponse 200 (lit "OK") url (lit "<html>page</html>")))
    (fun base ref =>
       if decide (ref = lit "//[x") then inl (lit "Invalid IPv6 URL")
       else inr (base ++ ref))
    (fun _ =>
       inr (mkSoup [mkTag [] (Some (lit "var k = 'USU{y1}';"));
                    mkTag [(lit "src", lit "//[x")] None]
              []
              [mkTag [] (Some (lit "p { content: 'USU{y2}' }"))]
              [lit "page"]))
    (lit "usage: flag_finder.py [-h] [-u URL]").

(** The flags an operation finds when it starts from an empty set. *)
Definition flags_of (w : World) (o : operation) : gset str :=
  found_flags (self (snd (perform w o boot))).

(** * Properties *)

(** ** The matcher *)

Lemma lit_USU : lit "USU{" = [85; 83; 85; 123]%N.
Proof. reflexivity. Qed.

Lemma is_flag_length f : is_flag f -> (6 <= length f)%nat.
Proof.
  intros (body & -> & Hne & _). rewrite lit_USU.
  destruct body; [done|]. simpl. rewrite length_app. simpl. lia.
Qed.

Lemma run_length_split s :
  ∃ body rest,
    s = body ++ rest ∧ length body = Re.run_length (Re.NOT_LITERAL 125%N) s
    ∧ (125%N ∉ body) ∧ (rest = [] ∨ ∃ rest', rest = 125%N :: rest').
Proof.
  induction s as [|c s (body & rest & -> & Hlen & Hnot & Hrest)].
  - exists [], []. repeat split; [apply not_elem_of_nil | by left].
  - simpl. destruct (decide (c = 125%N)) as [->|Hc].
    + exists [], (125%N :: body ++ rest). rewrite bool_decide_eq_true_2 by done.
      simpl. repeat split; [apply not_elem_of_nil | right; eauto].
    + exists (c :: body), rest. rewrite bool_decide_eq_false_2 by done.
      simpl. repeat split; [by rewrite Hlen | | done].
      rewrite not_elem_of_cons. split; [congruence | done].
Qed.

Lemma run_length_body body rest :
  125%N ∉ body -> (rest = [] ∨ ∃ rest', rest = 125%N :: rest') ->
  Re.run_length (Re.NOT_LITERAL 125%N) (body ++ rest) = length body.
Proof.
  intros Hnot Hrest. induction body as [|c body IH]; simpl.
  - by destruct Hrest as [->|[rest' ->]].
  - apply not_elem_of_cons in Hnot as [Hc Hnot].
    rewrite bool_decide_eq_false_2 by congruence. simpl. by rewrite IH.
Qed.

Lemma backtrack_top k lo cont m :
  (lo <= k)%nat -> cont k = Some m -> Re.backtrack k lo cont = Some (k + m)%nat.
Proof.
  intros Hlo Hk. destruct k; simpl.
  - destruct lo; [|lia]. simpl. by rewrite Hk.
  - destruct (Nat.ltb_spec (S k) lo); [lia|]. by rewrite Hk.
Qed.

Lemma backtrack_none k lo cont :
  (∀ j, (lo <= j <= k)%nat -> cont j = None) -> Re.backtrack k lo cont = None.
Proof.
  induction k as [|k IH]; intros H; simpl.
  - destruct (Nat.ltb_spec 0 lo); [done|]. rewrite H by lia. done.
  - destruct (Nat.ltb_spec (S k) lo); [done|]. rewrite H by lia.
    apply IH. intros j Hj. apply H. lia.
Qed.

Lemma match_closing_inside body rest j :
  125%N ∉ body -> (j < length body)%nat ->
  Re.match_at closing (drop j (body ++ rest)) = None.
Proof.
  intros Hnot Hj.
  destruct (lookup_lt_is_Some_2 body j Hj) as [c Hc].
  rewrite drop_app_le by lia.
  rewrite (drop_S _ _ _ Hc). unfold closing.
  cbn [Re.match_at Re.char_matches app].
  rewrite bool_decide_eq_false_2; [done|].
  intros ->. apply Hnot. by eapply list_elem_of_lookup_2.
Qed.

(** The repetition followed by the closing brace, on a text split at the
    end of its run of non-brace characters. *)
Lemma match_body_closing body rest :
  125%N ∉ body -> (rest = [] ∨ ∃ rest', rest = 125%N :: rest') ->
  Re.match_at (Re.MAX_REPEAT 1 (Re.NOT_LITERAL 125%N) :: closing) (body ++ rest)
  = match body, rest with
    | _ :: _, _ :: _ => Some (S (length body))
    | _, _ => None
    end.
Proof.
  intros Hnot Hrest. simpl Re.match_at at 1.
  rewrite run_length_body by done.
  destruct body as [|c body].
  - simpl. done.
  - destruct Hrest as [->|[rest' ->]].
    + apply backtrack_none. intros j Hj.
      destruct (decide (j = length (c :: body))) as [->|Hne].
      * rewrite drop_app_length. done.
      * apply (match_closing_inside (c :: body) []); [done | lia].
    + rewrite (backtrack_top _ _ _ 1%nat); [f_equal; lia | simpl; lia |].
      rewrite drop_app_length. unfold closing.
      cbn [Re.match_at Re.char_matches]. by rewrite bool_decide_eq_true_2.
Qed.

Lemma match_literals l q s :
  Re.match_at (map (fun c => Re.Single (Re.LITERAL c)) l ++ q) s
  = if decide (l `prefix_of` s)
    then option_map (Nat.add (length l)) (Re.match_at q (drop (length l) s))
    else None.
Proof.
  revert s. induction l as [|x l IH]; intros s.
  - rewrite decide_True by apply prefix_nil. cbn [app map length]. rewrite drop_0.
    by destruct (Re.match_at q s).
  - cbn [map app Re.match_at Re.char_matches]. destruct s as [|c s].
    + rewrite decide_False; [done|]. by intros ?%prefix_nil_inv.
    + case_bool_decide as Hc.
      * subst c. rewrite IH. destruct (decide (l `prefix_of` s)) as [Hp|Hp].
        -- rewrite decide_True by by apply prefix_cons.
           cbn [length drop]. by destruct (Re.match_at q _).
        -- rewrite decide_False; [done|]. by intros ?%prefix_cons_inv_2.
      * rewrite decide_False; [done|]. by intros ?%prefix_cons_inv_1.
Qed.

Lemma flag_pattern_unfold s :
  Re.match_at flag_pattern s
  = if decide (lit "USU{" `prefix_of` s)
    then option_map (Nat.add 4) (Re.match_at flag_tail (drop 4 s))
    else None.
Proof. apply match_literals. Qed.

(** A flag at the head of a text is matched, whole and no further. *)
Lemma match_at_flag f rest :
  is_flag f -> Re.match_at flag_pattern (f ++ rest) = Some (length f).
Proof.
  intros (body & -> & Hne & Hnot).
  rewrite flag_pattern_unfold, decide_True by (rewrite <- app_assoc; by eexists).
  rewrite <- app_assoc. change 4%nat with (length (lit "USU{")) at 2.
  rewrite drop_app_length. unfold flag_tail.
  rewrite <- (app_assoc body), (match_body_closing body) by (simpl; eauto).
  destruct body; [done|]. cbn [app option_map]. f_equal.
  repeat (rewrite length_app || rewrite length_cons). simpl. lia.
Qed.

(** Every match is a flag. *)
Lemma match_at_is_flag s n :
  Re.match_at flag_pattern s = Some n ->
  ∃ f rest, s = f ++ rest ∧ is_flag f ∧ length f = n.
Proof.
  rewrite flag_pattern_unfold.
  destruct (decide _) as [[s' ->]|]; [|done].
  change 4%nat with (length (lit "USU{")) at 2. rewrite drop_app_length.
  destruct (run_length_split s') as (body & rest & -> & _ & Hnot & Hrest).
  unfold flag_tail. rewrite match_body_closing by done.
  destruct body as [|c body]; [done|].
  destruct Hrest as [->|[rest' ->]]; [done|].
  intros [= <-].
  exists (lit "USU{" ++ (c :: body) ++ [125%N]), rest'. split_and!.
  - by rewrite <- !app_assoc.
  - by exists (c :: body).
  - repeat (rewrite length_app || rewrite length_cons). simpl. lia.
Qed.

Lemma match_at_none s :
  Re.match_at flag_pattern s = None ↔ ∀ f, is_flag f -> ¬ f `prefix_of` s.
Proof.
  split.
  - intros Hnone f Hf [rest ->]. by rewrite match_at_flag in Hnone.
  - intros H. destruct (Re.match_at flag_pattern s) as [n|] eqn:E; [|done].
    apply match_at_is_flag in E as (f & rest & -> & Hf & _).
    destruct (H f Hf). by exists rest.
Qed.

Lemma findall_nil : Re.findall flag_pattern [] = [].
Proof. reflexivity. Qed.

Lemma scan_past p pre rest :
  Re.match_at p [] = None ->
  Re.scan p (length pre) (pre ++ rest) = Re.scan p 0 rest.
Proof.
  intros Hnil. induction pre as [|c pre IH]; [done|].
  simpl. destruct pre as [|c' pre]; [|done].
  destruct rest; simpl in *; [by rewrite Hnil | done].
Qed.

(** [findall] at a flag: report it and resume after it. *)
Lemma findall_hit f rest :
  is_flag f ->
  Re.findall flag_pattern (f ++ rest) = f :: Re.findall flag_pattern rest.
Proof.
  intros Hf. pose proof (is_flag_length f Hf) as Hlen.
  destruct f as [|c f]; [simpl in Hlen; lia|].
  unfold Re.findall. cbn [app Re.scan].
  change (c :: f ++ rest) with ((c :: f) ++ rest).
  rewrite match_at_flag by done.
  rewrite take_app_length. f_equal. simpl. by apply scan_past.
Qed.

(** [findall] where no flag starts: move on by one character. *)
Lemma findall_skip c t :
  (∀ f, is_flag f -> ¬ f `prefix_of` (c :: t)) ->
  Re.findall flag_pattern (c :: t) = Re.findall flag_pattern t.
Proof.
  intros H. apply match_at_none in H. unfold Re.findall. cbn [Re.scan].
  by rewrite H.
Qed.

(** The matcher finds exactly the leftmost non-overlapping flags. *)
Lemma findall_occurrences text fs :
  occurrences text fs ↔ Re.findall flag_pattern text = fs.
Proof.
  split.
  - induction 1 as [|f rest fs Hf _ IH|c t fs Hno _ IH].
    + done.
    + by rewrite findall_hit, IH.
    + by rewrite findall_skip.
  - intros <-. remember (length text) as n eqn:Hn.
    revert text Hn.
    induction n as [n IH] using lt_wf_ind. intros text ->.
    destruct text as [|c t]; [constructor|].
    destruct (Re.match_at flag_pattern (c :: t)) as [m|] eqn:E.
    + apply match_at_is_flag in E as (f & rest & Heq & Hf & _).
      rewrite Heq, findall_hit by done. constructor; [done|].
      apply (IH (length rest)); [|done].
      apply (f_equal length) in Heq. rewrite length_app in Heq.
      pose proof (is_flag_length f Hf). simpl in *. lia.
    + pose proof (proj1 (match_at_none _) E) as Hno.
      rewrite findall_skip by done.
      constructor; [done|]. apply (IH (length t)); [simpl; lia | done].
Qed.

Lemma findall_all_flags text :
  Forall is_flag (Re.findall flag_pattern text).
Proof.
  assert (H : occurrences text (Re.findall flag_pattern text))
    by by apply findall_occurrences.
  induction H; auto.
Qed.

Lemma occurrences_substring text fs f :
  occurrences text fs -> f ∈ fs -> ∃ pre post, text = pre ++ f ++ post.
Proof.
  induction 1 as [|g rest fs Hg _ IH|c t fs _ _ IH]; intros Hin.
  - by apply elem_of_nil in Hin.
  - apply elem_of_cons in Hin as [->|Hin].
    + by exists [], rest.
    + destruct (IH Hin) as (pre & post & ->).
      exists (g ++ pre), post. by rewrite <- app_assoc.
  - destruct (IH Hin) as (pre & post & ->). by exists (c :: pre), post.
Qed.

(** A text yields no match exactly when it contains no flag. *)
Lemma findall_nil_iff text :
  Re.findall flag_pattern text = [] ↔ ¬ contains_flag text.
Proof.
  split.
  - intros Hnil (pre & f & post & -> & Hf). revert Hnil.
    induction pre as [|c pre IH].
    + cbn [app]. by rewrite findall_hit.
    + destruct (Re.match_at flag_pattern ((c :: pre) ++ f ++ post)) eqn:E.
      * apply match_at_is_flag in E as (g & rest & Heq & Hg & _).
        by rewrite Heq, findall_hit.
      * pose proof (proj1 (match_at_none _) E).
        cbn [app] in *. by rewrite findall_skip.
  - intros Hno. destruct (Re.findall flag_pattern text) as [|f fs] eqn:E; [done|].
    destruct Hno.
    pose proof (findall_all_flags text) as Hall. rewrite E in Hall.
    apply Forall_cons in Hall as [Hf _].
    destruct (occurrences_substring text (f :: fs) f) as (pre & post & ->).
    + by apply findall_occurrences.
    + apply elem_of_cons; by left.
    + by exists pre, f, post.
Qed.

(** ** The monad *)

Lemma bind_run {A B} (m : Py A) (k : A -> Py B) p :
  (m ≫= k) p
  = match m p with
    | (inr a, p') => k a p'
    | (inl e, p') => (inl e, p')
    end.
Proof. reflexivity. Qed.

Lemma bind_returns {A B} (m : Py A) (k : A -> Py B) p a p' :
  m p = (inr a, p') -> (m ≫= k) p = k a p'.
Proof. intros H. by rewrite bind_run, H. Qed.

Section Returns.

Context (R : Proc -> Proc -> Prop) `{!PreOrder R}.

Lemma returns_ret {A} (a : A) : returns R (mret a).
Proof. intros p. by exists a, p. Qed.

Lemma returns_bind {A B} (m : Py A) (k : A -> Py B) :
  returns R m -> (∀ a, returns R (k a)) -> returns R (m ≫= k).
Proof.
  intros Hm Hk p. destruct (Hm p) as (a & p1 & E1 & R1).
  destruct (Hk a p1) as (b & p2 & E2 & R2).
  exists b, p2. split; [by rewrite (bind_returns _ _ _ _ _ E1)|].
  by transitivity p1.
Qed.

Lemma returns_for {A} (l : list A) (body : A -> Py unit) :
  (∀ x, returns R (body x)) -> returns R (for_ l body).
Proof.
  intros Hbody. induction l as [|x l IH]; simpl.
  - apply returns_ret.
  - apply returns_bind; auto.
Qed.

(** A [try] whose body can only raise an [Exception] returns normally. *)
Lemma returns_try {A} (body : Py A) (handler : str -> Py A) :
  (∀ p, ∃ r p', body p = (r, p') ∧ R p p'
                ∧ ∀ code, r ≠ inl (SystemExit code)) ->
  (∀ e, returns R (handler e)) ->
  returns R (try_except body handler).
Proof.
  intros Hbody Hh p. unfold try_except.
  destruct (Hbody p) as (r & p1 & -> & R1 & Hr).
  destruct r as [[msg|code]|a].
  - destruct (Hh msg p1) as (a & p2 & -> & R2).
    exists a, p2. split; [done | by transitivity p1].
  - by destruct (Hr code).
  - by exists a, p1.
Qed.

End Returns.

Lemma returns_weaken {A} (R R' : Proc -> Proc -> Prop) (m : Py A) :
  (∀ p p', R p p' -> R' p p') -> returns R m -> returns R' m.
Proof.
  intros HR Hm p. destruct (Hm p) as (a & p' & E & Hp). eauto.
Qed.

Lemma yields_returns {A} (a : A) R (m : Py A) : yields a R m -> returns R m.
Proof. intros H p. destruct (H p) as (p' & ? & ?). by exists a, p'. Qed.

Lemma returns_yields R (m : Py unit) : returns R m -> yields tt R m.
Proof. intros H p. destruct (H p) as ([] & p' & ? & ?). by exists p'. Qed.

(** Sequencing with relations that compose. *)
Lemma returns_seq {A B} (R1 R2 R3 : Proc -> Proc -> Prop)
    (m : Py A) (a : A) (k : A -> Py B) :
  (∀ p p1 p2, R1 p p1 -> R2 p1 p2 -> R3 p p2) ->
  yields a R1 m -> returns R2 (k a) -> returns R3 (m ≫= k).
Proof.
  intros HR Hm Hk p. destruct (Hm p) as (p1 & E1 & H1).
  destruct (Hk p1) as (b & p2 & E2 & H2).
  exists b, p2. split; [by rewrite (bind_returns _ _ _ _ _ E1) | eauto].
Qed.

Lemma returns_for_in {A} (R : Proc -> Proc -> Prop) `{!PreOrder R}
    (P : A -> Prop) (l : list A) (body : A -> Py unit) :
  (∀ x, P x -> returns R (body x)) -> Forall P l -> returns R (for_ l body).
Proof.
  intros Hbody. induction 1 as [|x l Hx _ IH]; cbn [for_].
  - by apply returns_ret.
  - apply returns_bind; auto.
Qed.

Lemma returns_completes {A} R (m : Py A) : returns R m -> completes R m.
Proof.
  intros H p. destruct (H p) as (a & p' & E & HR). by exists (inr a), p'.
Qed.

Section Completes.

Context (R : Proc -> Proc -> Prop) `{!PreOrder R}.

Lemma completes_ret {A} (a : A) : completes R (mret a).
Proof. apply returns_completes, returns_ret, _. Qed.

Lemma completes_raise {A} (msg : str) : completes R (@raise A (Exception msg)).
Proof. intros p. exists (inl (Exception msg)), p. split_and!; done. Qed.

Lemma completes_bind {A B} (m : Py A) (k : A -> Py B) :
  completes R m -> (∀ a, completes R (k a)) -> completes R (m ≫= k).
Proof.
  intros Hm Hk p. destruct (Hm p) as (r & p1 & E1 & R1 & X1).
  rewrite bind_run, E1. destruct r as [e|a].
  - exists (inl e), p1. split_and!; try done.
    intros code [= ->]. by destruct (X1 code).
  - destruct (Hk a p1) as (r2 & p2 & E2 & R2 & X2).
    exists r2, p2. split_and!; try done. by transitivity p1.
Qed.

Lemma completes_for {A} (l : list A) (body : A -> Py unit) :
  (∀ x, completes R (body x)) -> completes R (for_ l body).
Proof.
  intros Hbody. induction l as [|x l IH]; cbn [for_].
  - apply completes_ret.
  - apply completes_bind; auto.
Qed.

(** A [try] returns normally: its body can only raise an [Exception]. *)
Lemma completes_try {A} (body : Py A) (handler : str -> Py A) :
  completes R body -> (∀ e, returns R (handler e)) ->
  returns R (try_except body handler).
Proof.
  intros Hb Hh. apply returns_try; [apply _| |done].
  intros p. destruct (Hb p) as (r & p' & ? & ? & ?). by exists r, p'.
Qed.

(** A loop whose body raises on the elements outside [P], and returns
    on the others, raises as soon as the list is not within [P]. *)
Lemma for_raises {A} (P : A -> Prop) `{!∀ x, Decision (P x)}
    (l : list A) (body : A -> Py unit) :
  (∀ x, P x -> returns R (body x)) ->
  (∀ x, ¬ P x -> ∀ p, ∃ msg, body x p = (inl (Exception msg), p)) ->
  ¬ Forall P l ->
  ∀ p, ∃ msg p', for_ l body p = (inl (Exception msg), p') ∧ R p p'.
Proof.
  intros Hok Hbad. induction l as [|x l IH]; intros Hl p.
  - by destruct Hl.
  - cbn [for_]. rewrite bind_run. destruct (decide (P x)) as [Hx|Hx].
    + destruct (Hok x Hx p) as ([] & p1 & -> & R1).
      destruct (IH (fun H => Hl (Forall_cons_2 _ _ _ Hx H)) p1)
        as (msg & p' & E & R2).
      exists msg, p'. split; [done | by transitivity p1].
    + destruct (Hbad x Hx p) as [msg ->]. by exists msg, p.
Qed.

End Completes.

Lemma for_app {A} (l1 l2 : list A) (body : A -> Py unit) p :
  for_ (l1 ++ l2) body p = (for_ l1 body;; for_ l2 body) p.
Proof.
  revert p. induction l1 as [|x l1 IH]; intros p; cbn [app for_].
  - done.
  - rewrite !bind_run. destruct (body x p) as [[e|[]] p1]; [done|].
    by rewrite IH, bind_run.
Qed.

Lemma for_singleton {A} (x : A) (body : A -> Py unit) p :
  for_ [x] body p = body x p.
Proof.
  cbn [for_]. rewrite bind_run. by destruct (body x p) as [[e|[]] p1].
Qed.

Lemma for_map {A B} (f : A -> B) (l : list A) (body : B -> Py unit) p :
  for_ (map f l) body p = for_ l (fun x => body (f x)) p.
Proof.
  revert p. induction l as [|x l IH]; intros p; cbn [map for_]; [done|].
  rewrite !bind_run. destruct (body (f x) p) as [[e|[]] p1]; [done|]. apply IH.
Qed.

Lemma for_app_then {A B} (l1 l2 : list A) (body : A -> Py unit) (k : Py B) p :
  (for_ (l1 ++ l2) body;; k) p = (for_ l1 body;; for_ l2 body;; k) p.
Proof.
  rewrite (bind_run (for_ (l1 ++ l2) body)), for_app, !bind_run.
  by destruct (for_ l1 body p) as [[e|[]] p1].
Qed.

Lemma then_ext {B} (m1 m2 : Py unit) (k1 k2 : Py B) p :
  (∀ q, m1 q = m2 q) -> (∀ q, k1 q = k2 q) -> (m1;; k1) p = (m2;; k2) p.
Proof.
  intros Hm Hk. rewrite !bind_run, Hm. destruct (m2 p) as [[e|a] q]; auto.
Qed.

(** ** The invariant relation *)

Global Instance grows_preorder : PreOrder grows.
Proof.
  split.
  - intros p. split; [done | auto | done |].
    exists []. by rewrite app_nil_r.
  - intros p1 p2 p3 [F1 N1 V1 (o1 & E1 & W1)] [F2 N2 V2 (o2 & E2 & W2)].
    split.
    + set_solver.
    + intros f Hf. destruct (N2 f Hf) as [?|?]; auto.
    + congruence.
    + exists (o1 ++ o2). rewrite E2, E1, app_assoc. split; [done|].
      by apply Forall_app.
Qed.

Lemma steps_nil p : steps [] p p.
Proof. split; [done | by rewrite app_nil_r]. Qed.

Lemma steps_app l1 l2 p p1 p2 :
  steps l1 p p1 -> steps l2 p1 p2 -> steps (l1 ++ l2) p p2.
Proof.
  intros [G1 C1] [G2 C2]. split; [by transitivity p1|].
  by rewrite C2, C1, app_assoc.
Qed.

Global Instance steps_nil_preorder : PreOrder (steps []).
Proof.
  split; [exact steps_nil|].
  intros p1 p2 p3 H1 H2. exact (steps_app [] [] _ _ _ H1 H2).
Qed.

Lemma returns_steps {A B} l1 l2 (m : Py A) (a : A) (k : A -> Py B) :
  yields a (steps l1) m -> returns (steps l2) (k a) ->
  returns (steps (l1 ++ l2)) (m ≫= k).
Proof. apply returns_seq, steps_app. Qed.

Lemma returns_for_steps_in {A} (P : A -> Prop) (g : A -> list call)
    (l : list A) (body : A -> Py unit) :
  (∀ x, P x -> returns (steps (g x)) (body x)) -> Forall P l ->
  returns (steps (flat_map g l)) (for_ l body).
Proof.
  intros Hbody. induction 1 as [|x l Hx _ IH]; simpl.
  - apply returns_ret, _.
  - eapply returns_steps; [apply returns_yields, Hbody, Hx | apply IH].
Qed.

Lemma returns_for_steps {A} (g : A -> list call) (l : list A)
    (body : A -> Py unit) :
  (∀ x, returns (steps (g x)) (body x)) ->
  returns (steps (flat_map g l)) (for_ l body).
Proof.
  intros Hbody. apply (returns_for_steps_in (fun _ => True)); [auto|].
  by apply Forall_forall.
Qed.

(** A line that does not start like the announcement of a flag. *)
Lemma well_reported_other (line : str) :
  (∀ t, line ≠ nl :: 91%N :: t) -> well_reported line.
Proof. intros H x ->. by destruct (H (lit "+] FLAG FOUND: " ++ x)). Qed.

Lemma print_steps (line : str) :
  well_reported line -> returns (steps []) (print line).
Proof.
  intros Hl p. eexists tt, _. split; [reflexivity|].
  split; [|simpl; by rewrite app_nil_r].
  split; simpl; [done | auto | done |].
  exists [line]. split; [done|]. by constructor.
Qed.

Lemma record_steps (c : call) : returns (steps [c]) (record c).
Proof.
  intros p. eexists tt, _. split; [reflexivity|].
  split; [|done]. split; simpl; [done | auto | done |].
  exists []. by rewrite app_nil_r.
Qed.

Lemma log_steps (message : str) : returns (steps []) (log message).
Proof.
  intros p. unfold log. rewrite bind_run. cbn [get_self].
  destruct (verbose (self p)).
  - apply print_steps, well_reported_other. intros t [=].
  - apply returns_ret, _.
Qed.

Lemma log_run message p :
  log message p
  = (inr tt,
     mkProc (self p)
       (stdout p ++ (if verbose (self p) then [lit "[*] " ++ message] else []))
       (calls p)).
Proof.
  unfold log. rewrite bind_run. cbn [get_self].
  destruct (verbose (self p)); [done|].
  destruct p. cbn. by rewrite app_nil_r.
Qed.

Lemma found_flags_add_steps (flag : str) :
  is_flag flag -> returns (steps []) (found_flags_add flag).
Proof.
  intros Hf p. eexists tt, _. split; [reflexivity|].
  split; [|simpl; by rewrite app_nil_r].
  split; simpl.
  - set_solver.
  - intros f [->%elem_of_singleton|?]%elem_of_union; auto.
  - done.
  - exists []. by rewrite app_nil_r.
Qed.

(** ** [find_flags_in_text] *)

Lemma set_found_flags_same f : set_found_flags (found_flags f) f = f.
Proof. by destruct f. Qed.

Lemma absorb_loop source l p :
  for_ l (fun flag =>
    f ← get_self;
    if negb (bool_decide (flag ∈ found_flags f)) then
      found_flags_add flag;;
      print (nl :: lit "[+] FLAG FOUND: " ++ flag);;
      print (lit "    Source: " ++ source)
    else mret tt) p
  = (inr tt,
     mkProc (set_found_flags (found_flags (self p) ∪ list_to_set l) (self p))
       (stdout p ++ flat_map (report source) (fresh (found_flags (self p)) l))
       (calls p)).
Proof.
  revert p. induction l as [|x l IH]; intros p.
  - cbn [for_ fresh flat_map list_to_set]. destruct p as [f out cs]; simpl.
    unfold mret, Py_ret. rewrite union_empty_r_L, set_found_flags_same.
    by rewrite app_nil_r.
  - cbn [for_ fresh]. rewrite bind_run, bind_run. cbn [get_self].
    destruct (decide (x ∈ found_flags (self p))) as [Hin|Hin].
    + rewrite bool_decide_eq_true_2 by done. cbn [negb mret Py_ret].
      etrans; [apply IH|]. do 3 f_equal. set_solver.
    + rewrite bool_decide_eq_false_2 by done. cbn [negb].
      rewrite !bind_run.
      cbn [found_flags_add print self stdout calls]. etrans; [apply IH|].
      cbn [self stdout calls set_found_flags found_flags verbose crawl
           max_depth visited_urls base_domain flat_map report].
      f_equal. f_equal; [|by rewrite <- !app_assoc].
      unfold set_found_flags. f_equal. set_solver.
Qed.

(** The effect of one scan of a text: the matches join the set, and each
    new one is reported once, with the source label. *)
Lemma find_flags_run text source p :
  find_flags_in_text text source p
  = (inr tt,
     mkProc
       (set_found_flags
          (found_flags (self p) ∪ list_to_set (Re.findall flag_pattern text))
          (self p))
       (stdout p
        ++ flat_map (report source)
             (fresh (found_flags (self p)) (Re.findall flag_pattern text)))
       (calls p)).
Proof.
  unfold find_flags_in_text.
  destruct (Re.findall flag_pattern text) as [|x l] eqn:E.
  - cbn [truthy_list]. exact (absorb_loop source [] p).
  - cbn [truthy_list]. apply absorb_loop.
Qed.

Lemma fresh_subseteq seen l : fresh seen l ⊆ l.
Proof.
  revert seen. induction l as [|x l IH]; intros seen; simpl; [done|].
  destruct (decide _); set_solver.
Qed.

Lemma fresh_not_seen seen l x : x ∈ fresh seen l -> x ∉ seen.
Proof.
  revert seen. induction l as [|y l IH]; intros seen; simpl.
  - by intros ?%elem_of_nil.
  - destruct (decide _) as [Hy|Hy]; [apply IH|].
    intros [->|Hin]%elem_of_cons; [done|].
    apply IH in Hin. set_solver.
Qed.

Lemma fresh_elem seen l x : x ∈ l -> x ∉ seen -> x ∈ fresh seen l.
Proof.
  revert seen. induction l as [|y l IH]; intros seen; simpl.
  - by intros ?%elem_of_nil.
  - intros [->|Hin]%elem_of_cons Hx.
    + rewrite decide_False by done. by left.
    + destruct (decide (y ∈ seen)); [by apply IH|].
      destruct (decide (x = y)) as [->|]; [by left | right].
      apply IH; set_solver.
Qed.

Lemma fresh_NoDup seen l : NoDup (fresh seen l).
Proof.
  revert seen. induction l as [|y l IH]; intros seen; simpl.
  - constructor.
  - destruct (decide _); [apply IH|]. constructor; [|apply IH].
    intros Hin%fresh_not_seen. set_solver.
Qed.

(** Nothing new to report when every match is already in the set. *)
Lemma fresh_all_seen seen l : (∀ x, x ∈ l -> x ∈ seen) -> fresh seen l = [].
Proof.
  intros H. destruct (fresh seen l) as [|x r] eqn:E; [done|].
  assert (Hx : x ∈ fresh seen l) by (rewrite E; by left).
  destruct (fresh_not_seen _ _ _ Hx). apply H. by apply fresh_subseteq in Hx.
Qed.

Lemma report_well_reported source l :
  Forall is_flag l -> Forall well_reported (flat_map (report source) l).
Proof.
  induction 1 as [|x l Hx _ IH]; simpl; [constructor|].
  constructor.
  - by intros y [= <-].
  - constructor; [|done]. apply well_reported_other. intros t [=].
Qed.

Lemma find_flags_steps text source :
  returns (steps []) (find_flags_in_text text source).
Proof.
  intros p. eexists tt, _. split; [apply find_flags_run|].
  pose proof (findall_all_flags text) as Hall.
  split; [|simpl; by rewrite app_nil_r]. split; simpl.
  - set_solver.
  - intros f [?|Hf%elem_of_list_to_set]%elem_of_union; [by left | right].
    rewrite Forall_forall in Hall. by apply Hall.
  - done.
  - eexists. split; [done|]. apply report_well_reported.
    rewrite Forall_forall in Hall. apply Forall_forall.
    intros x Hx%fresh_subseteq. by apply Hall.
Qed.

(** ** [scan_file] *)

Lemma scan_file_error w filepath msg p :
  fs_read w filepath = inl msg ->
  scan_file w filepath p
  = (inr tt,
     mkProc (self p)
       (stdout p ++ [lit "[-] Error reading " ++ filepath ++ lit ": " ++ msg])
       (calls p ++ [Open filepath])).
Proof.
  intros E. unfold scan_file, try_except, open_read.
  rewrite !bind_run. cbn [record]. by rewrite E.
Qed.

Lemma scan_body_steps (content filepath : str) :
  returns (steps [])
    (log (lit "Scanning file: " ++ filepath);;
     find_flags_in_text content filepath).
Proof.
  apply returns_bind; [apply _ | apply log_steps |].
  intros _. apply find_flags_steps.
Qed.

Lemma scan_file_ok w filepath data p :
  fs_read w filepath = inr data ->
  scan_file w filepath p
  = (log (lit "Scanning file: " ++ filepath);;
     find_flags_in_text (read_text data) filepath)
      (mkProc (self p) (stdout p) (calls p ++ [Open filepath])).
Proof.
  intros E. unfold scan_file, try_except, open_read.
  rewrite !bind_run. cbn [record]. rewrite E. cbn [mret Py_ret].
  set (p1 := mkProc _ _ _).
  destruct (scan_body_steps (read_text data) filepath p1) as ([] & p3 & E3 & _).
  by rewrite E3.
Qed.

Lemma scan_file_steps w filepath :
  returns (steps [Open filepath]) (scan_file w filepath).
Proof.
  intros p. destruct (fs_read w filepath) as [msg|data] eqn:E.
  - rewrite (scan_file_error _ _ _ _ E). eexists tt, _. split; [done|].
    split; [|done]. split; simpl; [done | auto | done |].
    eexists. split; [done|]. constructor; [|done].
    apply well_reported_other. intros t [=].
  - rewrite (scan_file_ok _ _ _ _ E).
    destruct (record_steps (Open filepath) p) as ([] & p1 & [= <-] & H1).
    destruct (scan_body_steps (read_text data) filepath
                (mkProc (self p) (stdout p) (calls p ++ [Open filepath])))
      as (a & p3 & E3 & H3).
    exists a, p3. split; [exact E3|].
    rewrite <- (app_nil_r [Open filepath]). by eapply steps_app.
Qed.

(** ** [scan_directory] *)

Lemma endswith_suffix (s ext : str) :
  endswith s ext = true ↔ ext `suffix_of` s.
Proof.
  unfold endswith. rewrite andb_true_iff, Nat.leb_le, bool_decide_eq_true.
  split.
  - intros [_ H]. exists (take (length s - length ext) s).
    pose proof (take_drop (length s - length ext) s) as Ht.
    by rewrite H in Ht.
  - intros [k ->]. rewrite length_app. split; [lia|].
    replace (length k + length ext - length ext)%nat with (length k) by lia.
    by rewrite drop_app_length.
Qed.

Lemma existsb_has_extension extensions (file : str) :
  existsb (fun ext => endswith file ext) extensions = true
  ↔ has_extension extensions file.
Proof.
  unfold has_extension. rewrite existsb_exists, Exists_exists.
  split; intros (ext & Hin & H); exists ext.
  - split; [by apply list_elem_of_In | by apply endswith_suffix].
  - split; [by apply list_elem_of_In | by apply endswith_suffix].
Qed.

Lemma dir_tree_nested_ind (P : dir_tree -> Prop) :
  (∀ filenames subdirs,
      Forall (fun d => P (snd d)) subdirs -> P (Dir filenames subdirs)) ->
  ∀ t, P t.
Proof.
  intros H. fix IH 1. intros [filenames subdirs]. apply H.
  induction subdirs as [|[d t] subdirs IHs]; constructor; [apply IH | apply IHs].
Qed.

(** The files [os.walk] yields are the files of the tree, in order. *)
Lemma walk_tree_files top t :
  flat_map (fun '(root, _, files) => map (pair root) files) (walk top t)
  = tree_files top t.
Proof.
  revert top. induction t as [filenames subdirs IH] using dir_tree_nested_ind.
  intros top. cbn [walk tree_files flat_map]. f_equal.
  induction IH as [|[d t] subdirs Ht _ IHs]; [done|].
  cbn [flat_map fst snd]. rewrite flat_map_app. by rewrite Ht, IHs.
Qed.

(** Every file of the tree is reached, at any depth. *)
Lemma tree_files_file_at top t r f :
  (r, f) ∈ tree_files top t ↔ ∃ ds, file_at t ds f ∧ r = foldl path_join top ds.
Proof.
  revert top. induction t as [filenames subdirs IH] using dir_tree_nested_ind.
  intros top. cbn [tree_files]. rewrite elem_of_app. split.
  - intros [Hin|Hin].
    + apply list_elem_of_fmap in Hin as (f' & [= -> ->] & Hf).
      exists []. split; [by constructor | done].
    + apply list_elem_of_In, in_flat_map in Hin as ([d t] & Hd & Hin).
      apply list_elem_of_In in Hd, Hin.
      rewrite Forall_forall in IH.
      apply (IH _ Hd) in Hin as (ds & Hat & ->).
      exists (d :: ds). split; [by econstructor | done].
  - intros (ds & Hat & ->). inversion Hat as [? ? ? Hf|? ? d t ds' ? Hd Hsub]; subst.
    + left. apply list_elem_of_fmap. by exists f.
    + right. apply list_elem_of_In, in_flat_map. exists (d, t).
      split; [by apply list_elem_of_In|]. apply list_elem_of_In.
      rewrite Forall_forall in IH. apply (IH _ Hd). by exists ds'.
Qed.

Lemma scan_files_steps w extensions root (files : list str) :
  returns
    (steps (map (fun f => Open (path_join root f))
              (filter (has_extension extensions) files)))
    (for_ files (fun file =>
       if existsb (fun ext => endswith file ext) extensions then
         let filepath := path_join root file in
         scan_file w filepath
       else mret tt)).
Proof.
  induction files as [|f files IH]; cbn [for_].
  - apply returns_ret, _.
  - rewrite filter_cons.
    destruct (decide (has_extension extensions f)) as [Hf|Hf].
    + rewrite (proj2 (existsb_has_extension _ _) Hf). cbn [map].
      apply (returns_steps [_] _ _ tt); [|exact IH].
      apply returns_yields, scan_file_steps.
    + destruct (existsb _ extensions) eqn:E.
      { by apply existsb_has_extension in E. }
      apply (returns_steps [] _ _ tt); [|exact IH].
      apply returns_yields, returns_ret, _.
Qed.

Lemma scan_triples_steps w extensions (triples : list (str * list str * list str)) :
  returns
    (steps (map (fun rf => Open (path_join (fst rf) (snd rf)))
              (filter (fun rf => has_extension extensions (snd rf))
                 (flat_map (fun '(root, _, files) => map (pair root) files)
                    triples))))
    (for_ triples (fun '(root, dirs, files) =>
       for_ files (fun file =>
         if existsb (fun ext => endswith file ext) extensions then
           let filepath := path_join root file in
           scan_file w filepath
         else mret tt))).
Proof.
  induction triples as [|[[root dirs] files] triples IH]; cbn [for_ flat_map].
  - apply returns_ret, _.
  - rewrite filter_app, map_app.
    eapply returns_steps; [|exact IH].
    apply returns_yields.
    replace (map _ (filter _ (map (pair root) files)))
      with (map (fun f => Open (path_join root f))
              (filter (has_extension extensions) files)).
    + apply scan_files_steps.
    + clear. induction files as [|f files IH]; [done|].
      cbn [map]. rewrite !filter_cons. cbn [snd].
      destruct (decide _); cbn [map fst snd]; by rewrite IH.
Qed.

Lemma os_walk_steps w directory :
  yields (match fs_tree w directory with
          | Some t => walk directory t
          | None => []
          end)
    (steps [Walk directory]) (os_walk w directory).
Proof.
  intros p. destruct (record_steps (Walk directory) p) as ([] & p1 & [= <-] & H1).
  eexists. split; [reflexivity | exact H1].
Qed.

(** The calls of a directory scan: the walk, then the selected files. *)
Lemma scan_directory_steps w directory extensions :
  returns
    (steps (Walk directory
            :: map Open (selected w directory
                           (default default_extensions extensions))))
    (scan_directory w directory extensions).
Proof.
  unfold scan_directory.
  apply (returns_steps [] _ _ tt); [apply returns_yields, log_steps|].
  eapply (returns_steps [_]); [apply os_walk_steps|].
  replace (default default_extensions extensions)
    with (match extensions with Some l => l | None => default_extensions end)
    by by destruct extensions.
  unfold selected. rewrite <- list_fmap_compose.
  destruct (fs_tree w directory) as [t|].
  - rewrite <- walk_tree_files. apply scan_triples_steps.
  - apply returns_ret, _.
Qed.

(** The directory scan hands the selected files, and only them, to
    [scan_file], in the order of the walk. *)
Lemma scan_files_delegates w extensions root (files : list str) p :
  for_ files (fun file =>
    if existsb (fun ext => endswith file ext) extensions then
      let filepath := path_join root file in
      scan_file w filepath
    else mret tt) p
  = for_ (map (path_join root) (filter (has_extension extensions) files))
      (scan_file w) p.
Proof.
  revert p. induction files as [|f files IH]; intros p; [done|].
  cbn [for_]. rewrite filter_cons.
  destruct (decide (has_extension extensions f)) as [Hf|Hf].
  - rewrite (proj2 (existsb_has_extension _ _) Hf). cbn [map for_].
    rewrite !bind_run. destruct (scan_file w _ p) as [[e|[]] p1]; [done|].
    apply IH.
  - destruct (existsb _ extensions) eqn:E.
    { by apply existsb_has_extension in E. }
    rewrite bind_run. apply IH.
Qed.

Lemma scan_triples_delegates w extensions
    (triples : list (str * list str * list str)) p :
  for_ triples (fun '(root, dirs, files) =>
    for_ files (fun file =>
      if existsb (fun ext => endswith file ext) extensions then
        let filepath := path_join root file in
        scan_file w filepath
      else mret tt)) p
  = for_ (map (fun rf => path_join (fst rf) (snd rf))
            (filter (fun rf => has_extension extensions (snd rf))
               (flat_map (fun '(root, _, files) => map (pair root) files)
                  triples)))
      (scan_file w) p.
Proof.
  revert p.
  induction triples as [|[[root dirs] files] triples IH]; intros p; [done|].
  cbn [for_ flat_map]. rewrite filter_app, map_app, for_app, !bind_run.
  replace (map (fun rf => path_join (fst rf) (snd rf))
             (filter (fun rf => has_extension extensions (snd rf))
                (map (pair root) files)))
    with (map (path_join root) (filter (has_extension extensions) files)).
  - rewrite <- scan_files_delegates.
    match goal with
    | |- match ?a with _ => _ end = match ?b with _ => _ end =>
        change b with a; destruct a as [[e|[]] p1]; [done | apply IH]
    end.
  - clear. induction files as [|f files IH]; [done|].
    cbn [map]. rewrite !filter_cons. cbn [snd].
    destruct (decide _); cbn [map fst snd]; by rewrite IH.
Qed.

Lemma scan_directory_delegates w directory extensions p :
  scan_directory w directory extensions p
  = for_ (selected w directory (default default_extensions extensions))
      (scan_file w)
      (mkProc (self p)
         (stdout p
          ++ (if verbose (self p)
              then [lit "[*] " ++ lit "Scanning directory: " ++ directory]
              else []))
         (calls p ++ [Walk directory])).
Proof.
  unfold scan_directory, os_walk.
  rewrite bind_run, log_run, !bind_run. cbn [record mret Py_ret self stdout calls].
  replace (default default_extensions extensions)
    with (match extensions with Some l => l | None => default_extensions end)
    by by destruct extensions.
  rewrite scan_triples_delegates. unfold selected.
  destruct (fs_tree w directory) as [t|]; [|done].
  by rewrite walk_tree_files.
Qed.

(** ** [fetch_url_content] *)

Lemma raise_for_status_ok response p :
  is_error_status (status_code response) = false ->
  raise_for_status response p = (inr tt, p).
Proof.
  unfold is_error_status, raise_for_status. intros E.
  destruct ((400 <=? _)%Z && (_ <? 500)%Z) eqn:E1.
  { exfalso. apply andb_true_iff in E1 as [? ?]. apply andb_false_iff in E.
    destruct E as [E|E]; [congruence | lia]. }
  destruct ((500 <=? _)%Z && (_ <? 600)%Z) eqn:E2; [|done].
  exfalso. apply andb_true_iff in E2 as [? ?]. apply andb_false_iff in E.
  destruct E as [E|E]; [lia | congruence].
Qed.

Lemma raise_for_status_error response p :
  is_error_status (status_code response) = true ->
  ∃ msg, raise_for_status response p = (inl (Exception msg), p).
Proof.
  unfold is_error_status, raise_for_status. intros E.
  apply andb_true_iff in E as [E1 E2]. rewrite E1, E2. cbn [andb].
  destruct (status_code response <? 500)%Z eqn:E4.
  - destruct (str_of_nat _); eexists; reflexivity.
  - destruct (500 <=? status_code response)%Z eqn:E3.
    + destruct (str_of_nat _); eexists; reflexivity.
    + apply Z.leb_gt in E3. apply Z.ltb_ge in E4. lia.
Qed.

(** The effect of a fetch: one [GET], the body or [None], and on failure
    one diagnostic line. *)
Lemma fetch_run w url p :
  ∃ out,
    fetch_url_content w url p
    = (inr (fetch_result w url),
       mkProc (self p)
         (stdout p
          ++ (if verbose (self p) then [lit "[*] " ++ lit "Fetching: " ++ url] else [])
          ++ out)
         (calls p ++ [Get url]))
    ∧ match session_get w url with
      | inl msg => out = [lit "[-] Error fetching " ++ url ++ lit ": " ++ msg]
      | inr response =>
          if is_error_status (status_code response)
          then ∃ msg, out = [lit "[-] Error fetching " ++ url ++ lit ": " ++ msg]
          else out = []
      end.
Proof.
  unfold fetch_url_content, try_except, fetch_result, get.
  rewrite bind_run, log_run, !bind_run. cbn [record self stdout calls].
  destruct (session_get w url) as [msg|response].
  - eexists. split; [|reflexivity]. cbn [raise print self stdout calls].
    rewrite bind_run. cbn [print mret Py_ret self stdout calls].
    by rewrite <- app_assoc.
  - cbn [mret Py_ret]. rewrite bind_run.
    destruct (is_error_status (status_code response)) eqn:E.
    + edestruct (raise_for_status_error response) as [msg Hm]; [exact E|].
      rewrite Hm. eexists. split; [|by exists msg].
      rewrite bind_run. cbn [print mret Py_ret self stdout calls].
      by rewrite <- app_assoc.
    + rewrite raise_for_status_ok by done. exists [].
      by rewrite !app_nil_r.
Qed.

Lemma fetch_steps w url :
  yields (fetch_result w url) (steps [Get url]) (fetch_url_content w url).
Proof.
  intros p. destruct (fetch_run w url p) as (out & -> & Hout).
  eexists. split; [done|]. split; [|done].
  split; cbn [self stdout]; [done | auto | done |].
  eexists. split; [done|]. apply Forall_app. split.
  - destruct (verbose _); [|done]. constructor; [|done].
    apply well_reported_other. intros t [=].
  - assert (H : out = [] ∨ ∃ msg,
               out = [lit "[-] Error fetching " ++ url ++ lit ": " ++ msg]).
    { destruct (session_get w url); [eauto|]. destruct (is_error_status _); eauto. }
    destruct H as [->|[msg ->]]; [done|]. constructor; [|done].
    apply well_reported_other. intros t [=].
Qed.

(** ** [scan_url] *)

(** [scan_parsed] is the part of [scan_url] that follows the call to the
    parser. *)
Lemma scan_url_parts w url :
  scan_url w url
  = (log (lit "Scanning URL: " ++ url);;
     html_content ← fetch_url_content w url;
     if negb (truthy_opt truthy_str html_content) then mret tt
     else
       find_flags_in_text (default [] html_content) (url ++ lit " (HTML)");;
       soup ← BeautifulSoup w (default [] html_content);
       scan_parsed w url soup).
Proof. reflexivity. Qed.

Lemma page_ok_parsed w url body :
  page_ok w url body ->
  html_parser w body = inr (parsed w body)
  ∧ Forall (resolves w url (lit "src")) (find_all_script (parsed w body))
  ∧ Forall (resolves w url (lit "href"))
      (find_all_link_stylesheet (parsed w body)).
Proof.
  unfold page_ok, parsed. destruct (html_parser w body); [by intros [[] _]|].
  by intros (_ & ? & ?).
Qed.

Lemma BeautifulSoup_run w html_content p :
  BeautifulSoup w html_content p
  = (match html_parser w html_content with
     | inl msg => inl (Exception msg)
     | inr soup => inr soup
     end,
     mkProc (self p) (stdout p) (calls p ++ [Parse html_content])).
Proof.
  unfold BeautifulSoup. rewrite bind_run. cbn [record].
  by destruct (html_parser w html_content).
Qed.

Lemma BeautifulSoup_steps w html_content soup :
  html_parser w html_content = inr soup ->
  yields soup (steps [Parse html_content]) (BeautifulSoup w html_content).
Proof.
  intros E p. rewrite BeautifulSoup_run, E.
  destruct (record_steps (Parse html_content) p) as ([] & p1 & [= <-] & H1).
  eexists. split; [reflexivity | exact H1].
Qed.

Lemma urljoin_run w base ref p :
  urljoin w base ref p
  = (match url_join w base ref with
     | inl msg => inl (Exception msg)
     | inr joined => inr joined
     end, p).
Proof. unfold urljoin. by destruct (url_join w base ref). Qed.

Lemma urljoin_yields w base ref (R : Proc -> Proc -> Prop) :
  (∀ p, R p p) ->
  answered (url_join w base ref) ->
  yields (resolved w base ref) R (urljoin w base ref).
Proof.
  intros HR H p. rewrite urljoin_run. unfold resolved.
  destruct (url_join w base ref); [done|]. by exists p.
Qed.

(** Fetching a resource and scanning it when the body is not empty. *)
Lemma resource_steps w resource_url (label : str) :
  returns (steps [Get resource_url])
    (content ← fetch_url_content w resource_url;
     if truthy_opt truthy_str content then
       find_flags_in_text (default [] content) (resource_url ++ label)
     else mret tt).
Proof.
  rewrite <- (app_nil_r [Get resource_url]).
  eapply returns_steps; [apply fetch_steps|].
  destruct (truthy_opt _ _); [apply find_flags_steps | apply returns_ret, _].
Qed.

(** Resolving a reference that [urljoin] accepts, then fetching and
    scanning the resource. *)
Lemma joined_resource_steps w url ref (label : str) :
  answered (url_join w url ref) ->
  returns (steps [Get (resolved w url ref)])
    (resource_url ← urljoin w url ref;
     content ← fetch_url_content w resource_url;
     if truthy_opt truthy_str content then
       find_flags_in_text (default [] content) (resource_url ++ label)
     else mret tt).
Proof.
  intros H. apply (returns_steps [] _ _ (resolved w url ref)).
  - by apply urljoin_yields; [apply steps_nil|].
  - apply resource_steps.
Qed.

(** A reference that [urljoin] rejects: the exception leaves the loop. *)
Lemma joined_resource_raises {B} w url attr tag (k : str -> Py B) (e : Py B) p :
  ¬ resolves w url attr tag ->
  ∃ msg,
    (if truthy_opt truthy_str (tag_get (attrs tag) attr)
     then resource_url ← urljoin w url (default [] (tag_get (attrs tag) attr));
          k resource_url
     else e) p
    = (inl (Exception msg), p).
Proof.
  unfold resolves. intros H.
  destruct (truthy_opt truthy_str (tag_get (attrs tag) attr)); [|by destruct H].
  rewrite bind_run, urljoin_run.
  destruct (url_join w url _) as [msg|joined]; [by exists msg|].
  by destruct H.
Qed.

(** The steps on a page that the parser and [urljoin] accept: parse, then
    scripts, stylesheets, inline styles and text nodes. *)
Ltac page_steps w url body Hok :=
  let Hp := fresh "Hp" in
  let Hs := fresh "Hs" in
  let Hl := fresh "Hl" in
  destruct (page_ok_parsed w url body Hok) as (Hp & Hs & Hl);
  unfold page_calls;
  apply (returns_steps [Parse body] _ _ (parsed w body));
    [by apply BeautifulSoup_steps|];
  rewrite <- (app_nil_r (resource_calls w url (lit "href") _));
  apply (returns_steps _ _ _ tt);
    [apply returns_yields; unfold resource_calls;
     apply (returns_for_steps_in (resolves w url (lit "src"))); [|exact Hs];
     let script := fresh "script" in
     let H := fresh "H" in
     intros script H; unfold resolves in H;
     destruct (truthy_opt truthy_str (tag_get _ _));
       [by apply joined_resource_steps, H
       |destruct (truthy_opt _ _);
          [apply find_flags_steps | apply returns_ret, _]]|];
  apply (returns_steps _ _ _ tt);
    [apply returns_yields; unfold resource_calls;
     apply (returns_for_steps_in (resolves w url (lit "href"))); [|exact Hl];
     let link := fresh "link" in
     let H := fresh "H" in
     intros link H; unfold resolves in H;
     destruct (truthy_opt truthy_str (tag_get _ _));
       [by apply joined_resource_steps, H | apply returns_ret, _]|];
  apply returns_bind; [apply _ | |intros _];
    [apply returns_for; [apply _|]; intros style;
     destruct (truthy_opt _ _);
       [apply find_flags_steps | apply returns_ret, _]
    |apply returns_for; [apply _|]; intros comment; apply find_flags_steps].

Lemma scan_url_steps w url :
  url_scan_ok w url -> returns (steps (url_calls w url)) (scan_url w url).
Proof.
  unfold scan_url, url_calls, url_scan_ok. intros Hok.
  apply (returns_steps [] _ _ tt); [apply returns_yields, log_steps|].
  apply (returns_steps [Get url] _ _ (fetch_result w url)); [apply fetch_steps|].
  destruct (truthy_opt truthy_str (fetch_result w url)); cbn [negb];
    [|apply returns_ret, _].
  specialize (Hok eq_refl).
  set (body := default [] (fetch_result w url)) in *.
  apply (returns_steps [] _ _ tt); [apply returns_yields, find_flags_steps|].
  page_steps w url body Hok.
Qed.

Ltac script_steps :=
  let script := fresh "script" in
  let H := fresh "H" in
  intros script H; unfold resolves in H; cbv beta;
  destruct (truthy_opt truthy_str (tag_get _ _));
    [by apply joined_resource_steps, H
    |destruct (truthy_opt truthy_str (tag_string script));
       [apply find_flags_steps | apply returns_ret, _]].

(** The scan of a URL does not return when the parser rejects the page,
    or [urljoin] a reference: the exception leaves [scan_url]. *)
Lemma scan_url_raises w url p :
  ¬ url_scan_ok w url ->
  ∃ msg p', scan_url w url p = (inl (Exception msg), p').
Proof.
  unfold url_scan_ok. intros Hno.
  destruct (truthy_opt truthy_str (fetch_result w url)) eqn:Et;
    [|by destruct Hno].
  assert (Hpage : ¬ page_ok w url (default [] (fetch_result w url)))
    by (intros H; by apply Hno).
  clear Hno. unfold scan_url. rewrite bind_run, log_run.
  set (p0 := mkProc _ _ _).
  destruct (fetch_run w url p0) as (out & E & _). rewrite bind_run, E, Et.
  cbn [negb]. set (body := default [] (fetch_result w url)) in *.
  rewrite bind_run, find_flags_run. set (p2 := mkProc _ _ _).
  rewrite bind_run, BeautifulSoup_run. unfold page_ok, parsed in Hpage.
  destruct (html_parser w body) as [msg|soup]; [by eexists _, _|].
  set (p3 := mkProc _ _ _). rewrite bind_run.
  destruct (decide (Forall (resolves w url (lit "src")) (find_all_script soup)))
    as [Hs|Hs].
  - assert (Hl : ¬ Forall (resolves w url (lit "href"))
                     (find_all_link_stylesheet soup))
      by (intros H; apply Hpage; by split_and!).
    match goal with
    | |- context [for_ (find_all_script soup) ?b p3] =>
        destruct (returns_for_steps_in (resolves w url (lit "src"))
                    (fun tag =>
                       if truthy_opt truthy_str (tag_get (attrs tag) (lit "src"))
                       then [Get (resolved w url
                                    (default [] (tag_get (attrs tag) (lit "src"))))]
                       else [])
                    (find_all_script soup) b) with (p := p3)
          as ([] & p4 & -> & _); [script_steps | exact Hs |]
    end.
    rewrite bind_run.
    match goal with
    | |- context [for_ (find_all_link_stylesheet soup) ?b p4] =>
        destruct (for_raises grows (resolves w url (lit "href"))
                    (find_all_link_stylesheet soup) b) with (p := p4)
          as (msg & p' & -> & _); [| |exact Hl|by eexists _, _]
    end.
    + intros link H. unfold resolves in H.
      destruct (truthy_opt truthy_str (tag_get _ _)); [|apply returns_ret, _].
      eapply returns_weaken; [|by apply joined_resource_steps, H].
      by intros ? ? [? _].
    + intros link H q. by apply joined_resource_raises.
  - match goal with
    | |- context [for_ (find_all_script soup) ?b p3] =>
        destruct (for_raises grows (resolves w url (lit "src"))
                    (find_all_script soup) b) with (p := p3)
          as (msg & p' & -> & _); [| |exact Hs|by eexists _, _]
    end.
    + intros script H. unfold resolves in H.
      destruct (truthy_opt truthy_str (tag_get _ _)).
      * eapply returns_weaken; [|by apply joined_resource_steps, H].
        by intros ? ? [? _].
      * destruct (truthy_opt truthy_str (tag_string script));
          [|apply returns_ret, _].
        eapply returns_weaken; [|apply find_flags_steps]. by intros ? ? [? _].
    + intros script H q. by apply joined_resource_raises.
Qed.

(** ** The order of the summary *)

Lemma str_lt_irrefl a : str_lt a a = false.
Proof.
  induction a as [|x a IH]; [done|]. simpl. by rewrite N.ltb_irrefl.
Qed.

Lemma str_lt_asym a b : str_lt a b = true -> str_lt b a = false.
Proof.
  revert b. induction a as [|x a IH]; intros [|y b]; simpl; try done.
  destruct (N.ltb_spec x y), (N.ltb_spec y x); try done; try lia. apply IH.
Qed.

Lemma str_lt_connex a b : str_lt a b = false -> str_lt b a = false -> a = b.
Proof.
  revert b. induction a as [|x a IH]; intros [|y b]; simpl; try done.
  destruct (N.ltb_spec x y), (N.ltb_spec y x); try done.
  intros. assert (x = y) as -> by lia. f_equal. by apply IH.
Qed.

Lemma str_lt_trans a b c :
  str_lt a b = true -> str_lt b c = true -> str_lt a c = true.
Proof.
  revert b c. induction a as [|x a IH]; intros [|y b] [|z c]; simpl; try done.
  destruct (N.ltb_spec x y), (N.ltb_spec y x), (N.ltb_spec y z),
    (N.ltb_spec z y), (N.ltb_spec x z), (N.ltb_spec z x);
    try done; try lia.
  apply IH.
Qed.

(** The comparison the program sorts with is the lexicographic order. *)
Lemma str_lt_lex a b : str_lt a b = true ↔ lex_lt a b.
Proof.
  split.
  - revert b. induction a as [|x a IH]; intros [|y b]; simpl; try done.
    + intros _. exists []. left. by exists y, b.
    + destruct (N.ltb_spec x y).
      * intros _. exists []. right. by exists x, y, a, b.
      * destruct (N.ltb_spec y x); [done|]. assert (x = y) as -> by lia.
        intros (pre & Hp)%IH. exists (y :: pre).
        destruct Hp as [(y' & b' & -> & ->)|(x' & y' & a' & b' & -> & -> & ?)].
        -- left. by exists y', b'.
        -- right. by exists x', y', a', b'.
  - intros (pre & H). revert a b H. induction pre as [|c pre IH]; intros a b H.
    + destruct H as [(y & b' & -> & ->)|(x & y & a' & b' & -> & -> & ?)].
      * done.
      * simpl. by destruct (N.ltb_spec x y); [|lia].
    + assert (E : ∀ u v, str_lt (c :: u) (c :: v) = str_lt u v).
      { intros u v. simpl. by rewrite N.ltb_irrefl. }
      destruct H as [(y & b' & -> & ->)|(x & y & a' & b' & -> & -> & ?)].
      * cbn [app]. rewrite E. apply IH. left. by exists y, b'.
      * cbn [app]. rewrite E. apply IH. right. by exists x, y, a', b'.
Qed.

Global Instance str_le_total : Total str_le.
Proof.
  intros a b. unfold str_le.
  destruct (str_lt b a) eqn:E; [right; by apply str_lt_asym | by left].
Qed.

Global Instance str_le_trans : Transitive str_le.
Proof.
  intros a b c. unfold str_le. intros Hba Hcb.
  destruct (str_lt c a) eqn:E; [|done].
  destruct (str_lt a b) eqn:Eab.
  - by rewrite (str_lt_trans c a b) in Hcb.
  - assert (a = b) as -> by by apply str_lt_connex. congruence.
Qed.

(** [sorted] lists the set: every element once, in strictly ascending
    lexicographic order. *)
Lemma sorted_spec (s : gset str) :
  StronglySorted lex_lt (sorted s) ∧ NoDup (sorted s)
  ∧ ∀ f, f ∈ sorted s ↔ f ∈ s.
Proof.
  assert (Hperm : sorted s ≡ₚ elements s) by apply merge_sort_Permutation.
  assert (Hnd : NoDup (sorted s)).
  { rewrite Hperm. apply NoDup_elements. }
  split_and!; [|done|].
  - assert (Hs : StronglySorted str_le (sorted s))
      by (apply StronglySorted_merge_sort; apply _).
    revert Hs Hnd. generalize (sorted s). clear.
    induction 1 as [|a l Hl IH Ha]; intros Hnd; constructor.
    + apply IH. by apply NoDup_cons in Hnd as [_ ?].
    + apply NoDup_cons in Hnd as [Hnot _].
      rewrite Forall_forall in Ha. apply Forall_forall. intros b Hb.
      apply str_lt_lex. destruct (str_lt a b) eqn:E; [done|].
      assert (a = b) as -> by (apply str_lt_connex; [done | by apply Ha]).
      done.
  - intros f. by rewrite Hperm, elem_of_elements.
Qed.

(** ** [print_summary] *)

Lemma print_loop (pre : str) (l : list str) p :
  for_ l (fun flag => print (pre ++ flag)) p
  = (inr tt, mkProc (self p) (stdout p ++ map (app pre) l) (calls p)).
Proof.
  revert p. induction l as [|x l IH]; intros p.
  - destruct p. cbn. by rewrite app_nil_r.
  - cbn [for_]. rewrite bind_run. cbn [print]. etrans; [apply IH|].
    cbn [self stdout calls map]. by rewrite <- app_assoc.
Qed.

Lemma print_summary_run p :
  print_summary p
  = (inr tt,
     mkProc (self p)
       (stdout p
        ++ [nl :: rule]
        ++ (if decide (found_flags (self p) = ∅)
            then [lit "[-] No flags found"]
            else [lit "[+] Total flags found: "
                  ++ str_of_nat (size (found_flags (self p)));
                  nl :: lit "All flags:"]
                 ++ map (app (lit "  ")) (sorted (found_flags (self p))))
        ++ [rule])
       (calls p)).
Proof.
  unfold print_summary.
  do 3 (rewrite bind_run; cbn [print get_self self stdout calls]).
  destruct (decide (found_flags (self p) = ∅)) as [E|E].
  - rewrite bool_decide_eq_true_2 by done. cbn [negb print self stdout calls].
    unfold print. cbn [self stdout calls]. by rewrite <- !app_assoc.
  - rewrite bool_decide_eq_false_2 by done. cbn [negb].
    do 2 (rewrite bind_run; cbn [print self stdout calls]).
    rewrite print_loop. unfold print. cbn [self stdout calls].
    by rewrite <- !app_assoc.
Qed.

(** ** [main] *)

Lemma flat_map_singleton {A B} (f : A -> B) (l : list A) :
  flat_map (fun x => [f x]) l = map f l.
Proof. induction l; simpl; congruence. Qed.

Lemma main_help w p :
  main w HelpRequested p
  = (inl (SystemExit 0),
     mkProc (self p) (stdout p ++ [format_help w]) (calls p)).
Proof. reflexivity. Qed.

Lemma main_rejected w p : main w Rejected p = (inl (SystemExit 2), p).
Proof. reflexivity. Qed.

Lemma main_usage w args p :
  truthy_opt truthy_str (arg_url args)
  || truthy_opt truthy_list (arg_files args)
  || truthy_opt truthy_str (arg_directory args) = false ->
  main w (Parsed args) p
  = (inl (SystemExit 1),
     mkProc (self p) (stdout p ++ [format_help w]) (calls p)).
Proof.
  intros E. unfold main. rewrite bind_run. cbn [parse_args mret Py_ret].
  rewrite bind_run, E. reflexivity.
Qed.

(** A run that scans: the opening lines, then the scans and the summary
    from the fresh object on. *)
Lemma main_scans w args p :
  truthy_opt truthy_str (arg_url args)
  || truthy_opt truthy_list (arg_files args)
  || truthy_opt truthy_str (arg_directory args) = true ->
  main w (Parsed args) p
  = ((if truthy_opt truthy_str (arg_url args)
      then scan_url w (default [] (arg_url args)) else mret tt);;
     (if truthy_opt truthy_list (arg_files args)
      then for_ (default [] (arg_files args)) (fun file => scan_file w file)
      else mret tt);;
     (if truthy_opt truthy_str (arg_directory args)
      then scan_directory w (default [] (arg_directory args)) None
      else mret tt);;
     print_summary) (started args p).
Proof.
  intros E. unfold main. rewrite bind_run. cbn [parse_args mret Py_ret].
  rewrite bind_run, E. cbn [negb mret Py_ret].
  do 3 (rewrite bind_run; cbn [new_finder print self stdout calls]).
  rewrite <- app_assoc. reflexivity.
Qed.

Lemma main_run w args p :
  truthy_opt truthy_str (arg_url args)
  || truthy_opt truthy_list (arg_files args)
  || truthy_opt truthy_str (arg_directory args) = true ->
  run_ok w args ->
  ∃ p1, steps (main_calls w args) (started args p) p1
        ∧ main w (Parsed args) p = print_summary p1.
Proof.
  intros E Hok. rewrite (main_scans w args p E).
  assert (H1 : returns
                 (steps (if truthy_opt truthy_str (arg_url args)
                         then url_calls w (default [] (arg_url args)) else []))
                 (if truthy_opt truthy_str (arg_url args)
                  then scan_url w (default [] (arg_url args)) else mret tt)).
  { unfold run_ok in Hok. destruct (truthy_opt truthy_str (arg_url args));
      [by apply scan_url_steps, Hok | apply returns_ret, _]. }
  assert (H2 : returns
                 (steps (if truthy_opt truthy_list (arg_files args)
                         then map Open (default [] (arg_files args)) else []))
                 (if truthy_opt truthy_list (arg_files args)
                  then for_ (default [] (arg_files args))
                         (fun file => scan_file w file)
                  else mret tt)).
  { destruct (truthy_opt truthy_list (arg_files args)); [|apply returns_ret, _].
    rewrite <- flat_map_singleton. apply returns_for_steps.
    intros f. apply scan_file_steps. }
  assert (H3 : returns
                 (steps (if truthy_opt truthy_str (arg_directory args)
                         then Walk (default [] (arg_directory args))
                              :: map Open
                                   (selected w (default [] (arg_directory args))
                                      default_extensions)
                         else []))
                 (if truthy_opt truthy_str (arg_directory args)
                  then scan_directory w (default [] (arg_directory args)) None
                  else mret tt)).
  { destruct (truthy_opt truthy_str (arg_directory args));
      [|apply returns_ret, _].
    apply (scan_directory_steps w _ None). }
  destruct (H1 (started args p)) as ([] & q1 & E1 & S1).
  destruct (H2 q1) as ([] & q2 & E2 & S2).
  destruct (H3 q2) as ([] & q3 & E3 & S3).
  exists q3. split.
  - unfold main_calls. eapply steps_app; [exact S1|].
    eapply steps_app; [exact S2 | exact S3].
  - rewrite (bind_returns _ _ _ _ _ E1), (bind_returns _ _ _ _ _ E2).
    by rewrite (bind_returns _ _ _ _ _ E3).
Qed.

(** A run whose URL scan raises ends where that scan ends: no file is
    read, no directory walked, no summary printed. *)
Lemma main_raises w args p :
  ¬ run_ok w args ->
  ∃ msg p',
    scan_url w (default [] (arg_url args)) (started args p)
    = (inl (Exception msg), p')
    ∧ main w (Parsed args) p = (inl (Exception msg), p').
Proof.
  unfold run_ok. intros Hno.
  destruct (truthy_opt truthy_str (arg_url args)) eqn:Eu; [|by destruct Hno].
  assert (Hurl : ¬ url_scan_ok w (default [] (arg_url args)))
    by (intros H; by apply Hno).
  destruct (scan_url_raises w _ (started args p) Hurl) as (msg & p' & E).
  exists msg, p'. split; [exact E|].
  rewrite main_scans by (by rewrite Eu). by rewrite Eu, bind_run, E.
Qed.

(** The effect of scanning a readable file. *)
Lemma scan_file_ok_run w filepath data p :
  fs_read w filepath = inr data ->
  scan_file w filepath p
  = (inr tt,
     mkProc
       (set_found_flags
          (found_flags (self p)
           ∪ list_to_set (Re.findall flag_pattern (read_text data)))
          (self p))
       (stdout p
        ++ (if verbose (self p)
            then [lit "[*] " ++ lit "Scanning file: " ++ filepath] else [])
        ++ flat_map (report filepath)
             (fresh (found_flags (self p))
                (Re.findall flag_pattern (read_text data))))
       (calls p ++ [Open filepath])).
Proof.
  intros E. rewrite (scan_file_ok _ _ _ _ E), bind_run, log_run, find_flags_run.
  cbn [self stdout calls]. by rewrite <- app_assoc.
Qed.

(** ** The flags each operation adds *)

Lemma adds_same p p' :
  found_flags (self p') = found_flags (self p) -> adds ∅ p p'.
Proof. unfold adds. intros ->. by rewrite union_empty_r_L. Qed.

Lemma adds_nothing p : adds ∅ p p.
Proof. by apply adds_same. Qed.

Lemma adds_union X1 X2 p p1 p2 :
  adds X1 p p1 -> adds X2 p1 p2 -> adds (X1 ∪ X2) p p2.
Proof. unfold adds. intros H1 H2. rewrite H2, H1. set_solver. Qed.

Lemma adds_then {A B} X1 X2 (m : Py A) (a : A) (k : A -> Py B) :
  yields a (adds X1) m -> returns (adds X2) (k a) ->
  returns (adds (X1 ∪ X2)) (m ≫= k).
Proof. apply returns_seq, adds_union. Qed.

Lemma adds_skip {A B} X (m : Py A) (a : A) (k : A -> Py B) :
  yields a (adds ∅) m -> returns (adds X) (k a) -> returns (adds X) (m ≫= k).
Proof.
  intros Hm Hk. apply (returns_seq (adds ∅) (adds X) (adds X) m a k); try done.
  intros p p1 p2 H1 H2. unfold adds in *. rewrite H2, H1. set_solver.
Qed.

Lemma adds_ret {A} (a : A) : returns (adds ∅) (mret a).
Proof. intros p. exists a, p. split; [done | apply adds_nothing]. Qed.

Lemma adds_for {A} (g : A -> gset str) (l : list A) (body : A -> Py unit) :
  (∀ x, returns (adds (g x)) (body x)) ->
  returns (adds (⋃ map g l)) (for_ l body).
Proof.
  intros Hb. induction l as [|x l IH]; cbn [for_ map union_list foldr].
  - apply adds_ret.
  - apply (adds_then _ _ _ tt); [apply returns_yields, Hb | exact IH].
Qed.

Lemma adds_for_in {A} (P : A -> Prop) (g : A -> gset str) (l : list A)
    (body : A -> Py unit) :
  (∀ x, P x -> returns (adds (g x)) (body x)) -> Forall P l ->
  returns (adds (⋃ map g l)) (for_ l body).
Proof.
  intros Hb. induction 1 as [|x l Hx _ IH]; cbn [for_ map union_list foldr].
  - apply adds_ret.
  - apply (adds_then _ _ _ tt); [apply returns_yields, Hb, Hx | exact IH].
Qed.

Lemma adds_log message : returns (adds ∅) (log message).
Proof.
  intros p. rewrite log_run. eexists tt, _. split; [done|]. by apply adds_same.
Qed.

Lemma adds_find text source :
  returns (adds (text_flags text)) (find_flags_in_text text source).
Proof. intros p. rewrite find_flags_run. by eexists tt, _. Qed.

Lemma text_flags_nil : text_flags [] = ∅.
Proof. reflexivity. Qed.

(** Scanning what was handed back, if it is not empty. *)
Lemma adds_find_if (content : option str) (source : str) :
  returns (adds (text_flags (default [] content)))
    (if truthy_opt truthy_str content
     then find_flags_in_text (default [] content) source else mret tt).
Proof.
  destruct content as [[|c t]|]; cbn [truthy_opt truthy_str];
    [apply adds_ret | apply adds_find | apply adds_ret].
Qed.

Lemma adds_scan_file w filepath :
  returns (adds (file_flags w filepath)) (scan_file w filepath).
Proof.
  intros p. unfold file_flags. destruct (fs_read w filepath) as [msg|data] eqn:E.
  - rewrite (scan_file_error _ _ _ _ E). eexists tt, _. split; [done|].
    by apply adds_same.
  - rewrite (scan_file_ok_run _ _ _ _ E). by eexists tt, _.
Qed.

Lemma adds_fetch w url :
  yields (fetch_result w url) (adds ∅) (fetch_url_content w url).
Proof.
  intros p. destruct (fetch_run w url p) as (out & -> & _).
  eexists. split; [done|]. by apply adds_same.
Qed.

Lemma adds_resource w resource_url (label : str) :
  returns (adds (fetched_flags w resource_url))
    (content ← fetch_url_content w resource_url;
     if truthy_opt truthy_str content then
       find_flags_in_text (default [] content) (resource_url ++ label)
     else mret tt).
Proof.
  eapply adds_skip; [apply adds_fetch|]. apply adds_find_if.
Qed.

Lemma adds_scan_directory w directory extensions :
  returns
    (adds (⋃ map (file_flags w)
               (selected w directory (default default_extensions extensions))))
    (scan_directory w directory extensions).
Proof.
  unfold scan_directory, os_walk.
  apply (adds_skip _ _ tt); [apply returns_yields, adds_log|].
  eapply adds_skip.
  { intros p. eexists. split; [reflexivity|]. by apply adds_same. }
  replace (default default_extensions extensions)
    with (match extensions with Some l => l | None => default_extensions end)
    by by destruct extensions.
  set (exts := match extensions with Some l => l | None => _ end).
  unfold selected. rewrite <- list_fmap_compose.
  destruct (fs_tree w directory) as [t|]; [|apply adds_ret].
  rewrite <- walk_tree_files. generalize (walk directory t). intros triples.
  induction triples as [|[[root dirs] files] triples IH];
    cbn [for_ flat_map]; [apply adds_ret|].
  rewrite filter_app, fmap_app, union_list_app_L.
  apply (adds_then _ _ _ tt); [|exact IH]. apply returns_yields.
  clear. induction files as [|f files IH]; cbn [for_ map]; [apply adds_ret|].
  rewrite filter_cons. cbn [snd].
  destruct (decide (has_extension exts f)) as [Hf|Hf].
  - rewrite (proj2 (existsb_has_extension _ _) Hf).
    apply (adds_then _ _ _ tt); [|exact IH].
    apply returns_yields, adds_scan_file.
  - destruct (existsb _ exts) eqn:E.
    { by apply existsb_has_extension in E. }
    apply (adds_skip _ _ tt); [apply returns_yields, adds_ret | exact IH].
Qed.

Lemma adds_joined_resource w url ref (label : str) :
  answered (url_join w url ref) ->
  returns (adds (fetched_flags w (resolved w url ref)))
    (resource_url ← urljoin w url ref;
     content ← fetch_url_content w resource_url;
     if truthy_opt truthy_str content then
       find_flags_in_text (default [] content) (resource_url ++ label)
     else mret tt).
Proof.
  intros H. eapply adds_skip; [|apply adds_resource].
  by apply urljoin_yields; [apply adds_nothing|].
Qed.

(** The scan of a URL that meets no exception adds the flags of the
    page. *)
Lemma adds_scan_url w url :
  url_scan_ok w url -> returns (adds (url_flags w url)) (scan_url w url).
Proof.
  unfold scan_url, url_flags, url_scan_ok. intros Hok.
  apply (adds_skip _ _ tt); [apply returns_yields, adds_log|].
  eapply adds_skip; [apply adds_fetch|].
  destruct (truthy_opt truthy_str (fetch_result w url)); cbn [negb];
    [|apply adds_ret].
  destruct (page_ok_parsed w url _ (Hok eq_refl)) as (Hp & Hs & Hl).
  cbv zeta.
  apply (adds_then _ _ _ tt); [apply returns_yields, adds_find|].
  eapply adds_skip.
  { intros p. rewrite BeautifulSoup_run, Hp. eexists. split; [reflexivity|].
    by apply adds_same. }
  apply (adds_then _ _ _ tt).
  { apply returns_yields, (adds_for_in (resolves w url (lit "src")));
      [|exact Hs].
    intros script H. unfold resolves in H.
    destruct (truthy_opt truthy_str (tag_get _ _));
      [by apply adds_joined_resource, H | apply adds_find_if]. }
  apply (adds_then _ _ _ tt).
  { apply returns_yields, (adds_for_in (resolves w url (lit "href")));
      [|exact Hl].
    intros link H. unfold resolves in H.
    destruct (truthy_opt truthy_str (tag_get _ _));
      [by apply adds_joined_resource, H | apply adds_ret]. }
  apply (adds_then _ _ _ tt).
  { apply returns_yields, adds_for. intros style. apply adds_find_if. }
  apply adds_for. intros comment. apply adds_find.
Qed.

(** An operation that meets no exception adds the flags of its source. *)
Lemma adds_perform w o :
  operation_ok w o -> returns (adds (operation_flags w o)) (perform w o).
Proof.
  destruct o; cbn [perform operation_flags operation_ok]; intros Hok.
  - apply adds_find.
  - apply adds_scan_file.
  - apply adds_scan_directory.
  - by apply adds_scan_url.
  - intros p. rewrite print_summary_run. eexists tt, _. split; [done|].
    by apply adds_same.
Qed.

(** ** The texts each scan hands to the matcher *)

Lemma scans_flags_app l1 l2 :
  scans_flags (l1 ++ l2) = scans_flags l1 ∪ scans_flags l2.
Proof. unfold scans_flags. by rewrite map_app, union_list_app_L. Qed.

Lemma scan_reports_app seen l1 l2 :
  scan_reports seen (l1 ++ l2)
  = scan_reports seen l1 ++ scan_reports (seen ∪ scans_flags l1) l2.
Proof.
  revert seen. induction l1 as [|[text source] l1 IH]; intros seen.
  - cbn. by rewrite union_empty_r_L.
  - cbn [app scan_reports]. rewrite IH, <- app_assoc. do 3 f_equal.
    unfold scans_flags. cbn [map union_list foldr fst].
    apply leibniz_equiv. set_solver.
Qed.

Lemma not_report_line (line : str) :
  (∀ t, line ≠ nl :: t) -> (∀ t, line ≠ 32%N :: t) -> ¬ is_report_line line.
Proof. intros H1 H2 [[k ->]|[k ->]]; [by eapply H1 | by eapply H2]. Qed.

Lemma no_report_lines (out : list str) :
  Forall (fun line => (∀ t, line ≠ nl :: t) ∧ (∀ t, line ≠ 32%N :: t)) out ->
  filter is_report_line out = [].
Proof.
  induction 1 as [|line out [H1 H2] _ IH]; [done|].
  rewrite filter_cons, decide_False by by apply not_report_line. exact IH.
Qed.

Lemma report_lines_kept source l :
  filter is_report_line (flat_map (report source) l)
  = flat_map (report source) l.
Proof.
  induction l as [|x l IH]; [done|]. cbn [flat_map report app].
  rewrite filter_cons, decide_True by (left; by eexists).
  rewrite filter_cons, decide_True by (right; by eexists).
  by rewrite IH.
Qed.

Lemma scanned_quiet p s out c :
  found_flags s = found_flags (self p) ->
  Forall (fun line => (∀ t, line ≠ nl :: t) ∧ (∀ t, line ≠ 32%N :: t)) out ->
  scanned [] p (mkProc s (stdout p ++ out) c).
Proof.
  intros Hs Ho. split; cbn [self stdout].
  - rewrite Hs. unfold scans_flags. cbn. by rewrite union_empty_r_L.
  - exists out. split; [done|]. by rewrite no_report_lines.
Qed.

Lemma scanned_same p : scanned [] p p.
Proof.
  split.
  - unfold scans_flags. cbn. by rewrite union_empty_r_L.
  - exists []. by rewrite app_nil_r.
Qed.

Lemma scanned_app l1 l2 p p1 p2 :
  scanned l1 p p1 -> scanned l2 p1 p2 -> scanned (l1 ++ l2) p p2.
Proof.
  intros [F1 (o1 & O1 & R1)] [F2 (o2 & O2 & R2)]. split.
  - rewrite F2, F1, scans_flags_app. apply leibniz_equiv. set_solver.
  - exists (o1 ++ o2). split; [by rewrite O2, O1, app_assoc|].
    by rewrite filter_app, scan_reports_app, R1, R2, F1.
Qed.

Lemma scanned_then {A B} l1 l2 (m : Py A) (a : A) (k : A -> Py B) :
  yields a (scanned l1) m -> returns (scanned l2) (k a) ->
  returns (scanned (l1 ++ l2)) (m ≫= k).
Proof. apply returns_seq, scanned_app. Qed.

Lemma scanned_skip {A B} l (m : Py A) (a : A) (k : A -> Py B) :
  yields a (scanned []) m -> returns (scanned l) (k a) ->
  returns (scanned l) (m ≫= k).
Proof. apply (scanned_then [] l). Qed.

Lemma scanned_ret {A} (a : A) : returns (scanned []) (mret a).
Proof. intros p. exists a, p. split; [done | apply scanned_same]. Qed.

Lemma scanned_for_in {A} (P : A -> Prop) (g : A -> list (str * str))
    (l : list A) (body : A -> Py unit) :
  (∀ x, P x -> returns (scanned (g x)) (body x)) -> Forall P l ->
  returns (scanned (flat_map g l)) (for_ l body).
Proof.
  intros Hb. induction 1 as [|x l Hx _ IH]; cbn [for_ flat_map].
  - apply scanned_ret.
  - apply (scanned_then _ _ _ tt); [apply returns_yields, Hb, Hx | exact IH].
Qed.

Lemma scanned_for {A} (g : A -> list (str * str)) (l : list A)
    (body : A -> Py unit) :
  (∀ x, returns (scanned (g x)) (body x)) ->
  returns (scanned (flat_map g l)) (for_ l body).
Proof.
  intros Hb. apply (scanned_for_in (fun _ => True)); [auto|].
  by apply Forall_forall.
Qed.

Lemma scanned_log message : returns (scanned []) (log message).
Proof.
  intros p. rewrite log_run. eexists tt, _. split; [done|].
  apply scanned_quiet; [done|]. destruct (verbose _); [|done].
  constructor; [|done]. split; intros t [=].
Qed.

Lemma scanned_find text source :
  returns (scanned [(text, source)]) (find_flags_in_text text source).
Proof.
  intros p. rewrite find_flags_run. eexists tt, _. split; [done|].
  split; cbn [self stdout found_flags set_found_flags].
  - unfold scans_flags, text_flags. cbn. by rewrite union_empty_r_L.
  - eexists. split; [done|]. cbn [scan_reports].
    by rewrite report_lines_kept, app_nil_r.
Qed.

(** Scanning what was handed back, if it is not empty. *)
Lemma scanned_find_if (content : option str) (source : str) :
  returns (scanned (scanned_if content source))
    (if truthy_opt truthy_str content
     then find_flags_in_text (default [] content) source else mret tt).
Proof.
  unfold scanned_if. destruct (truthy_opt truthy_str content);
    [apply scanned_find | apply scanned_ret].
Qed.

Lemma scanned_fetch w url :
  yields (fetch_result w url) (scanned []) (fetch_url_content w url).
Proof.
  intros p. destruct (fetch_run w url p) as (out & -> & Hout).
  eexists. split; [done|]. rewrite app_assoc, <- app_assoc.
  apply scanned_quiet; [done|]. apply Forall_app. split.
  - destruct (verbose _); [|done]. constructor; [|done]. split; intros t [=].
  - assert (H : out = [] ∨ ∃ msg,
               out = [lit "[-] Error fetching " ++ url ++ lit ": " ++ msg]).
    { destruct (session_get w url); [eauto|]. destruct (is_error_status _); eauto. }
    destruct H as [->|[msg ->]]; [done|]. constructor; [|done].
    split; intros t [=].
Qed.

Lemma scanned_resource w url ref (label : str) :
  answered (url_join w url ref) ->
  returns
    (scanned (scanned_if (fetch_result w (resolved w url ref))
                (resolved w url ref ++ label)))
    (resource_url ← urljoin w url ref;
     content ← fetch_url_content w resource_url;
     if truthy_opt truthy_str content then
       find_flags_in_text (default [] content) (resource_url ++ label)
     else mret tt).
Proof.
  intros H. eapply scanned_skip; [by apply urljoin_yields; [apply scanned_same|]|].
  eapply scanned_skip; [apply scanned_fetch|]. apply scanned_find_if.
Qed.

(** The scan of a URL that meets no exception hands to the matcher the
    texts of the page, in order, each under its label. *)
Lemma scanned_scan_url w url :
  url_scan_ok w url -> returns (scanned (url_scans w url)) (scan_url w url).
Proof.
  unfold scan_url, url_scans, url_scan_ok, page_scans. intros Hok.
  apply (scanned_skip _ _ tt); [apply returns_yields, scanned_log|].
  eapply scanned_skip; [apply scanned_fetch|].
  destruct (truthy_opt truthy_str (fetch_result w url)); cbn [negb];
    [|apply scanned_ret].
  destruct (page_ok_parsed w url _ (Hok eq_refl)) as (Hp & Hs & Hl).
  cbv zeta.
  apply (scanned_then [_] _ _ tt); [apply returns_yields, scanned_find|].
  eapply scanned_skip.
  { intros p. rewrite BeautifulSoup_run, Hp. eexists. split; [reflexivity|].
    rewrite <- (app_nil_r (stdout p)). by apply scanned_quiet. }
  apply (scanned_then _ _ _ tt).
  { apply returns_yields, (scanned_for_in (resolves w url (lit "src")));
      [|exact Hs].
    intros script H. unfold resolves in H.
    destruct (truthy_opt truthy_str (tag_get _ _));
      [by apply scanned_resource, H | apply scanned_find_if]. }
  apply (scanned_then _ _ _ tt).
  { apply returns_yields, (scanned_for_in (resolves w url (lit "href")));
      [|exact Hl].
    intros link H. unfold resolves in H.
    destruct (truthy_opt truthy_str (tag_get _ _));
      [by apply scanned_resource, H | apply scanned_ret]. }
  apply (scanned_then _ _ _ tt).
  { apply returns_yields, scanned_for. intros style. apply scanned_find_if. }
  rewrite <- flat_map_singleton. apply scanned_for. intros comment.
  apply scanned_find.
Qed.

(** ** What a relation on states needs to hold of every operation *)

Lemma raise_for_status_cases response p :
  raise_for_status response p = (inr tt, p)
  ∨ ∃ msg, raise_for_status response p = (inl (Exception msg), p).
Proof.
  destruct (is_error_status (status_code response)) eqn:E.
  - right. by apply raise_for_status_error.
  - left. by apply raise_for_status_ok.
Qed.

Section Composite.

Context (w : World) (R : Proc -> Proc -> Prop) `{!PreOrder R}.

Hypothesis R_walk : ∀ directory, returns R (record (Walk directory)).
Hypothesis R_parse : ∀ html, returns R (record (Parse html)).
Hypothesis R_log : ∀ message, returns R (log message).
Hypothesis R_find : ∀ text source, returns R (find_flags_in_text text source).
Hypothesis R_summary : returns R print_summary.
Hypothesis R_scan_file : ∀ filepath, returns R (scan_file w filepath).
Hypothesis R_fetch : ∀ url, returns R (fetch_url_content w url).

Lemma composite_scan_directory directory extensions :
  returns R (scan_directory w directory extensions).
Proof.
  unfold scan_directory, os_walk.
  apply returns_bind; [apply _ | apply R_log | intros _].
  apply returns_bind; [apply _ | | intros triples].
  - apply returns_bind; [apply _ | apply R_walk | intros _].
    apply returns_ret, _.
  - apply returns_for; [apply _|]. intros [[root dirs] files].
    apply returns_for; [apply _|]. intros file.
    destruct (existsb _ _); [apply R_scan_file | apply returns_ret, _].
Qed.

Lemma composite_resource url ref (label : str) :
  completes R
    (resource_url ← urljoin w url ref;
     content ← fetch_url_content w resource_url;
     if truthy_opt truthy_str content then
       find_flags_in_text (default [] content) (resource_url ++ label)
     else mret tt).
Proof.
  apply completes_bind; [apply _ | | intros resource_url].
  { unfold urljoin.
    destruct (url_join w url ref); [apply completes_raise, _ | apply completes_ret, _]. }
  apply returns_completes.
  apply returns_bind; [apply _ | apply R_fetch | intros content].
  destruct (truthy_opt _ _); [apply R_find | apply returns_ret, _].
Qed.

Lemma composite_scan_parsed url soup : completes R (scan_parsed w url soup).
Proof.
  unfold scan_parsed.
  apply completes_bind; [apply _ | | intros _].
  { apply completes_for; [apply _|]. intros script.
    destruct (truthy_opt truthy_str (tag_get _ _)); [apply composite_resource|].
    destruct (truthy_opt truthy_str (tag_string script));
      [apply returns_completes, R_find | apply completes_ret, _]. }
  apply completes_bind; [apply _ | | intros _].
  { apply completes_for; [apply _|]. intros link.
    destruct (truthy_opt truthy_str (tag_get _ _));
      [apply composite_resource | apply completes_ret, _]. }
  apply returns_completes.
  apply returns_bind; [apply _ | | intros _].
  { apply returns_for; [apply _|]. intros style.
    destruct (truthy_opt _ _); [apply R_find | apply returns_ret, _]. }
  apply returns_for; [apply _|]. intros comment. apply R_find.
Qed.

(** The scan of a URL ends, normally or with the exception of the parser
    or of [urljoin], and [R] holds up to there. *)
Lemma composite_scan_url url : completes R (scan_url w url).
Proof.
  unfold scan_url, BeautifulSoup.
  apply completes_bind; [apply _ | apply returns_completes, R_log | intros _].
  apply completes_bind;
    [apply _ | apply returns_completes, R_fetch | intros html_content].
  destruct (negb _); [apply completes_ret, _|].
  apply completes_bind; [apply _ | apply returns_completes, R_find | intros _].
  apply completes_bind; [apply _ | | intros soup].
  { apply completes_bind;
      [apply _ | apply returns_completes, R_parse | intros _].
    destruct (html_parser w _);
      [apply completes_raise, _ | apply completes_ret, _]. }
  apply composite_scan_parsed.
Qed.

Lemma composite_perform o : completes R (perform w o).
Proof.
  destruct o; cbn [perform].
  - apply returns_completes, R_find.
  - apply returns_completes, R_scan_file.
  - apply returns_completes, composite_scan_directory.
  - apply composite_scan_url.
  - apply returns_completes, R_summary.
Qed.

(** A run that scans: from the fresh object on, [R] holds up to the end
    of the run, whether it ends normally or with an exception. *)
Lemma composite_main args p :
  truthy_opt truthy_str (arg_url args)
  || truthy_opt truthy_list (arg_files args)
  || truthy_opt truthy_str (arg_directory args) = true ->
  ∃ r p', main w (Parsed args) p = (r, p') ∧ R (started args p) p'
          ∧ ∀ code, r ≠ inl (SystemExit code).
Proof.
  intros E. rewrite (main_scans w args p E).
  assert (H : ∀ m : Py unit, completes R m ->
              ∃ r p', m (started args p) = (r, p') ∧ R (started args p) p'
                      ∧ ∀ code, r ≠ inl (SystemExit code)).
  { intros m Hm. apply Hm. }
  apply H.
  apply completes_bind; [apply _ | | intros _].
  { destruct (truthy_opt truthy_str (arg_url args));
      [apply composite_scan_url | apply completes_ret, _]. }
  apply returns_completes.
  apply returns_bind; [apply _ | | intros _].
  { destruct (truthy_opt truthy_list (arg_files args));
      [|apply returns_ret, _].
    apply returns_for; [apply _|]. intros file. apply R_scan_file. }
  apply returns_bind; [apply _ | | intros _; apply R_summary].
  destruct (truthy_opt truthy_str (arg_directory args));
    [apply composite_scan_directory | apply returns_ret, _].
Qed.

End Composite.

Section Frame.

Context (w : World) (R : Proc -> Proc -> Prop) `{!PreOrder R}.

Hypothesis R_record : ∀ c, returns R (record c).
Hypothesis R_log : ∀ message, returns R (log message).
Hypothesis R_error : ∀ t, returns R (print (lit "[-] " ++ t)).
Hypothesis R_find : ∀ text source, returns R (find_flags_in_text text source).
Hypothesis R_summary : returns R print_summary.

Lemma frame_open_read filepath : completes R (open_read w filepath).
Proof.
  unfold open_read.
  apply completes_bind; [apply _ | apply returns_completes, R_record|].
  intros _. destruct (fs_read w filepath) as [msg|data].
  - apply completes_raise, _.
  - apply completes_ret, _.
Qed.

Lemma frame_scan_file filepath : returns R (scan_file w filepath).
Proof.
  unfold scan_file. apply completes_try; [apply _ | |].
  - apply completes_bind; [apply _ | apply frame_open_read|]. intros content.
    apply returns_completes, returns_bind; [apply _ | apply R_log |].
    intros _. apply R_find.
  - intros e. apply (R_error (lit "Error reading " ++ filepath ++ lit ": " ++ e)).
Qed.

Lemma frame_fetch url : returns R (fetch_url_content w url).
Proof.
  unfold fetch_url_content, get. apply completes_try; [apply _ | |].
  - apply completes_bind; [apply _ | apply returns_completes, R_log | intros _].
    apply completes_bind; [apply _ | |].
    + apply completes_bind;
        [apply _ | apply returns_completes, R_record | intros _].
      destruct (session_get w url) as [msg|response].
      * apply completes_raise, _.
      * apply completes_ret, _.
    + intros response. apply completes_bind; [apply _ | |].
      * intros p. destruct (raise_for_status_cases response p) as [E|[msg E]];
          rewrite E; eexists _, p; split_and!; done.
      * intros _. apply completes_ret, _.
  - intros e. apply returns_bind; [apply _ | | intros _; apply returns_ret, _].
    apply (R_error (lit "Error fetching " ++ url ++ lit ": " ++ e)).
Qed.

Lemma frame_perform o : completes R (perform w o).
Proof.
  apply composite_perform;
    auto using frame_scan_file, frame_fetch; apply _.
Qed.

(** A run that scans: from the fresh object on, [R] holds up to the end. *)
Lemma frame_main args p :
  truthy_opt truthy_str (arg_url args)
  || truthy_opt truthy_list (arg_files args)
  || truthy_opt truthy_str (arg_directory args) = true ->
  ∃ r p', main w (Parsed args) p = (r, p') ∧ R (started args p) p'
          ∧ ∀ code, r ≠ inl (SystemExit code).
Proof.
  apply composite_main;
    auto using frame_scan_file, frame_fetch; apply _.
Qed.

End Frame.

(** ** The operations *)

Lemma print_summary_steps : returns (steps []) print_summary.
Proof.
  intros p. rewrite print_summary_run. eexists tt, _. split; [done|].
  split; [|cbn; by rewrite app_nil_r].
  split; cbn [self stdout]; [done | auto | done |].
  eexists. split; [done|].
  repeat (apply Forall_app; split); repeat constructor.
  + apply well_reported_other. intros t [=].
  + destruct (decide _).
    * repeat constructor. apply well_reported_other. intros t [=].
    * repeat constructor.
      -- apply well_reported_other. intros t [=].
      -- apply well_reported_other. intros t [=].
      -- apply Forall_forall. intros line (f & -> & _)%list_elem_of_fmap.
         apply well_reported_other. intros t [=].
  + apply well_reported_other. intros t [=].
Qed.

(** An operation that meets no exception returns, and made its calls. *)
Lemma perform_steps w o :
  operation_ok w o -> ∃ l, returns (steps l) (perform w o).
Proof.
  destruct o; intros Hok; eexists; cbn [perform].
  - apply find_flags_steps.
  - apply scan_file_steps.
  - apply scan_directory_steps.
  - by apply scan_url_steps.
  - apply print_summary_steps.
Qed.

Lemma perform_raises w o p :
  ¬ operation_ok w o ->
  ∃ msg p', perform w o p = (inl (Exception msg), p').
Proof.
  destruct o; cbn [operation_ok perform]; try (by intros []).
  apply scan_url_raises.
Qed.

Lemma steps_grows l p p' : steps l p p' -> grows p p'.
Proof. by intros [? _]. Qed.

(** Every operation, and every sequence of operations, ends, normally or
    with an exception of the scan of a URL, and the state only grew. *)
Lemma perform_grows w o : completes grows (perform w o).
Proof.
  apply composite_perform; try apply _.
  - intros d. eapply returns_weaken; [apply steps_grows | apply record_steps].
  - intros h. eapply returns_weaken; [apply steps_grows | apply record_steps].
  - intros m. eapply returns_weaken; [apply steps_grows | apply log_steps].
  - intros t s. eapply returns_weaken; [apply steps_grows | apply find_flags_steps].
  - eapply returns_weaken; [apply steps_grows | apply print_summary_steps].
  - intros f. eapply returns_weaken; [apply steps_grows | apply scan_file_steps].
  - intros u. eapply returns_weaken; [apply steps_grows|].
    apply yields_returns with (a := fetch_result w u), fetch_steps.
Qed.

Lemma operations_grow w ops : completes grows (for_ ops (perform w)).
Proof. apply completes_for; [apply _ | apply perform_grows]. Qed.

(** ** What the scan of a URL touches *)

Global Instance browses_preorder : PreOrder browses.
Proof.
  split.
  - intros p. exists []. split; [apply steps_nil | done].
  - intros p1 p2 p3 (l1 & S1 & W1) (l2 & S2 & W2). exists (l1 ++ l2).
    split; [by eapply steps_app | by apply Forall_app].
Qed.

Lemma steps_browses l p p' : Forall web_call l -> steps l p p' -> browses p p'.
Proof. intros Hl Hs. by exists l. Qed.


Lemma scan_parsed_browses w url soup :
  completes browses (scan_parsed w url soup).
Proof.
  apply composite_scan_parsed; try apply _.
  - intros t s. eapply returns_weaken; [|apply find_flags_steps].
    intros q q'. by apply steps_browses.
  - intros u. eapply returns_weaken;
      [|apply yields_returns with (a := fetch_result w u), fetch_steps].
    intros q q'. apply steps_browses. by repeat constructor.
Qed.

(** The scan of a URL, step by step: the fetch, and then either nothing
    more, or the scan of the body, the call to the parser and, from
    there, the steps on the parsed page up to the end of the scan. *)
Lemma scan_url_run w url p :
  ∃ p1,
    fetch_url_content w url
      (mkProc (self p)
         (stdout p ++ (if verbose (self p)
                       then [lit "[*] " ++ lit "Scanning URL: " ++ url]
                       else []))
         (calls p))
    = (inr (fetch_result w url), p1)
    ∧ self p1 = self p
    ∧ calls p1 = calls p ++ [Get url]
    ∧ (∃ o, stdout p1 = stdout p ++ o)
    ∧ match fetch_result w url with
      | Some (c :: body) =>
          ∃ p2 r p',
            find_flags_in_text (c :: body) (url ++ lit " (HTML)") p1
            = (inr tt, p2)
            ∧ scan_url w url p = (r, p')
            ∧ browses
                (mkProc (self p2) (stdout p2) (calls p2 ++ [Parse (c :: body)]))
                p'
      | _ => scan_url w url p = (inr tt, p1)
      end.
Proof.
  unfold scan_url. rewrite bind_run, log_run. set (p0 := mkProc _ _ _).
  destruct (fetch_run w url p0) as (out & E & _).
  eexists. split; [exact E|]. split; [done|]. split; [done|].
  split; [eexists; cbn [stdout p0]; by rewrite <- app_assoc|].
  rewrite bind_run, E.
  destruct (fetch_result w url) as [[|c body]|]; try done.
  cbn [truthy_opt truthy_str negb default from_option id].
  rewrite bind_run, find_flags_run. set (p2 := mkProc _ _ _).
  exists p2. rewrite bind_run, BeautifulSoup_run.
  destruct (html_parser w (c :: body)) as [msg|soup].
  - eexists _, _. split; [done|]. split; [done|]. reflexivity.
  - destruct (scan_parsed_browses w url soup
                (mkProc (self p2) (stdout p2) (calls p2 ++ [Parse (c :: body)])))
      as (r & p' & Er & B & _).
    exists r, p'. split; [done|]. split; [exact Er | exact B].
Qed.

(** A sequence of operations returns when none of them meets an
    exception, and ends with the exception of the first one that does. *)
Lemma operations_return w ops p :
  Forall (operation_ok w) ops -> ∃ p', for_ ops (perform w) p = (inr tt, p').
Proof.
  intros H.
  destruct (returns_for_in grows (operation_ok w) ops (perform w)) with (p := p)
    as ([] & p' & E & _); [|done|by exists p'].
  intros o Ho. destruct (perform_steps w o Ho) as [l Hl].
  eapply returns_weaken; [apply steps_grows | exact Hl].
Qed.

Lemma operations_raise w ops p :
  ¬ Forall (operation_ok w) ops ->
  ∃ msg p', for_ ops (perform w) p = (inl (Exception msg), p').
Proof.
  intros H.
  revert p. induction ops as [|o ops IH]; intros p.
  - by destruct H.
  - cbn [for_]. rewrite bind_run. destruct (decide (operation_ok w o)) as [Ho|Ho].
    + destruct (perform_steps w o Ho) as [l Hl].
      destruct (Hl p) as ([] & p1 & -> & _). apply IH.
      intros Hall. apply H. by constructor.
    + destruct (perform_raises w o p Ho) as (msg & p' & ->). by exists msg, p'.
Qed.

Lemma sorted_lists (s : gset str) : lists s (sorted s).
Proof.
  destruct (sorted_spec s) as (Hs & Hnd & Hin). split_and!; try done.
  unfold sorted. rewrite merge_sort_Permutation. done.
Qed.

Lemma print_summary_lines p :
  print_summary p
  = (inr tt,
     mkProc (self p)
       (stdout p ++ summary_lines (sorted (found_flags (self p))))
       (calls p)).
Proof.
  rewrite print_summary_run. do 3 f_equal. unfold summary_lines. do 2 f_equal.
  destruct (sorted_lists (found_flags (self p))) as (_ & _ & Hlen & Hin).
  destruct (decide (found_flags (self p) = ∅)) as [E|E].
  - destruct (sorted _) as [|f l]; [done|].
    assert (f ∈ found_flags (self p)) by (apply Hin; by left). set_solver.
  - destruct (sorted _) as [|f l] eqn:Es.
    + destruct E. apply set_eq. intros f. rewrite <- Hin. set_solver.
    + by rewrite Hlen.
Qed.

(** ** The decoder *)

Lemma decode_ascii (good rest : list N) :
  Forall (fun b => (b < 128)%N) good ->
  Utf8.decode_ignore (good ++ rest) = good ++ Utf8.decode_ignore rest.
Proof.
  induction 1 as [|b good Hb _ IH]; [done|].
  cbn [app Utf8.decode_ignore].
  destruct (N.ltb_spec b 128); [|lia]. by rewrite IH.
Qed.

Lemma decode_invalid_start (b : N) (rest : list N) :
  (128 <= b < 194)%N ∨ (245 <= b)%N ->
  Utf8.decode_ignore (b :: rest) = Utf8.decode_ignore rest.
Proof.
  intros Hb. cbn [Utf8.decode_ignore].
  destruct (N.ltb_spec b 128); [lia|].
  destruct (N.ltb_spec b 194); [done|].
  destruct (N.ltb_spec b 224); [lia|].
  destruct (N.ltb_spec b 240); [lia|].
  destruct (N.ltb_spec b 245); [lia|]. done.
Qed.

Lemma is_continuation_trail b : Utf8.is_continuation b = true ↔ trail b.
Proof.
  unfold Utf8.is_continuation, trail.
  rewrite andb_true_iff, N.leb_le, N.leb_le. done.
Qed.

Lemma cp2_value b1 b2 :
  (192 <= b1)%N -> (128 <= b2)%N ->
  Utf8.cp2 b1 b2 = ((b1 - 192) * 64 + (b2 - 128))%N.
Proof.
  intros. unfold Utf8.cp2. rewrite !N.shiftl_mul_pow2.
  change (2 ^ 6)%N with 64%N. lia.
Qed.

Lemma cp3_value b1 b2 b3 :
  (224 <= b1)%N -> (128 <= b2)%N -> (128 <= b3)%N ->
  Utf8.cp3 b1 b2 b3
  = ((b1 - 224) * 4096 + (b2 - 128) * 64 + (b3 - 128))%N.
Proof.
  intros. unfold Utf8.cp3. rewrite !N.shiftl_mul_pow2.
  change (2 ^ 6)%N with 64%N. change (2 ^ 12)%N with 4096%N. lia.
Qed.

Lemma cp4_value b1 b2 b3 b4 :
  (240 <= b1)%N -> (128 <= b2)%N -> (128 <= b3)%N -> (128 <= b4)%N ->
  Utf8.cp4 b1 b2 b3 b4
  = ((b1 - 240) * 262144 + (b2 - 128) * 4096 + (b3 - 128) * 64
     + (b4 - 128))%N.
Proof.
  intros. unfold Utf8.cp4. rewrite !N.shiftl_mul_pow2.
  change (2 ^ 6)%N with 64%N. change (2 ^ 12)%N with 4096%N.
  change (2 ^ 18)%N with 262144%N. lia.
Qed.

(** A well-formed sequence encodes a scalar value, in its shortest form. *)
Ltac ltb_props :=
  repeat match goal with
         | H : (_ <? _)%N = true |- _ => apply N.ltb_lt in H
         | H : (_ <? _)%N = false |- _ => apply N.ltb_ge in H
         | H : (_ =? _)%N = true |- _ => apply N.eqb_eq in H
         | H : (_ =? _)%N = false |- _ => apply N.eqb_neq in H
         end.

(** A well-formed sequence encodes a scalar value, in its shortest form. *)
Lemma well_formed_scalar bs c :
  well_formed bs c ->
  ((c < 55296)%N ∨ (57344 <= c <= 1114111)%N)
  ∧ length bs
    = (if (c <? 128)%N then 1 else if (c <? 2048)%N then 2
       else if (c <? 65536)%N then 3 else 4)%nat.
Proof.
  destruct 1 as [b H|b1 b2 H1 H2|b1 b2 b3 H1 H2 H3 Hl Hh
                 |b1 b2 b3 b4 H1 H2 H3 H4 Hl Hh];
    unfold trail in *; cbn [length].
  - repeat case_match; ltb_props; split; try lia; done.
  - repeat case_match; ltb_props; split; try lia; done.
  - assert (b1 = 224 ∨ b1 = 237 ∨ (b1 ≠ 224 ∧ b1 ≠ 237))%N as [E|[E|[E1 E2]]]
      by lia.
    + specialize (Hl E). repeat case_match; ltb_props; split; try lia; done.
    + specialize (Hh E). repeat case_match; ltb_props; split; try lia; done.
    + repeat case_match; ltb_props; split; try lia; done.
  - assert (b1 = 240 ∨ b1 = 244 ∨ (b1 ≠ 240 ∧ b1 ≠ 244))%N as [E|[E|[E1 E2]]]
      by lia.
    + specialize (Hl E). repeat case_match; ltb_props; split; try lia; done.
    + specialize (Hh E). repeat case_match; ltb_props; split; try lia; done.
    + repeat case_match; ltb_props; split; try lia; done.
Qed.

Lemma is_continuation_not b : Utf8.is_continuation b = false -> ¬ trail b.
Proof. intros E H. apply is_continuation_trail in H. congruence. Qed.

Ltac trails := repeat (apply Forall_cons_2; [done|]); by apply Forall_nil_2.

(** No well-formed sequence starts the bytes at hand. *)
Ltac ill_formed :=
  let Hwf := fresh "Hwf" in
  let k := fresh "k" in
  let E := fresh "E" in
  intros ? ? Hwf [k E]; destruct Hwf; unfold trail in *; simplify_eq/=; lia.

(** One step of the decoder: it decodes the well-formed sequence the
    bytes start with, or, when they start with none, it drops the first
    byte and the continuation bytes it took with it. *)
Lemma decode_start (ch : N) (s1 : list N) :
  (∃ bs c rest,
      well_formed bs c ∧ ch :: s1 = bs ++ rest
      ∧ Utf8.decode_ignore (ch :: s1) = c :: Utf8.decode_ignore rest)
  ∨ (∃ conts rest,
        s1 = conts ++ rest ∧ Forall trail conts
        ∧ (∀ bs c, well_formed bs c -> ¬ bs `prefix_of` (ch :: s1))
        ∧ Utf8.decode_ignore (ch :: s1) = Utf8.decode_ignore rest).
Proof.
  cbn [Utf8.decode_ignore].
  destruct (N.ltb_spec ch 128) as [H1|H1].
  { left. exists [ch], ch, s1. split_and!; [by constructor | done | done]. }
  destruct (N.ltb_spec ch 194) as [H2|H2].
  { right. exists [], s1. split_and!; [done | done | ill_formed | done]. }
  destruct (N.ltb_spec ch 224) as [H3|H3].
  { destruct s1 as [|ch2 s2].
    { right. exists [], []. split_and!; [done | done | ill_formed | done]. }
    destruct (Utf8.is_continuation ch2) eqn:E2.
    - apply is_continuation_trail in E2. left.
      exists [ch; ch2], (Utf8.cp2 ch ch2), s2. split_and!; [|done|done].
      rewrite cp2_value by (unfold trail in *; lia). apply wf_2; [lia | done].
    - apply is_continuation_not in E2. right. exists [], (ch2 :: s2).
      split_and!; [done | done | ill_formed | done]. }
  destruct (N.ltb_spec ch 240) as [H4|H4].
  { destruct s1 as [|ch2 s2].
    { right. exists [], []. split_and!; [done | done | ill_formed | done]. }
    destruct (Utf8.is_continuation ch2) eqn:E2; cbn [negb orb].
    2:{ apply is_continuation_not in E2. right. exists [], (ch2 :: s2).
        split_and!; [done | done | ill_formed | done]. }
    apply is_continuation_trail in E2.
    assert (Hdrop : (∀ bs c, well_formed bs c -> ¬ bs `prefix_of` [ch; ch2])).
    { ill_formed. }
    destruct (N.ltb_spec ch2 160) as [L|L];
      [destruct (N.eqb_spec ch 224) as [Q|Q] | destruct (N.eqb_spec ch 237) as [Q|Q]];
      try (right; exists [], (ch2 :: s2);
           split_and!; [done | done | ill_formed | done]).
    all: destruct s2 as [|ch3 s3];
      [right; exists [ch2], [];
       split_and!; [done | trails | ill_formed | done]|].
    all: destruct (Utf8.is_continuation ch3) eqn:E3;
      [apply is_continuation_trail in E3; left;
       exists [ch; ch2; ch3], (Utf8.cp3 ch ch2 ch3), s3;
       split_and!; [|done|done];
       rewrite cp3_value by (unfold trail in *; lia);
       apply wf_3; (done || lia)
      |apply is_continuation_not in E3; right; exists [ch2], (ch3 :: s3);
       split_and!; [done | trails | ill_formed | done]]. }
  destruct (N.ltb_spec ch 245) as [H5|H5].
  2:{ right. exists [], s1. split_and!; [done | done | ill_formed | done]. }
  destruct s1 as [|ch2 s2].
  { right. exists [], []. split_and!; [done | done | ill_formed | done]. }
  destruct (Utf8.is_continuation ch2) eqn:E2; cbn [negb orb].
  2:{ apply is_continuation_not in E2. right. exists [], (ch2 :: s2).
      split_and!; [done | done | ill_formed | done]. }
  apply is_continuation_trail in E2.
  destruct (N.ltb_spec ch2 144) as [L|L];
    [destruct (N.eqb_spec ch 240) as [Q|Q] | destruct (N.eqb_spec ch 244) as [Q|Q]];
    try (right; exists [], (ch2 :: s2);
         split_and!; [done | done | ill_formed | done]).
  all: destruct s2 as [|ch3 s3];
    [right; exists [ch2], [];
     split_and!; [done | trails | ill_formed | done]|].
  all: destruct (Utf8.is_continuation ch3) eqn:E3; cbn [negb];
    [apply is_continuation_trail in E3
    |apply is_continuation_not in E3; right; exists [ch2], (ch3 :: s3);
     split_and!; [done | trails | ill_formed | done]].
  all: destruct s3 as [|ch4 s4];
    [right; exists [ch2; ch3], [];
     split_and!; [done | trails | ill_formed | done]|].
  all: destruct (Utf8.is_continuation ch4) eqn:E4;
    [apply is_continuation_trail in E4; left;
     exists [ch; ch2; ch3; ch4], (Utf8.cp4 ch ch2 ch3 ch4), s4;
     split_and!; [|done|done];
     rewrite cp4_value by (unfold trail in *; lia);
     apply wf_4; (done || lia)
    |apply is_continuation_not in E4; right; exists [ch2; ch3], (ch4 :: s4);
     split_and!; [done | trails | ill_formed | done]].
Qed.

Lemma well_formed_not_nil bs c : well_formed bs c -> (0 < length bs)%nat.
Proof. destruct 1; cbn; lia. Qed.

(** The decoder meets the description. *)
Lemma decode_ignore_decoded (s : list N) : decoded s (Utf8.decode_ignore s).
Proof.
  remember (length s) as n eqn:Hn. revert s Hn.
  induction n as [n IH] using lt_wf_ind. intros s ->.
  destruct s as [|ch s1]; [constructor|].
  destruct (decode_start ch s1)
    as [(bs & c & rest & Hwf & E & ->)|(conts & rest & -> & Hc & Hill & ->)].
  - rewrite E. apply decoded_char; [done|].
    apply (IH (length rest)); [|done].
    apply well_formed_not_nil in Hwf. rewrite E, length_app. lia.
  - apply decoded_drop; [done | done |].
    apply (IH (length rest)); [|done].
    rewrite length_cons, length_app. lia.
Qed.

Lemma decode_trail (d x : list N) :
  Forall trail d -> Utf8.decode_ignore (d ++ x) = Utf8.decode_ignore x.
Proof.
  induction 1 as [|b d Hb _ IH]; [done|]. cbn [app].
  unfold trail in Hb. cbn [Utf8.decode_ignore].
  destruct (N.ltb_spec b 128); [lia|].
  destruct (N.ltb_spec b 194); [done | lia].
Qed.

Lemma trail_split (c1 c2 r1 r2 : list N) :
  Forall trail c1 -> Forall trail c2 -> c1 ++ r1 = c2 ++ r2 ->
  ∃ d, Forall trail d ∧ (r1 = d ++ r2 ∨ r2 = d ++ r1).
Proof.
  intros H1. revert c2. induction H1 as [|b c1 Hb Hc1 IH]; intros c2 H2 E.
  - exists c2. split; [done | by left].
  - destruct H2 as [|b' c2 Hb' H2].
    + exists (b :: c1). split; [by apply Forall_cons_2 | right; symmetry; exact E].
    + cbn [app] in E. injection E as _ E. by apply (IH c2).
Qed.

Lemma decode_well_formed bs c rest :
  well_formed bs c ->
  Utf8.decode_ignore (bs ++ rest) = c :: Utf8.decode_ignore rest.
Proof.
  intros Hwf. destruct bs as [|ch s1];
    [apply well_formed_not_nil in Hwf; cbn in Hwf; lia|].
  cbn [app].
  destruct (decode_start ch (s1 ++ rest))
    as [(bs' & c' & rest' & Hwf' & E & ->)|(conts & rest' & _ & _ & Hill & _)].
  - enough (bs' = ch :: s1 ∧ c' = c) as [-> ->].
    { cbn [app] in E. injection E as E. by apply app_inv_head in E as ->. }
    clear -Hwf Hwf' E.
    inversion Hwf; subst; destruct Hwf'; unfold trail in *; simplify_eq/=;
      (done || (exfalso; lia)).
  - destruct (Hill _ _ Hwf). by exists rest.
Qed.

(** The description determines the text: it is the one the decoder
    hands back. *)
Lemma decoded_unique (s : list N) (out : str) :
  decoded s out -> out = Utf8.decode_ignore s.
Proof.
  induction 1 as [|bs c rest out Hwf _ IH|b conts rest out Hill Hc _ IH].
  - done.
  - rewrite (decode_well_formed _ _ _ Hwf). by rewrite IH.
  - destruct (decode_start b (conts ++ rest))
      as [(bs' & c' & rest' & Hwf' & E & _)|(conts' & rest' & E & Hc' & _ & ->)].
    + destruct (Hill _ _ Hwf'). exists rest'. exact E.
    + symmetry in E.
      destruct (trail_split _ _ _ _ Hc' Hc E) as (d & Hd & [-> | ->]).
      * by rewrite decode_trail.
      * by rewrite IH, decode_trail.
Qed.

(** Every scalar value has a well-formed sequence. *)
Lemma well_formed_complete (c : N) :
  (c < 55296)%N ∨ (57344 <= c <= 1114111)%N -> ∃ bs, well_formed bs c.
Proof.
  intros Hc.
  pose proof (N.div_mod c 64 ltac:(done)) as D1.
  pose proof (N.mod_lt c 64 ltac:(done)) as M1.
  pose proof (N.div_mod (c / 64) 64 ltac:(done)) as D2.
  pose proof (N.mod_lt (c / 64) 64 ltac:(done)) as M2.
  pose proof (N.div_mod (c / 64 / 64) 64 ltac:(done)) as D3.
  pose proof (N.mod_lt (c / 64 / 64) 64 ltac:(done)) as M3.
  set (r1 := (c mod 64)%N) in *. set (q1 := (c / 64)%N) in *.
  set (r2 := (q1 mod 64)%N) in *. set (q2 := (q1 / 64)%N) in *.
  set (r3 := (q2 mod 64)%N) in *. set (q3 := (q2 / 64)%N) in *.
  clearbody r1 q1 r2 q2 r3 q3.
  destruct (N.lt_ge_cases c 128) as [H1|H1].
  { exists [c]. by constructor. }
  destruct (N.lt_ge_cases c 2048) as [H2|H2].
  { exists [192 + q1; 128 + r1]%N.
    replace c with ((192 + q1 - 192) * 64 + (128 + r1 - 128))%N by lia.
    apply wf_2; unfold trail; lia. }
  destruct (N.lt_ge_cases c 65536) as [H3|H3].
  { exists [224 + q2; 128 + r2; 128 + r1]%N.
    replace c with ((224 + q2 - 224) * 4096 + (128 + r2 - 128) * 64
                    + (128 + r1 - 128))%N by lia.
    apply wf_3; unfold trail; lia. }
  exists [240 + q3; 128 + r3; 128 + r2; 128 + r1]%N.
  replace c with ((240 + q3 - 240) * 262144 + (128 + r3 - 128) * 4096
                  + (128 + r2 - 128) * 64 + (128 + r1 - 128))%N by lia.
  apply wf_4; unfold trail; lia.
Qed.

(** The translation of the line ends leaves no carriage return, and
    leaves a text without carriage return as it is. *)
Lemma translate_newlines_no_cr (s : str) : 13%N ∉ translate_newlines s.
Proof.
  remember (length s) as n eqn:Hn. revert s Hn.
  induction n as [n IH] using lt_wf_ind. intros s ->.
  destruct s as [|c s]; [apply not_elem_of_nil|].
  cbn [translate_newlines]. destruct (N.eqb_spec c 13) as [->|Hc].
  - apply not_elem_of_cons. split; [done|].
    destruct s as [|c2 s]; [apply not_elem_of_nil|].
    destruct (c2 =? 10)%N.
    + apply (IH (length s)); [cbn; lia | done].
    + apply (IH (length (c2 :: s))); [cbn; lia | done].
  - apply not_elem_of_cons. split; [done|].
    apply (IH (length s)); [cbn; lia | done].
Qed.

Lemma translate_newlines_id (s : str) : 13%N ∉ s -> translate_newlines s = s.
Proof.
  induction s as [|c s IH]; [done|]. intros [Hc Hs]%not_elem_of_cons.
  cbn [translate_newlines]. destruct (N.eqb_spec c 13); [congruence|].
  by rewrite IH.
Qed.

Lemma selected_spec w directory extensions path :
  path ∈ selected w directory extensions
  ↔ ∃ t ds f,
      fs_tree w directory = Some t ∧ file_at t ds f
      ∧ (∃ ext, ext ∈ extensions ∧ ext `suffix_of` f)
      ∧ path = path_join (foldl path_join directory ds) f.
Proof.
  unfold selected. rewrite list_elem_of_fmap. split.
  - intros ([r f] & -> & Hin). apply list_elem_of_filter in Hin as [Hext Hin].
    destruct (fs_tree w directory) as [t|]; [|by apply elem_of_nil in Hin].
    apply tree_files_file_at in Hin as (ds & Hat & ->).
    exists t, ds, f. split_and!; try done.
    by apply Exists_exists in Hext.
  - intros (t & ds & f & -> & Hat & Hext & ->).
    exists (foldl path_join directory ds, f). split; [done|].
    apply list_elem_of_filter. split.
    + by apply Exists_exists.
    + apply tree_files_file_at. by exists ds.
Qed.

Lemma not_contains_flag_short (text : str) :
  (length text < 6)%nat -> ¬ contains_flag text.
Proof.
  intros Hlen (pre & f & post & -> & Hf). apply is_flag_length in Hf.
  rewrite !length_app in Hlen. lia.
Qed.

Lemma report_lines_of source l line :
  line ∈ flat_map (report source) l ->
  (∃ f, f ∈ l ∧ line = nl :: lit "[+] FLAG FOUND: " ++ f)
  ∨ line = lit "    Source: " ++ source.
Proof.
  induction l as [|x l IH]; cbn [flat_map report app].
  - by intros ?%elem_of_nil.
  - intros Hin. apply elem_of_cons in Hin as [->|Hin];
      [|apply elem_of_cons in Hin as [->|Hin]].
    + left. exists x. split; [by left | done].
    + by right.
    + destruct (IH Hin) as [(f & Hf & ->) | ->]; [left | by right].
      exists f. split; [by right | done].
Qed.

(** A flag of the set is not announced again by a scan. *)
Lemma no_second_report source seen l f :
  f ∈ seen ->
  (nl :: lit "[+] FLAG FOUND: " ++ f)
  ∉ flat_map (report source) (fresh seen l).
Proof.
  intros Hseen Hin. apply report_lines_of in Hin as [(g & Hg & E)|E].
  - injection E as E. subst g. by apply fresh_not_seen in Hg.
  - discriminate E.
Qed.

(** * The claims *)

(** C1. For every text and source label, [find_flags_in_text] extracts
    exactly the leftmost non-overlapping substrings of the form [USU{],
    one or more characters other than the closing brace, closing brace,
    each match ending at the first closing brace: the matches are the
    only list that [occurrences] relates to the text, they join the set
    and the new ones are reported with the label; [USU{a}extra}] yields
    the one flag [USU{a}], [USU{}] yields none, and a text that contains
    no flag leaves the state as it was. *)
Theorem C1_matcher_extracts_flags (text source : str) (p : Proc) :
  occurrences text (Re.findall flag_pattern text)
  ∧ (∀ fs, occurrences text fs -> fs = Re.findall flag_pattern text)
  ∧ find_flags_in_text text source p
    = (inr tt,
       mkProc
         (set_found_flags
            (found_flags (self p)
             ∪ list_to_set (Re.findall flag_pattern text)) (self p))
         (stdout p
          ++ flat_map (report source)
               (fresh (found_flags (self p)) (Re.findall flag_pattern text)))
         (calls p))
  ∧ Re.findall flag_pattern (lit "USU{a}extra}") = [lit "USU{a}"]
  ∧ Re.findall flag_pattern (lit "USU{}") = []
  ∧ (¬ contains_flag text ->
     Re.findall flag_pattern text = []
     ∧ find_flags_in_text text source p = (inr tt, p)).
Proof.
  split_and!.
  - by apply findall_occurrences.
  - intros fs H. symmetry. by apply findall_occurrences.
  - apply find_flags_run.
  - reflexivity.
  - reflexivity.
  - intros Hno. apply findall_nil_iff in Hno. split; [done|].
    rewrite find_flags_run, Hno. cbn [list_to_set fresh flat_map].
    rewrite union_empty_r_L, set_found_flags_same, app_nil_r. by destruct p.
Qed.

Lemma C1_matcher_extracts_flags_witness :
  Re.findall flag_pattern (lit "USU{") = []
  ∧ find_flags_in_text (lit "USU{") (lit "index.html") boot = (inr tt, boot).
Proof.
  apply (C1_matcher_extracts_flags (lit "USU{") (lit "index.html") boot).
  apply not_contains_flag_short. simpl. lia.
Defined.

(** C2. The summary lists every flag of the set exactly once, in
    ascending lexicographic order, with their number, whatever the number
    of occurrences and of sources that produced them, and says that no
    flag was found when the set is empty.  A run that scans, and whose
    scan of the URL meets no exception, ends with this summary of the set
    the scans built; and every run that ends normally, whatever its
    command line, ends with the summary of its final set. *)
Theorem C2_summary_lists_each_flag_once :
  (∀ p, ∃ listing,
      lists (found_flags (self p)) listing
      ∧ print_summary p
        = (inr tt,
           mkProc (self p) (stdout p ++ summary_lines listing) (calls p)))
  ∧ summary_lines [] = [nl :: rule; lit "[-] No flags found"; rule]
  ∧ (∀ text source p f,
        f ∈ Re.findall flag_pattern text ->
        ∃ p1 listing,
          find_flags_in_text text source p = (inr tt, p1)
          ∧ lists (found_flags (self p1)) listing
          ∧ f ∈ listing
          ∧ print_summary p1
            = (inr tt,
               mkProc (self p1) (stdout p1 ++ summary_lines listing)
                 (calls p1)))
  ∧ (∀ w args p,
        truthy_opt truthy_str (arg_url args)
        || truthy_opt truthy_list (arg_files args)
        || truthy_opt truthy_str (arg_directory args) = true ->
        run_ok w args ->
        ∃ p1 listing,
          steps (main_calls w args) (started args p) p1
          ∧ lists (found_flags (self p1)) listing
          ∧ main w (Parsed args) p
            = (inr tt,
               mkProc (self p1) (stdout p1 ++ summary_lines listing)
                 (calls p1)))
  ∧ (∀ w c p p',
        main w c p = (inr tt, p') ->
        ∃ out listing,
          lists (found_flags (self p')) listing
          ∧ stdout p' = out ++ summary_lines listing).
Proof.
  split_and!.
  - intros p. exists (sorted (found_flags (self p))).
    split; [apply sorted_lists | apply print_summary_lines].
  - reflexivity.
  - intros text source p f Hf. eexists _, (sorted _).
    split; [apply find_flags_run|].
    split; [apply sorted_lists|]. split; [|apply print_summary_lines].
    apply sorted_lists. cbn [self found_flags set_found_flags].
    apply elem_of_union. right. by apply elem_of_list_to_set.
  - intros w args p E Hok. destruct (main_run w args p E Hok) as (p1 & S1 & ->).
    exists p1, (sorted (found_flags (self p1))).
    split; [done|]. split; [apply sorted_lists | apply print_summary_lines].
  - intros w [args| |] p p' H; [|by rewrite main_help in H
                                 |by rewrite main_rejected in H].
    destruct (truthy_opt truthy_str (arg_url args)
              || truthy_opt truthy_list (arg_files args)
              || truthy_opt truthy_str (arg_directory args)) eqn:E;
      [|by rewrite main_usage in H].
    rewrite (main_scans w args p E) in H.
    do 3 (rewrite bind_run in H;
          match type of H with
          | match ?x with _ => _ end = _ =>
              destruct x as [[e|[]] ?]; [discriminate H|]
          end).
    rewrite print_summary_lines in H. injection H as <-.
    eexists _, _. split; [apply sorted_lists | done].
Qed.

Lemma C2_summary_lists_each_flag_once_witness :
  (∃ p1 listing,
      find_flags_in_text (lit "USU{b} USU{a} USU{b}") (lit "t.txt") boot
      = (inr tt, p1)
      ∧ lists (found_flags (self p1)) listing
      ∧ lit "USU{b}" ∈ listing
      ∧ print_summary p1
        = (inr tt,
           mkProc (self p1) (stdout p1 ++ summary_lines listing) (calls p1)))
  ∧ ∃ p1 listing,
      lists (found_flags (self p1)) listing
      ∧ main page_world
          (Parsed (mkNamespace (Some (lit "http://h/")) None None false)) boot
        = (inr tt,
           mkProc (self p1) (stdout p1 ++ summary_lines listing) (calls p1)).
Proof.
  split.
  - apply (proj1 (proj2 (proj2 C2_summary_lists_each_flag_once))).
    vm_compute. left.
  - destruct (proj1 (proj2 (proj2 (proj2 C2_summary_lists_each_flag_once)))
                page_world
                (mkNamespace (Some (lit "http://h/")) None None false) boot)
      as (p1 & listing & _ & Hl & E).
    + reflexivity.
    + apply (bool_decide_unpack _). vm_compute. exact I.
    + exists p1, listing. split; [exact Hl | exact E].
Defined.

(** C3. A flag that is already in the set is ignored by
    [find_flags_in_text]: it is not announced again and the scan returns
    normally; when every match is in the set the state is left as it is.
    So a second scan of the same text, under any label, changes nothing,
    and a second scan of the same file announces no flag and leaves the
    set as the first scan left it. *)
Theorem C3_scanning_is_idempotent (w : World) (text source source' : str)
    (filepath : str) (p : Proc) :
  (∀ f, f ∈ found_flags (self p) ->
     ∃ out p1,
       find_flags_in_text text source p = (inr tt, p1)
       ∧ stdout p1 = stdout p ++ out
       ∧ (nl :: lit "[+] FLAG FOUND: " ++ f) ∉ out)
  ∧ ((∀ f, f ∈ Re.findall flag_pattern text -> f ∈ found_flags (self p)) ->
     find_flags_in_text text source p = (inr tt, p))
  ∧ (∃ p1,
       find_flags_in_text text source p = (inr tt, p1)
       ∧ find_flags_in_text text source' p1 = (inr tt, p1))
  ∧ (∃ p1 p2 out,
       scan_file w filepath p = (inr tt, p1)
       ∧ scan_file w filepath p1 = (inr tt, p2)
       ∧ found_flags (self p2) = found_flags (self p1)
       ∧ stdout p2 = stdout p1 ++ out
       ∧ ∀ f, (nl :: lit "[+] FLAG FOUND: " ++ f) ∉ out).
Proof.
  assert (Hsame : ∀ t s q,
             (∀ f, f ∈ Re.findall flag_pattern t -> f ∈ found_flags (self q)) ->
             find_flags_in_text t s q = (inr tt, q)).
  { intros t s q Hall. rewrite find_flags_run, fresh_all_seen by done.
    cbn [flat_map]. rewrite app_nil_r.
    replace (found_flags (self q) ∪ list_to_set (Re.findall flag_pattern t))
      with (found_flags (self q)).
    - rewrite set_found_flags_same. by destruct q.
    - apply set_eq. intros f. rewrite elem_of_union, elem_of_list_to_set.
      naive_solver. }
  split_and!.
  - intros f Hf. eexists _, _. split; [apply find_flags_run|].
    split; [done|]. by apply no_second_report.
  - apply Hsame.
  - eexists. split; [apply find_flags_run|]. apply Hsame.
    intros f Hf. cbn [self found_flags set_found_flags].
    apply elem_of_union. right. by apply elem_of_list_to_set.
  - destruct (fs_read w filepath) as [msg|data] eqn:E.
    + eexists _, _, _. split; [by apply scan_file_error|].
      split; [by apply scan_file_error|]. split; [done|]. split; [done|].
      intros f [=]%list_elem_of_singleton.
    + eexists _, _, _. split; [by apply scan_file_ok_run|].
      split; [by apply scan_file_ok_run|]. cbn [self stdout calls found_flags
        set_found_flags verbose].
      split; [|split; [done|]].
      * apply set_eq. intros f. rewrite !elem_of_union. naive_solver.
      * intros f. rewrite fresh_all_seen.
        -- cbn [flat_map]. rewrite app_nil_r. destruct (verbose _).
           ++ by intros [=]%list_elem_of_singleton.
           ++ apply not_elem_of_nil.
        -- intros g Hg. apply elem_of_union. right.
           by apply elem_of_list_to_set.
Qed.

Lemma C3_scanning_is_idempotent_witness :
  find_flags_in_text (lit "USU{a}") (lit "again")
    (mkProc (set_found_flags {[lit "USU{a}"]} (self boot)) [] [])
  = (inr tt, mkProc (set_found_flags {[lit "USU{a}"]} (self boot)) [] []).
Proof.
  apply (proj1 (proj2 (C3_scanning_is_idempotent site_world (lit "USU{a}")
                         (lit "again") (lit "again") (lit "site/a.js")
                         (mkProc (set_found_flags {[lit "USU{a}"]}
                                    (self boot)) [] [])))).
  intros f Hf. vm_compute in Hf. apply list_elem_of_singleton in Hf. subst f.
  cbn [self found_flags set_found_flags]. apply elem_of_singleton. reflexivity.
Defined.

(** C4, as stated, fails: a main page fetched with an empty body is
    a successful fetch, and yet the scan stops there without parsing. *)
Lemma C4_empty_body_counterexample :
  ¬ (∀ (w : World) (url : str) (p : Proc) (body : str),
       fst (fetch_url_content w url p) = inr (Some body) ->
       Parse body ∈ calls (snd (scan_url w url p))).
Proof.
  intros H.
  specialize (H (server_world 200 []) (lit "http://h/") boot [] eq_refl).
  vm_compute in H. apply list_elem_of_singleton in H. discriminate H.
Qed.

(** C4, amended. [scan_url] stops after the fetch of the main page, with
    nothing scanned and nothing parsed, and returns normally, when the
    fetch fails or hands back an empty body.  When the fetch hands back a
    non-empty body, however the scan ends: the body is scanned under the
    label [url (HTML)] (its flags are in the set afterwards, and each new
    one is announced with that label) and handed to the parser, and the
    calls that follow go to the session and to the parser only.  If the
    parser accepts the body and [urljoin] the references of the scripts
    and of the stylesheet links, the scan returns normally after the
    fetch of every resource, and the set holds, with what it held, the
    flags of the page: those of the body, of every fetched script and
    inline script, of every fetched stylesheet, of every inline style and
    of every text node; the report lines it printed are those of the new
    flags of these texts, in that order, each under the label of the
    first text that holds it ([(HTML)], [(JavaScript)],
    [(Inline JavaScript)], [(CSS)], [(Inline CSS)], [(HTML Content)]).
    Otherwise the exception of the parser or of [urljoin] leaves
    [scan_url]. *)
Theorem C4_scan_url_stops_without_body (w : World) (url : str) (p : Proc) :
  ∃ r p',
    scan_url w url p = (r, p')
    ∧ fst (fetch_url_content w url p) = inr (fetch_result w url)
    ∧ match fetch_result w url with
      | Some (c :: body) =>
          (∃ l, calls p' = calls p ++ Get url :: Parse (c :: body) :: l
                ∧ Forall web_call l)
          ∧ (∀ f, f ∈ Re.findall flag_pattern (c :: body) ->
                  f ∈ found_flags (self p'))
          ∧ (∀ f, f ∈ Re.findall flag_pattern (c :: body) ->
                  f ∉ found_flags (self p) ->
                  ∃ o1 o2,
                    stdout p'
                    = stdout p ++ o1 ++ report (url ++ lit " (HTML)") f ++ o2)
          ∧ (page_ok w url (c :: body) ->
             r = inr tt
             ∧ calls p' = calls p ++ Get url :: page_calls w url (c :: body)
             ∧ found_flags (self p')
               = found_flags (self p)
                 ∪ (text_flags (c :: body)
                    ∪ (⋃ map (fun script =>
                                if truthy_opt truthy_str
                                     (tag_get (attrs script) (lit "src"))
                                then fetched_flags w
                                       (resolved w url
                                          (default []
                                             (tag_get (attrs script)
                                                (lit "src"))))
                                else text_flags
                                       (default [] (tag_string script)))
                             (find_all_script (parsed w (c :: body)))
                       ∪ (⋃ map (fun link =>
                                   if truthy_opt truthy_str
                                        (tag_get (attrs link) (lit "href"))
                                   then fetched_flags w
                                          (resolved w url
                                             (default []
                                                (tag_get (attrs link)
                                                   (lit "href"))))
                                   else ∅)
                                (find_all_link_stylesheet
                                   (parsed w (c :: body)))
                          ∪ (⋃ map (fun style =>
                                      text_flags
                                        (default [] (tag_string style)))
                                   (find_all_style (parsed w (c :: body)))
                             ∪ ⋃ map text_flags
                                   (find_all_strings
                                      (parsed w (c :: body)))))))
             ∧ ∃ out,
                 stdout p' = stdout p ++ out
                 ∧ filter is_report_line out
                   = scan_reports (found_flags (self p))
                       (page_scans w url (c :: body)))
          ∧ (¬ page_ok w url (c :: body) -> ∃ msg, r = inl (Exception msg))
      | _ => r = inr tt ∧ self p' = self p ∧ calls p' = calls p ++ [Get url]
      end.
Proof.
  destruct (scan_url_run w url p) as (p1 & _ & Hself & Hcalls & [o Ho] & H).
  assert (Hfetch : fst (fetch_url_content w url p) = inr (fetch_result w url)).
  { by destruct (fetch_run w url p) as (out & -> & _). }
  assert (Hok : url_scan_ok w url ->
                ∃ q, scan_url w url p = (inr tt, q)
                     ∧ calls q = calls p ++ url_calls w url
                     ∧ found_flags (self q)
                       = found_flags (self p) ∪ url_flags w url
                     ∧ ∃ out,
                         stdout q = stdout p ++ out
                         ∧ filter is_report_line out
                           = scan_reports (found_flags (self p))
                               (url_scans w url)).
  { intros Hu. destruct (scan_url_steps w url Hu p) as ([] & q & E & _ & C).
    destruct (adds_scan_url w url Hu p) as ([] & q' & E' & A).
    rewrite E in E'. injection E' as <-.
    destruct (scanned_scan_url w url Hu p) as ([] & q' & E' & _ & T).
    rewrite E in E'. injection E' as <-. by exists q. }
  assert (Hno : ¬ url_scan_ok w url ->
                ∃ msg q, scan_url w url p = (inl (Exception msg), q))
    by apply scan_url_raises.
  unfold url_scan_ok, url_calls, url_flags, url_scans in Hok, Hno.
  destruct (fetch_result w url) as [[|c body]|];
    [by exists (inr tt), p1| |by exists (inr tt), p1].
  cbn [truthy_opt truthy_str default from_option id] in Hok, Hno.
  destruct H as (p2 & r & p' & E2 & E' & (l & [G C] & Hl)).
  exists r, p'. split; [done|]. split; [done|].
  rewrite find_flags_run in E2. injection E2 as <-.
  cbn [calls self stdout] in *. split_and!.
  - exists l. split; [|done]. rewrite C, Hcalls, <- !app_assoc. done.
  - intros f Hf. apply (grows_flags _ _ G). cbn [self found_flags set_found_flags].
    apply elem_of_union. right. by apply elem_of_list_to_set.
  - intros f Hf Hnew. destruct (grows_stdout _ _ G) as (out & -> & _).
    cbn [stdout]. rewrite Hself.
    assert (Hin : f ∈ fresh (found_flags (self p))
                        (Re.findall flag_pattern (c :: body)))
      by by apply fresh_elem.
    apply list_elem_of_split in Hin as (l1 & l2 & ->).
    rewrite flat_map_app. cbn [flat_map]. rewrite Ho.
    exists (o ++ flat_map (report (url ++ lit " (HTML)")) l1),
      (flat_map (report (url ++ lit " (HTML)")) l2 ++ out).
    by rewrite <- !app_assoc.
  - intros Hp. destruct Hok as (q & Eq & Cq & Fq & Tq); [by intros _|].
    rewrite E' in Eq. injection Eq as -> ->. by split_and!.
  - intros Hp. destruct Hno as (msg & q & Eq); [by intros Hu; apply Hp, Hu|].
    rewrite E' in Eq. injection Eq as -> _. by exists msg.
Qed.

Lemma C4_scan_url_stops_without_body_witness :
  (∃ p',
      scan_url page_world (lit "http://h/") boot = (inr tt, p')
      ∧ calls p'
        = [Get (lit "http://h/"); Parse (lit "<html>page</html>");
           Get (lit "http://h/app.js"); Get (lit "http://h/x.css")]
      ∧ sorted (found_flags (self p')) = [lit "USU{y1}"; lit "USU{y2}"])
  ∧ ∃ msg p',
      scan_url rejected_markup_world (lit "http://h/") boot
      = (inl (Exception msg), p')
      ∧ lit "USU{y0}" ∈ found_flags (self p').
Proof.
  split.
  - destruct (C4_scan_url_stops_without_body page_world (lit "http://h/") boot)
      as (r & p' & E & _ & H).
    change (fetch_result page_world (lit "http://h/"))
      with (Some (lit "<html>page</html>")) in H.
    destruct H as (_ & _ & _ & Hok & _).
    destruct Hok as (-> & C & F & _).
    { apply (bool_decide_unpack _). vm_compute. exact I. }
    exists p'. split; [exact E|]. split; [rewrite C; vm_compute; reflexivity|].
    rewrite F. vm_compute. reflexivity.
  - destruct (C4_scan_url_stops_without_body rejected_markup_world
                (lit "http://h/") boot) as (r & p' & E & _ & H).
    change (fetch_result rejected_markup_world (lit "http://h/"))
      with (Some (lit "<![USU{y0}")) in H.
    destruct H as (_ & Hin & _ & _ & Hno).
    destruct Hno as [msg ->].
    { intros Hp. apply (bool_decide_pack _) in Hp. vm_compute in Hp. exact Hp. }
    exists msg, p'. split; [exact E|]. apply Hin. vm_compute. left.
Defined.

(** C5, as stated, fails: a response with status 304 is not a 2xx
    response, and its body is handed back all the same. *)
Lemma C5_not_modified_counterexample :
  ¬ (∀ (w : World) (url : str) (p : Proc) (response : Response),
       session_get w url = inr response ->
       ¬ (200 <= status_code response < 300)%Z ->
       fst (fetch_url_content w url p) = inr None).
Proof.
  intros H.
  specialize (H (server_world 304 (lit "USU{z}")) (lit "http://h/") boot
                (mkResponse 304 (lit "reason") (lit "http://h/") (lit "USU{z}"))
                eq_refl).
  cbn [status_code] in H. specialize (H ltac:(lia)). vm_compute in H.
  discriminate H.
Qed.

(** C5, amended. [fetch_url_content] always returns normally, makes one
    [GET], and leaves the object as it is.  It hands back the body of the
    response exactly when the request completes with a status outside
    400..599, every 2xx status included.  For a transport error and for a
    status in 400..599 alike it prints one line [[-] Error fetching url:
    message] and hands back [None]. *)
Theorem C5_fetch_fails_on_transport_error_or_error_status
    (w : World) (url : str) (p : Proc) :
  ∃ out,
    fetch_url_content w url p
    = (inr (fetch_result w url),
       mkProc (self p)
         (stdout p
          ++ (if verbose (self p)
              then [lit "[*] " ++ lit "Fetching: " ++ url] else [])
          ++ out)
         (calls p ++ [Get url]))
    ∧ match session_get w url with
      | inl msg =>
          fetch_result w url = None
          ∧ out = [lit "[-] Error fetching " ++ url ++ lit ": " ++ msg]
      | inr response =>
          if (400 <=? status_code response)%Z
             && (status_code response <? 600)%Z
          then fetch_result w url = None
               ∧ ∃ msg,
                   out = [lit "[-] Error fetching " ++ url ++ lit ": " ++ msg]
          else fetch_result w url = Some (text response) ∧ out = []
      end
    ∧ (∀ response,
          session_get w url = inr response ->
          (200 <= status_code response < 300)%Z ->
          fetch_result w url = Some (text response)).
Proof.
  destruct (fetch_run w url p) as (out & E & Hout).
  exists out. split; [exact E|]. unfold fetch_result. split.
  - destruct (session_get w url) as [msg|response]; [done|].
    unfold is_error_status in *. by destruct (_ && _).
  - intros response -> Hsc. unfold is_error_status.
    destruct (Z.leb_spec 400 (status_code response)); [lia | done].
Qed.

Lemma C5_fetch_fails_on_transport_error_or_error_status_witness :
  fetch_result (server_world 204 (lit "USU{ok}")) (lit "http://h/")
  = Some (lit "USU{ok}").
Proof.
  destruct (C5_fetch_fails_on_transport_error_or_error_status
              (server_world 204 (lit "USU{ok}")) (lit "http://h/") boot)
    as (out & _ & _ & H).
  apply (H (mkResponse 204 (lit "reason") (lit "http://h/") (lit "USU{ok}"))).
  - reflexivity.
  - cbn [status_code]. lia.
Defined.

(** C6. [scan_directory] returns normally after one walk of the
    directory.  It hands to [scan_file], in the order of the walk, exactly
    the files found at any depth under the directory whose name ends with
    one of the extensions, compared character by character: the scan is
    the scan by [scan_file] of these files, one after the other, after
    the log line and the walk; so these files are the files it opens, and
    the flags it adds to the set are the flags of these files.  Without a
    list of extensions the eight default ones are used.  With the filter
    [.js], a directory that holds [a.js] with [USU{x1}] and [a.txt] with
    [USU{x2}] reports [USU{x1}] alone. *)
Theorem C6_scan_directory_filters_by_extension
    (w : World) (directory : str) (extensions : option (list str)) (p : Proc) :
  (∃ p',
      scan_directory w directory extensions p = (inr tt, p')
      ∧ calls p'
        = calls p
          ++ Walk directory
             :: map Open (selected w directory
                            (default default_extensions extensions))
      ∧ found_flags (self p')
        = found_flags (self p)
          ∪ ⋃ map (file_flags w)
                (selected w directory (default default_extensions extensions)))
  ∧ scan_directory w directory extensions p
    = for_ (selected w directory (default default_extensions extensions))
        (scan_file w)
        (mkProc (self p)
           (stdout p
            ++ (if verbose (self p)
                then [lit "[*] " ++ lit "Scanning directory: " ++ directory]
                else []))
           (calls p ++ [Walk directory]))
  ∧ (∀ path,
        path ∈ selected w directory (default default_extensions extensions)
        ↔ ∃ t ds f,
            fs_tree w directory = Some t ∧ file_at t ds f
            ∧ (∃ ext, ext ∈ default default_extensions extensions
                      ∧ ext `suffix_of` f)
            ∧ path = path_join (foldl path_join directory ds) f)
  ∧ default_extensions
    = [lit ".html"; lit ".htm"; lit ".js"; lit ".css"; lit ".php";
       lit ".txt"; lit ".json"; lit ".xml"]
  ∧ ¬ lit ".js" `suffix_of` lit "A.JS"
  ∧ (let r := scan_directory site_world (lit "site") (Some [lit ".js"]) boot in
     fst r = inr tt
     ∧ elements (found_flags (self (snd r))) = [lit "USU{x1}"]
     ∧ stdout (snd r) = report (lit "site/a.js") (lit "USU{x1}")
     ∧ calls (snd r) = [Walk (lit "site"); Open (lit "site/a.js")])
  ∧ (let r := scan_directory deep_world (lit "top") None boot in
     fst r = inr tt
     ∧ elements (found_flags (self (snd r))) = [lit "USU{deep}"]
     ∧ stdout (snd r) = report (lit "top/a/b/c.txt") (lit "USU{deep}")
     ∧ calls (snd r) = [Walk (lit "top"); Open (lit "top/a/b/c.txt")]).
Proof.
  split_and!.
  - destruct (scan_directory_steps w directory extensions p)
      as ([] & p' & E & _ & C).
    destruct (adds_scan_directory w directory extensions p)
      as ([] & q & E' & A).
    rewrite E in E'. injection E' as <-. by exists p'.
  - apply scan_directory_delegates.
  - intros path. apply selected_spec.
  - reflexivity.
  - intros Hs. apply endswith_suffix in Hs. discriminate Hs.
  - vm_compute. done.
  - vm_compute. done.
Qed.

(** C7. [scan_file] never raises.  When the file cannot be opened or
    read it prints one line with the path and the message of the error,
    and leaves the object as it is.  When the file is read, its bytes are
    decoded without error, whatever they are, and the text is scanned,
    its line ends read as line feeds.  The text is the one that UTF-8
    determines when what cannot be decoded is dropped: every well-formed sequence (the sequences of the scalar
    values in their shortest form, and no other) gives its code point;
    where no well-formed sequence starts, a byte is dropped, with
    continuation bytes after it, and decoding resumes.  So bytes below
    128 decode to themselves, a byte that cannot start a sequence is
    dropped, and so are an overlong form, a surrogate and a sequence cut
    by the end of the data, while what follows them is decoded. *)
Theorem C7_scan_file_never_raises (w : World) (filepath : str) (p : Proc) :
  (∃ p', scan_file w filepath p = (inr tt, p'))
  ∧ (∀ msg,
        fs_read w filepath = inl msg ->
        scan_file w filepath p
        = (inr tt,
           mkProc (self p)
             (stdout p
              ++ [lit "[-] Error reading " ++ filepath ++ lit ": " ++ msg])
             (calls p ++ [Open filepath])))
  ∧ (∀ data,
        fs_read w filepath = inr data ->
        scan_file w filepath p
        = (inr tt,
           mkProc
             (set_found_flags
                (found_flags (self p)
                 ∪ list_to_set (Re.findall flag_pattern (read_text data)))
                (self p))
             (stdout p
              ++ (if verbose (self p)
                  then [lit "[*] " ++ lit "Scanning file: " ++ filepath]
                  else [])
              ++ flat_map (report filepath)
                   (fresh (found_flags (self p))
                      (Re.findall flag_pattern (read_text data))))
             (calls p ++ [Open filepath])))
  ∧ (∀ data,
        read_text data = translate_newlines (Utf8.decode data)
        ∧ 13%N ∉ read_text data
        ∧ (13%N ∉ Utf8.decode data -> read_text data = Utf8.decode data))
  ∧ translate_newlines [97; 13; 10; 98; 13; 99; 10]%N = [97; 10; 98; 10; 99; 10]%N
  ∧ (∀ data, decoded (map Byte.to_N data) (Utf8.decode data))
  ∧ (∀ s out, decoded s out -> out = Utf8.decode_ignore s)
  ∧ (∀ bs c,
        well_formed bs c ->
        ((c < 55296)%N ∨ (57344 <= c <= 1114111)%N)
        ∧ length bs
          = (if (c <? 128)%N then 1 else if (c <? 2048)%N then 2
             else if (c <? 65536)%N then 3 else 4)%nat)
  ∧ (∀ c, (c < 55296)%N ∨ (57344 <= c <= 1114111)%N -> ∃ bs, well_formed bs c)
  ∧ (∀ good rest,
        Forall (fun b => (b < 128)%N) good ->
        Utf8.decode_ignore (good ++ rest) = good ++ Utf8.decode_ignore rest)
  ∧ (∀ b rest,
        (128 <= b < 194)%N ∨ (245 <= b)%N ->
        Utf8.decode_ignore (b :: rest) = Utf8.decode_ignore rest)
  ∧ Utf8.decode [Byte.xe2; Byte.x82] = []
  ∧ Utf8.decode [Byte.xc3; Byte.xa9; Byte.xe2; Byte.x82; Byte.xac;
                 Byte.xf0; Byte.x9f; Byte.x98; Byte.x80]
    = [233; 8364; 128512]%N
  ∧ Utf8.decode [Byte.xe0; Byte.x81; Byte.xbd; Byte.x41] = [65%N]
  ∧ Utf8.decode [Byte.xed; Byte.xa0; Byte.x80; Byte.x41] = [65%N]
  ∧ Utf8.decode [Byte.xf0; Byte.x9f; Byte.x41; Byte.xe2; Byte.x82; Byte.xac]
    = [65; 8364]%N
  ∧ Re.findall flag_pattern
      (read_text (list_byte_of_string "USU{a" ++ [Byte.xff; Byte.xc3]
                  ++ list_byte_of_string "b}"))
    = [lit "USU{ab}"].
Proof.
  split_and!.
  - destruct (scan_file_steps w filepath p) as ([] & p' & E & _). by exists p'.
  - intros msg E. by apply scan_file_error.
  - intros data E. by apply scan_file_ok_run.
  - intros data. split; [reflexivity|].
    split; [apply translate_newlines_no_cr | apply translate_newlines_id].
  - reflexivity.
  - intros data. apply decode_ignore_decoded.
  - apply decoded_unique.
  - apply well_formed_scalar.
  - apply well_formed_complete.
  - apply decode_ascii.
  - apply decode_invalid_start.
  - reflexivity.
  - reflexivity.
  - reflexivity.
  - reflexivity.
  - reflexivity.
  - reflexivity.
Qed.

Lemma C7_scan_file_never_raises_witness :
  scan_file site_world (lit "missing.txt") boot
  = (inr tt,
     mkProc (self boot)
       [lit "[-] Error reading " ++ lit "missing.txt" ++ lit ": "
        ++ lit "[Errno 2] No such file or directory"]
       [Open (lit "missing.txt")])
  ∧ [8364%N] = Utf8.decode_ignore [226; 130; 172]%N.
Proof.
  destruct (C7_scan_file_never_raises site_world (lit "missing.txt") boot)
    as (_ & Herr & _ & _ & _ & _ & Huniq & _).
  split.
  - apply Herr. reflexivity.
  - apply Huniq.
    apply (decoded_char [226; 130; 172]%N 8364%N [] []); [|constructor].
    apply (wf_3 226 130 172); unfold trail; lia.
Defined.




(** C9. No operation removes a flag from the set: however an operation,
    or a sequence of operations, ends, normally or with an exception, the
    set contains the set it started from; and the summary printed from
    there lists every flag that was in the set at the start. *)
Theorem C9_found_flags_only_grow (w : World) (ops : list operation) (p : Proc) :
  (∀ o, ∃ r p', perform w o p = (r, p')
                ∧ found_flags (self p) ⊆ found_flags (self p'))
  ∧ ∃ r p' p'',
      for_ ops (perform w) p = (r, p')
      ∧ found_flags (self p) ⊆ found_flags (self p')
      ∧ print_summary p' = (inr tt, p'')
      ∧ found_flags (self p'') = found_flags (self p')
      ∧ ∀ f, f ∈ found_flags (self p) ->
             ∃ o1 o2, stdout p'' = stdout p' ++ o1 ++ [lit "  " ++ f] ++ o2.
Proof.
  split.
  - intros o. destruct (perform_grows w o p) as (r & p' & E & G & _).
    exists r, p'. split; [done | apply G].
  - destruct (operations_grow w ops p) as (r & p' & E & G & _).
    eexists r, p', _. split; [done|]. split; [apply G|].
    split; [apply print_summary_run|]. split; [done|].
    intros f Hf. cbn [stdout].
    assert (Hin : f ∈ sorted (found_flags (self p'))).
    { apply sorted_spec. by apply (grows_flags _ _ G). }
    destruct (decide (found_flags (self p') = ∅)) as [Ee|_].
    { apply (grows_flags _ _ G) in Hf. set_solver. }
    apply list_elem_of_split in Hin as (l1 & l2 & ->).
    rewrite map_app. cbn [map].
    eexists (_ :: _ :: _ :: map _ l1), (map _ l2 ++ _).
    cbn [app]. by rewrite <- !app_assoc.
Qed.

Lemma C9_found_flags_only_grow_witness :
  ∃ msg p' p'',
    for_ [ScanFile (lit "a.txt"); ScanUrl (lit "http://h/");
          FindFlagsInText [] []]
      (perform rejected_markup_world)
      (mkProc (set_found_flags {[lit "USU{a}"]} (self boot)) [] [])
    = (inl (Exception msg), p')
    ∧ lit "USU{a}" ∈ found_flags (self p')
    ∧ print_summary p' = (inr tt, p'')
    ∧ ∃ o1 o2, stdout p'' = stdout p' ++ o1 ++ [lit "  " ++ lit "USU{a}"] ++ o2.
Proof.
  destruct (C9_found_flags_only_grow rejected_markup_world
              [ScanFile (lit "a.txt"); ScanUrl (lit "http://h/");
               FindFlagsInText [] []]
              (mkProc (set_found_flags {[lit "USU{a}"]} (self boot)) [] []))
    as (_ & r & p' & p'' & E & Hsub & Es & _ & Hlist).
  assert (Hin : lit "USU{a}"
                ∈ found_flags
                    (self (mkProc (set_found_flags {[lit "USU{a}"]}
                                     (self boot)) [] [])))
    by (cbn [self found_flags set_found_flags]; by apply elem_of_singleton).
  assert (Hr : ∃ msg, r = inl (Exception msg)).
  { assert (Hf : fst (for_ [ScanFile (lit "a.txt"); ScanUrl (lit "http://h/");
                            FindFlagsInText [] []]
                        (perform rejected_markup_world)
                        (mkProc (set_found_flags {[lit "USU{a}"]} (self boot))
                           [] []))
                 = inl (Exception (lit "ParserRejectedMarkup")))
      by (vm_compute; reflexivity).
    rewrite E in Hf. cbn [fst] in Hf. by eexists. }
  destruct Hr as [msg ->].
  exists msg, p', p''. split; [exact E|]. split; [by apply Hsub|].
  split; [exact Es|]. by apply Hlist.
Defined.

(** C10. Every flag that enters the set is well-formed: it is [USU{],
    one or more characters other than the closing brace, and the closing
    brace.  The set of a new object is empty, and when the set holds only
    well-formed flags it still does after any sequence of operations,
    however the sequence ends, normally or with an exception; every flag
    announced on the way and every flag listed by the summary is
    well-formed. *)
Theorem C10_flags_are_well_formed (w : World) (ops : list operation)
    (p : Proc) :
  all_flags p ->
  ∃ r p' out,
    for_ ops (perform w) p = (r, p')
    ∧ all_flags p'
    ∧ stdout p' = stdout p ++ out
    ∧ (∀ x, (nl :: lit "[+] FLAG FOUND: " ++ x) ∈ out ->
            ∃ body, x = lit "USU{" ++ body ++ [125%N] ∧ body ≠ []
                    ∧ 125%N ∉ body)
    ∧ (∀ f, f ∈ sorted (found_flags (self p')) ->
            ∃ body, f = lit "USU{" ++ body ++ [125%N] ∧ body ≠ []
                    ∧ 125%N ∉ body)
    ∧ found_flags (FlagFinder_init (verbose (self p)) false 3) = ∅.
Proof.
  intros Hall. destruct (operations_grow w ops p) as (r & p' & E & G & _).
  destruct (grows_stdout _ _ G) as (out & Ho & Hw).
  assert (Hall' : all_flags p').
  { intros f Hf. destruct (grows_new _ _ G f Hf); auto. }
  exists r, p', out. split_and!; try done.
  - intros x Hx. rewrite Forall_forall in Hw. by apply (Hw _ Hx).
  - intros f Hf. apply Hall'. by apply sorted_spec.
Qed.

Lemma C10_flags_are_well_formed_witness :
  ∃ r p' out,
    for_ [FindFlagsInText (lit "xUSU{a}}") (lit "s"); ScanUrl (lit "http://h/")]
      (perform rejected_markup_world) boot
    = (r, p')
    ∧ all_flags p'
    ∧ stdout p' = stdout boot ++ out.
Proof.
  destruct (C10_flags_are_well_formed rejected_markup_world
              [FindFlagsInText (lit "xUSU{a}}") (lit "s");
               ScanUrl (lit "http://h/")]
              boot)
    as (r & p' & out & E & Hall & Ho & _).
  - intros f Hf. cbn in Hf. by apply elem_of_empty in Hf.
  - exists r, p', out. split; [exact E|]. split; [exact Hall | exact Ho].
Defined.

(** ** Runs, evaluated *)

(** A page with an external script and an inline style: both flags are
    found, each under its label; the stylesheet that answers 404 is
    reported and skipped. *)
Example run_page :
  let r := main page_world
             (Parsed (mkNamespace (Some (lit "http://h/")) None None false))
             boot in
  exit_status (fst r) = 0%Z
  ∧ calls (snd r)
    = [Get (lit "http://h/"); Parse (lit "<html>page</html>");
       Get (lit "http://h/app.js"); Get (lit "http://h/x.css")]
  ∧ stdout (snd r)
    = [lit "[*] Starting flag search...";
       lit "[*] Looking for pattern: USU{...}" ++ [nl]]
      ++ report (lit "http://h/app.js (JavaScript)") (lit "USU{y1}")
      ++ [lit "[-] Error fetching http://h/x.css: 404 Client Error: Not Found for url: http://h/x.css"]
      ++ report (lit "http://h/ (Inline CSS)") (lit "USU{y2}")
      ++ summary_lines [lit "USU{y1}"; lit "USU{y2}"].
Proof. vm_compute. done. Qed.

(** A missing file and a directory: the error is reported, the run goes
    on and exits with status 0. *)
Example run_files_and_directory :
  let r := main site_world
             (Parsed (mkNamespace None (Some [lit "nofile"])
                        (Some (lit "site")) false))
             boot in
  exit_status (fst r) = 0%Z
  ∧ calls (snd r)
    = [Open (lit "nofile"); Walk (lit "site"); Open (lit "site/a.js");
       Open (lit "site/a.txt")]
  ∧ stdout (snd r)
    = [lit "[*] Starting flag search...";
       lit "[*] Looking for pattern: USU{...}" ++ [nl];
       lit "[-] Error reading nofile: [Errno 2] No such file or directory"]
      ++ report (lit "site/a.js") (lit "USU{x1}")
      ++ report (lit "site/a.txt") (lit "USU{x2}")
      ++ summary_lines [lit "USU{x1}"; lit "USU{x2}"].
Proof. vm_compute. done. Qed.

(** A page that the parser rejects, and a file: the flag of the body is
    announced, then the exception ends the run with status 1; the file
    is not read and no summary is printed. *)
Example run_rejected_markup :
  let r := main rejected_markup_world
             (Parsed (mkNamespace (Some (lit "http://h/"))
                        (Some [lit "a.txt"]) None false))
             boot in
  fst r = inl (Exception (lit "ParserRejectedMarkup"))
  ∧ exit_status (fst r) = 1%Z
  ∧ calls (snd r) = [Get (lit "http://h/"); Parse (lit "<![USU{y0}")]
  ∧ stdout (snd r)
    = [lit "[*] Starting flag search...";
       lit "[*] Looking for pattern: USU{...}" ++ [nl]]
      ++ report (lit "http://h/ (HTML)") (lit "USU{y0}").
Proof. vm_compute. done. Qed.

(** A script whose [src] cannot be joined: the inline script before it
    was scanned, the inline style after it is not. *)
Example run_invalid_src :
  let r := main invalid_src_world
             (Parsed (mkNamespace (Some (lit "http://h/")) None None false))
             boot in
  fst r = inl (Exception (lit "Invalid IPv6 URL"))
  ∧ exit_status (fst r) = 1%Z
  ∧ calls (snd r) = [Get (lit "http://h/"); Parse (lit "<html>page</html>")]
  ∧ stdout (snd r)
    = [lit "[*] Starting flag search...";
       lit "[*] Looking for pattern: USU{...}" ++ [nl]]
      ++ report (lit "http://h/ (Inline JavaScript)") (lit "USU{y1}").
Proof. vm_compute. done. Qed.

(** The command lines that [argparse] ends by itself. *)
Example run_help_and_rejected :
  exit_status (fst (main site_world HelpRequested boot)) = 0%Z
  ∧ stdout (snd (main site_world HelpRequested boot)) = [format_help site_world]
  ∧ exit_status (fst (main site_world Rejected boot)) = 2%Z
  ∧ snd (main site_world Rejected boot) = boot.
Proof. vm_compute. done. Qed.

(** * Further properties *)

(** ** The configuration of the object *)

Global Instance same_config_preorder : PreOrder same_config.
Proof.
  split.
  - by intros p.
  - intros p1 p2 p3 (? & ? & ? & ? & ?) (? & ? & ? & ? & ?).
    unfold same_config. split_and!; congruence.
Qed.

Lemma same_config_print line : returns same_config (print line).
Proof. intros p. by eexists tt, _. Qed.

Lemma same_config_operations w :
  (∀ o, completes same_config (perform w o))
  ∧ ∀ args p,
      truthy_opt truthy_str (arg_url args)
      || truthy_opt truthy_list (arg_files args)
      || truthy_opt truthy_str (arg_directory args) = true ->
      ∃ r p', main w (Parsed args) p = (r, p')
              ∧ same_config (started args p) p'
              ∧ ∀ code, r ≠ inl (SystemExit code).
Proof.
  assert (Hrec : ∀ c, returns same_config (record c)).
  { intros c p. by eexists tt, _. }
  assert (Hlog : ∀ message, returns same_config (log message)).
  { intros message p. rewrite log_run. by eexists tt, _. }
  assert (Hfind : ∀ text source,
             returns same_config (find_flags_in_text text source)).
  { intros text source p. rewrite find_flags_run. by eexists tt, _. }
  assert (Hsum : returns same_config print_summary).
  { intros p. rewrite print_summary_run. by eexists tt, _. }
  split.
  - intros o. apply frame_perform; auto using same_config_print. apply _.
  - intros args p. apply frame_main; auto using same_config_print. apply _.
Qed.

(** X1. No operation changes the fields [verbose], [crawl], [max_depth],
    [visited_urls] and [base_domain] of the object: however a sequence of
    operations ends, normally or with an exception, they are what they
    were; and however a run that scans ends, they are what the
    constructor set: no crawling, depth 3, no visited URL, no base
    domain. *)
Theorem X1_configuration_is_never_changed (w : World) :
  (∀ ops p, ∃ r p',
      for_ ops (perform w) p = (r, p')
      ∧ verbose (self p') = verbose (self p)
      ∧ crawl (self p') = crawl (self p)
      ∧ max_depth (self p') = max_depth (self p)
      ∧ visited_urls (self p') = visited_urls (self p)
      ∧ base_domain (self p') = base_domain (self p))
  ∧ (∀ args p,
        truthy_opt truthy_str (arg_url args)
        || truthy_opt truthy_list (arg_files args)
        || truthy_opt truthy_str (arg_directory args) = true ->
        ∃ r p',
          main w (Parsed args) p = (r, p')
          ∧ verbose (self p') = arg_verbose args
          ∧ crawl (self p') = false
          ∧ max_depth (self p') = 3%Z
          ∧ visited_urls (self p') = ∅
          ∧ base_domain (self p') = None).
Proof.
  destruct (same_config_operations w) as [Hop Hmain]. split.
  - intros ops p.
    assert (H : completes same_config (for_ ops (perform w)))
      by (apply completes_for; [apply _ | apply Hop]).
    destruct (H p) as (r & p' & E & Hc & _). by exists r, p'.
  - intros args p E. destruct (Hmain args p E) as (r & p' & Em & Hc & _).
    by exists r, p'.
Qed.

Lemma X1_configuration_is_never_changed_witness :
  ∃ r p',
    main rejected_markup_world
      (Parsed (mkNamespace (Some (lit "http://h/")) None None true)) boot
    = (r, p')
    ∧ verbose (self p') = true
    ∧ crawl (self p') = false
    ∧ max_depth (self p') = 3%Z
    ∧ visited_urls (self p') = ∅
    ∧ base_domain (self p') = None.
Proof.
  apply (proj2 (X1_configuration_is_never_changed rejected_markup_world)
           (mkNamespace (Some (lit "http://h/")) None None true) boot).
  reflexivity.
Defined.

(** ** Every new flag is announced once *)

Lemma announcements_app f out1 out2 :
  announcements f (out1 ++ out2)
  = (announcements f out1 + announcements f out2)%nat.
Proof. unfold announcements. by rewrite filter_app, length_app. Qed.

Lemma announcements_cons f line out :
  announcements f (line :: out)
  = (announcements f [line] + announcements f out)%nat.
Proof. exact (announcements_app f [line] out). Qed.

Lemma announcements_other f (line : str) :
  (∀ t, line ≠ nl :: 91%N :: t) -> announcements f [line] = 0%nat.
Proof.
  intros H. unfold announcements. rewrite filter_cons, decide_False; [done|].
  intros ->. by destruct (H (lit "+] FLAG FOUND: " ++ f)).
Qed.

Lemma announcements_report source l f :
  NoDup l ->
  announcements f (flat_map (report source) l)
  = if decide (f ∈ l) then 1%nat else 0%nat.
Proof.
  induction 1 as [|x l Hx Hl IH]; [done|].
  cbn [flat_map report app].
  rewrite announcements_cons, (announcements_cons _ _ (flat_map _ _)), IH.
  rewrite (announcements_other f (lit "    Source: " ++ source))
    by (intros t [=]).
  unfold announcements at 1. rewrite filter_cons.
  destruct (decide (x = f)) as [->|Hne].
  - rewrite decide_True by done. rewrite decide_False by done.
    rewrite decide_True by (by left). done.
  - rewrite decide_False by (by intros [= E]).
    cbn [length filter]. simpl.
    destruct (decide (f ∈ l)) as [Hin|Hin].
    + rewrite decide_True by (by right). done.
    + rewrite decide_False; [done|].
      intros [->|?]%elem_of_cons; done.
Qed.

Global Instance announced_once_preorder : PreOrder announced_once.
Proof.
  split.
  - intros p. split; [done|]. exists []. rewrite app_nil_r. split; [done|].
    intros f. rewrite decide_False; [done | by intros [? ?]].
  - intros p1 p2 p3 [F1 (o1 & E1 & C1)] [F2 (o2 & E2 & C2)].
    split; [set_solver|]. exists (o1 ++ o2).
    split; [by rewrite E2, E1, app_assoc|].
    intros f. rewrite announcements_app, C1, C2.
    repeat destruct (decide _); try done; exfalso; set_solver.
Qed.

Lemma announced_once_print (line : str) :
  (∀ t, line ≠ nl :: 91%N :: t) -> returns announced_once (print line).
Proof.
  intros H p. eexists tt, _. split; [done|]. split; [done|].
  exists [line]. split; [done|]. intros f.
  rewrite announcements_other by done.
  rewrite decide_False; [done | by intros [? ?]].
Qed.

Lemma announced_once_operations w :
  (∀ o, completes announced_once (perform w o))
  ∧ ∀ args p,
      truthy_opt truthy_str (arg_url args)
      || truthy_opt truthy_list (arg_files args)
      || truthy_opt truthy_str (arg_directory args) = true ->
      ∃ r p', main w (Parsed args) p = (r, p')
              ∧ announced_once (started args p) p'
              ∧ ∀ code, r ≠ inl (SystemExit code).
Proof.
  assert (Hrec : ∀ c, returns announced_once (record c)).
  { intros c p. eexists tt, _. split; [done|]. split; [done|]. exists [].
    cbn [stdout]. rewrite app_nil_r. split; [done|]. intros f.
    rewrite decide_False; [done | by intros [? ?]]. }
  assert (Hlog : ∀ message, returns announced_once (log message)).
  { intros message p. unfold log. rewrite bind_run. cbn [get_self].
    destruct (verbose (self p)).
    - apply announced_once_print. intros t [=].
    - apply returns_ret, _. }
  assert (Herr : ∀ t, returns announced_once (print (lit "[-] " ++ t))).
  { intros t. apply announced_once_print. intros t' [=]. }
  assert (Hfind : ∀ text source,
             returns announced_once (find_flags_in_text text source)).
  { intros text source p. rewrite find_flags_run. eexists tt, _.
    split; [done|]. split; [cbn; set_solver|]. eexists. split; [done|].
    intros f. rewrite announcements_report by apply fresh_NoDup.
    cbn [self found_flags set_found_flags].
    destruct (decide (f ∈ fresh _ _)) as [Hin|Hin].
    - rewrite decide_True; [done|]. split.
      + apply elem_of_union. right. apply elem_of_list_to_set.
        by apply fresh_subseteq in Hin.
      + by apply fresh_not_seen in Hin.
    - rewrite decide_False; [done|]. intros [Hf Hnew]. apply Hin.
      apply fresh_elem; [|done].
      apply elem_of_union in Hf as [?|Hf]; [done|].
      by apply elem_of_list_to_set in Hf. }
  assert (Hsum : returns announced_once print_summary).
  { intros p. rewrite print_summary_run. eexists tt, _. split; [done|].
    split; [done|]. eexists. split; [done|]. intros f.
    destruct (decide (_ ∧ _)) as [[? ?]|_]; [done|].
    rewrite !announcements_app.
    rewrite announcements_other by (intros t [=]).
    rewrite (announcements_other f rule) by (intros t [=]).
    destruct (decide (found_flags (self p) = ∅)).
    - by rewrite announcements_other by (intros t [=]).
    - cbn [app].
      rewrite announcements_cons, (announcements_cons _ _ (map _ _)).
      rewrite !announcements_other by (intros t [=]).
      cbn [Nat.add]. unfold announcements.
      induction (sorted (found_flags (self p))) as [|x l IH]; [done|].
      cbn [map]. rewrite filter_cons, decide_False; [exact IH|].
      intros [=]. }
  split.
  - intros o. apply frame_perform; auto. apply _.
  - intros args p. apply frame_main; auto. apply _.
Qed.

(** X2. Over any sequence of operations, however it ends, a flag is
    announced exactly once if it entered the set and not at all
    otherwise, however many texts, files and pages it occurs in; in a run
    that scans, however it ends, every flag of the final set, and no
    other, is announced exactly once after the two opening lines. *)
Theorem X2_each_new_flag_is_announced_once (w : World) :
  (∀ ops p, ∃ r p' out,
      for_ ops (perform w) p = (r, p')
      ∧ stdout p' = stdout p ++ out
      ∧ ∀ f, announcements f out
             = if decide (f ∈ found_flags (self p') ∧ f ∉ found_flags (self p))
               then 1%nat else 0%nat)
  ∧ (∀ args p,
        truthy_opt truthy_str (arg_url args)
        || truthy_opt truthy_list (arg_files args)
        || truthy_opt truthy_str (arg_directory args) = true ->
        ∃ r p' out,
          main w (Parsed args) p = (r, p')
          ∧ stdout p'
            = stdout p
              ++ [lit "[*] Starting flag search...";
                  lit "[*] Looking for pattern: USU{...}" ++ [nl]]
              ++ out
          ∧ ∀ f, announcements f out
                 = if decide (f ∈ found_flags (self p')) then 1%nat else 0%nat).
Proof.
  destruct (announced_once_operations w) as [Hop Hmain]. split.
  - intros ops p.
    assert (H : completes announced_once (for_ ops (perform w)))
      by (apply completes_for; [apply _ | apply Hop]).
    destruct (H p) as (r & p' & E & (_ & out & Ho & Hc) & _).
    by exists r, p', out.
  - intros args p E.
    destruct (Hmain args p E) as (r & p' & Em & (_ & out & Ho & Hc) & _).
    exists r, p', out. split; [done|]. split.
    + rewrite Ho. cbn [started stdout]. by rewrite <- app_assoc.
    + intros f. rewrite Hc. cbn [started self found_flags FlagFinder_init].
      destruct (decide (f ∈ found_flags (self p'))).
      * rewrite decide_True; [done|]. split; [done | set_solver].
      * rewrite decide_False; [done | by intros [? ?]].
Qed.

Lemma X2_each_new_flag_is_announced_once_witness :
  ∃ r p' out,
    main rejected_markup_world
      (Parsed (mkNamespace (Some (lit "http://h/")) None None false)) boot
    = (r, p')
    ∧ stdout p'
      = stdout boot
        ++ [lit "[*] Starting flag search...";
            lit "[*] Looking for pattern: USU{...}" ++ [nl]]
        ++ out
    ∧ ∀ f, announcements f out
           = if decide (f ∈ found_flags (self p')) then 1%nat else 0%nat.
Proof.
  apply (proj2 (X2_each_new_flag_is_announced_once rejected_markup_world)
           (mkNamespace (Some (lit "http://h/")) None None false) boot).
  reflexivity.
Defined.

(** ** Two runs side by side *)

Section Related.

Context (w : World) (S : Proc -> Proc -> Prop).

Hypothesis S_record : ∀ c, related S (record c) (record c).
Hypothesis S_log :
  ∀ tail, related S (log (lit "Scanning " ++ tail)) (log (lit "Scanning " ++ tail))
          ∧ related S (log (lit "Fetching: " ++ tail))
              (log (lit "Fetching: " ++ tail)).
Hypothesis S_error :
  ∀ t, related S (print (lit "[-] " ++ t)) (print (lit "[-] " ++ t)).
Hypothesis S_find :
  ∀ text source,
    related S (find_flags_in_text text source) (find_flags_in_text text source).
Hypothesis S_summary : related S print_summary print_summary.

Lemma related_ret {A} (a : A) : related S (mret a) (mret a).
Proof. intros p q H. by exists (inr a), p, q. Qed.

Lemma related_raise {A} e : related S (@raise A e) (raise e).
Proof. intros p q H. by exists (inl e), p, q. Qed.

Lemma related_bind {A B} (m1 m2 : Py A) (k1 k2 : A -> Py B) :
  related S m1 m2 -> (∀ a, related S (k1 a) (k2 a)) ->
  related S (m1 ≫= k1) (m2 ≫= k2).
Proof.
  intros Hm Hk p q H. destruct (Hm p q H) as (r & p1 & q1 & E1 & E2 & H1).
  rewrite !bind_run, E1, E2. destruct r as [e|a].
  - by exists (inl e), p1, q1.
  - apply Hk, H1.
Qed.

Lemma related_for {A} (l : list A) (body1 body2 : A -> Py unit) :
  (∀ x, related S (body1 x) (body2 x)) ->
  related S (for_ l body1) (for_ l body2).
Proof.
  intros Hb. induction l as [|x l IH]; cbn [for_].
  - apply related_ret.
  - apply related_bind; auto.
Qed.

Lemma related_try {A} (body1 body2 : Py A) (handler1 handler2 : str -> Py A) :
  related S body1 body2 -> (∀ e, related S (handler1 e) (handler2 e)) ->
  related S (try_except body1 handler1) (try_except body2 handler2).
Proof.
  intros Hb Hh p q H. unfold try_except.
  destruct (Hb p q H) as (r & p1 & q1 & -> & -> & H1).
  destruct r as [[msg|code]|a].
  - apply Hh, H1.
  - by eexists _, p1, q1.
  - by eexists _, p1, q1.
Qed.

Lemma related_raise_for_status response :
  related S (raise_for_status response) (raise_for_status response).
Proof.
  intros p q H.
  destruct (is_error_status (status_code response)) eqn:E.
  - destruct (raise_for_status_error response p E) as [msg Ep].
    destruct (raise_for_status_error response q E) as [msg' Eq].
    assert (msg' = msg) as ->.
    { unfold raise_for_status, raise in Ep, Eq.
      destruct (truthy_str _); [|discriminate Ep].
      injection Ep as <-. by injection Eq as <-. }
    by eexists _, p, q.
  - rewrite !raise_for_status_ok by done. by eexists _, p, q.
Qed.

Lemma related_scan_file filepath :
  related S (scan_file w filepath) (scan_file w filepath).
Proof.
  unfold scan_file, open_read. apply related_try.
  - apply related_bind.
    + apply related_bind; [apply S_record | intros _].
      destruct (fs_read w filepath); [apply related_raise | apply related_ret].
    + intros content. apply related_bind; [|intros _; apply S_find].
      apply (S_log (lit "file: " ++ filepath)).
  - intros e. apply (S_error (lit "Error reading " ++ filepath ++ lit ": " ++ e)).
Qed.

Lemma related_scan_directory directory extensions :
  related S (scan_directory w directory extensions)
    (scan_directory w directory extensions).
Proof.
  unfold scan_directory, os_walk.
  apply related_bind; [apply (S_log (lit "directory: " ++ directory))|].
  intros _. apply related_bind.
  - apply related_bind; [apply S_record | intros _; apply related_ret].
  - intros triples. apply related_for. intros [[root dirs] files].
    apply related_for. intros file.
    destruct (existsb _ _); [apply related_scan_file | apply related_ret].
Qed.

Lemma related_fetch url :
  related S (fetch_url_content w url) (fetch_url_content w url).
Proof.
  unfold fetch_url_content, get. apply related_try.
  - apply related_bind; [apply (S_log url)|]. intros _.
    apply related_bind.
    + apply related_bind; [apply S_record | intros _].
      destruct (session_get w url); [apply related_raise | apply related_ret].
    + intros response.
      apply related_bind; [apply related_raise_for_status|].
      intros _. apply related_ret.
  - intros e. apply related_bind; [|intros _; apply related_ret].
    apply (S_error (lit "Error fetching " ++ url ++ lit ": " ++ e)).
Qed.

Lemma related_resource url ref (label : str) :
  related S
    (resource_url ← urljoin w url ref;
     content ← fetch_url_content w resource_url;
     if truthy_opt truthy_str content then
       find_flags_in_text (default [] content) (resource_url ++ label)
     else mret tt)
    (resource_url ← urljoin w url ref;
     content ← fetch_url_content w resource_url;
     if truthy_opt truthy_str content then
       find_flags_in_text (default [] content) (resource_url ++ label)
     else mret tt).
Proof.
  apply related_bind.
  { unfold urljoin.
    destruct (url_join w url ref); [apply related_raise | apply related_ret]. }
  intros resource_url.
  apply related_bind; [apply related_fetch | intros content].
  destruct (truthy_opt _ _); [apply S_find | apply related_ret].
Qed.

Lemma related_scan_url url : related S (scan_url w url) (scan_url w url).
Proof.
  unfold scan_url, BeautifulSoup.
  apply related_bind; [apply (S_log (lit "URL: " ++ url))|]. intros _.
  apply related_bind; [apply related_fetch | intros html_content].
  destruct (negb _); [apply related_ret|].
  apply related_bind; [apply S_find | intros _].
  apply related_bind.
  { apply related_bind; [apply S_record | intros _].
    destruct (html_parser w _); [apply related_raise | apply related_ret]. }
  intros soup. apply related_bind.
  { apply related_for. intros script.
    destruct (truthy_opt truthy_str (tag_get _ _)); [apply related_resource|].
    destruct (truthy_opt truthy_str (tag_string script));
      [apply S_find | apply related_ret]. }
  intros _. apply related_bind.
  { apply related_for. intros link.
    destruct (truthy_opt truthy_str (tag_get _ _));
      [apply related_resource | apply related_ret]. }
  intros _. apply related_bind.
  { apply related_for. intros style.
    destruct (truthy_opt _ _); [apply S_find | apply related_ret]. }
  intros _. apply related_for. intros comment. apply S_find.
Qed.

Lemma related_perform o : related S (perform w o) (perform w o).
Proof.
  destruct o; cbn [perform].
  - apply S_find.
  - apply related_scan_file.
  - apply related_scan_directory.
  - apply related_scan_url.
  - apply S_summary.
Qed.

Lemma related_operations ops :
  related S (for_ ops (perform w)) (for_ ops (perform w)).
Proof. apply related_for, related_perform. Qed.

(** The scans and the summary of a run, side by side. *)
Lemma related_scans args :
  related S
    ((if truthy_opt truthy_str (arg_url args)
      then scan_url w (default [] (arg_url args)) else mret tt);;
     (if truthy_opt truthy_list (arg_files args)
      then for_ (default [] (arg_files args)) (fun file => scan_file w file)
      else mret tt);;
     (if truthy_opt truthy_str (arg_directory args)
      then scan_directory w (default [] (arg_directory args)) None
      else mret tt);;
     print_summary)
    ((if truthy_opt truthy_str (arg_url args)
      then scan_url w (default [] (arg_url args)) else mret tt);;
     (if truthy_opt truthy_list (arg_files args)
      then for_ (default [] (arg_files args)) (fun file => scan_file w file)
      else mret tt);;
     (if truthy_opt truthy_str (arg_directory args)
      then scan_directory w (default [] (arg_directory args)) None
      else mret tt);;
     print_summary).
Proof.
  apply related_bind.
  { destruct (truthy_opt truthy_str (arg_url args));
      [apply related_scan_url | apply related_ret]. }
  intros _. apply related_bind.
  { destruct (truthy_opt truthy_list (arg_files args)); [|apply related_ret].
    apply related_for. intros file. apply related_scan_file. }
  intros _. apply related_bind; [|intros _; apply S_summary].
  destruct (truthy_opt truthy_str (arg_directory args));
    [apply related_scan_directory | apply related_ret].
Qed.

End Related.

(** ** The verbose mode *)

Lemma not_log_line (line : str) :
  (∀ t, line ≠ 91%N :: 42%N :: t) -> ¬ is_log_line line.
Proof.
  intros H [[k ->]|[k ->]]; by eapply H.
Qed.

Lemma filter_log_keeps (out : list str) :
  Forall (fun line => ∀ t, line ≠ 91%N :: 42%N :: t) out ->
  filter (fun line => ¬ is_log_line line) out = out.
Proof.
  induction 1 as [|line out H _ IH]; [done|].
  rewrite filter_cons, decide_True by by apply not_log_line. by rewrite IH.
Qed.

Lemma report_not_log source l :
  Forall (fun line : str => ∀ t, line ≠ 91%N :: 42%N :: t)
    (flat_map (report source) l).
Proof.
  induction l as [|x l IH]; cbn [flat_map report app]; [done|].
  constructor; [intros t [=]|]. constructor; [intros t [=] | done].
Qed.

Lemma summary_not_log (s : gset str) :
  Forall (fun line : str => ∀ t, line ≠ 91%N :: 42%N :: t)
    ([nl :: rule]
     ++ (if decide (s = ∅)
         then [lit "[-] No flags found"]
         else [lit "[+] Total flags found: " ++ str_of_nat (size s);
               nl :: lit "All flags:"]
              ++ map (app (lit "  ")) (sorted s))
     ++ [rule]).
Proof.
  repeat (apply Forall_app; split); repeat constructor; try (intros t [=]).
  destruct (decide _); repeat constructor; try (intros t [=]).
  apply Forall_forall. intros line (f & -> & _)%list_elem_of_fmap. intros t [=].
Qed.

Lemma quieter_print (line : str) :
  (∀ t, line ≠ 91%N :: 42%N :: t) -> related quieter (print line) (print line).
Proof.
  intros H p q (F & C & V & O). eexists (inr tt), _, _.
  split; [done|]. split; [done|]. split_and!; cbn [self stdout calls]; try done.
  rewrite filter_app, <- O, filter_log_keeps; [done|]. by constructor.
Qed.

Lemma quieter_log (message : str) :
  is_log_line (lit "[*] " ++ message) -> related quieter (log message) (log message).
Proof.
  intros H p q (F & C & V & O). rewrite !log_run, V. eexists (inr tt), _, _.
  split; [done|]. split; [done|]. split_and!; cbn [self stdout calls]; try done.
  rewrite app_nil_r, filter_app, <- O. destruct (verbose (self p)).
  - rewrite filter_cons, decide_False by (by intros Hn). cbn.
    by rewrite app_nil_r.
  - cbn. by rewrite app_nil_r.
Qed.

Lemma quieter_operations w :
  (∀ ops, related quieter (for_ ops (perform w)) (for_ ops (perform w)))
  ∧ ∀ args,
      related quieter
        ((if truthy_opt truthy_str (arg_url args)
          then scan_url w (default [] (arg_url args)) else mret tt);;
         (if truthy_opt truthy_list (arg_files args)
          then for_ (default [] (arg_files args)) (fun file => scan_file w file)
          else mret tt);;
         (if truthy_opt truthy_str (arg_directory args)
          then scan_directory w (default [] (arg_directory args)) None
          else mret tt);;
         print_summary)
        ((if truthy_opt truthy_str (arg_url args)
          then scan_url w (default [] (arg_url args)) else mret tt);;
         (if truthy_opt truthy_list (arg_files args)
          then for_ (default [] (arg_files args)) (fun file => scan_file w file)
          else mret tt);;
         (if truthy_opt truthy_str (arg_directory args)
          then scan_directory w (default [] (arg_directory args)) None
          else mret tt);;
         print_summary).
Proof.
  assert (Hrec : ∀ c, related quieter (record c) (record c)).
  { intros c p q (F & C & V & O). eexists (inr tt), _, _.
    split; [done|]. split; [done|]. split_and!; cbn; try done. by rewrite C. }
  assert (Hlog : ∀ tail,
             related quieter (log (lit "Scanning " ++ tail))
               (log (lit "Scanning " ++ tail))
             ∧ related quieter (log (lit "Fetching: " ++ tail))
                 (log (lit "Fetching: " ++ tail))).
  { intros tail. split; apply quieter_log; [left | right]; by exists tail. }
  assert (Herr : ∀ t, related quieter (print (lit "[-] " ++ t))
                        (print (lit "[-] " ++ t))).
  { intros t. apply quieter_print. intros t' [=]. }
  assert (Hfind : ∀ text source,
             related quieter (find_flags_in_text text source)
               (find_flags_in_text text source)).
  { intros text source p q (F & C & V & O). rewrite !find_flags_run.
    eexists (inr tt), _, _. split; [done|]. split; [done|].
    split_and!; cbn [self stdout calls found_flags set_found_flags verbose];
      try done.
    - by rewrite F.
    - rewrite F, filter_app, <- O, filter_log_keeps; [done|].
      apply report_not_log. }
  assert (Hsum : related quieter print_summary print_summary).
  { intros p q (F & C & V & O). rewrite !print_summary_run.
    eexists (inr tt), _, _. split; [done|]. split; [done|].
    split_and!; cbn [self stdout calls]; try done.
    rewrite F, filter_app, <- O, filter_log_keeps; [done|].
    apply summary_not_log. }
  split.
  - intros ops. by apply related_operations.
  - intros args. by apply related_scans.
Qed.

(** X3. The verbose mode only adds log lines (the lines [[*] Scanning
    ...] and [[*] Fetching: ...]): a quiet run next to any run of the same
    operations ends the same way, with the same value or the same
    exception, finds the same flags, makes the same calls and prints the
    same lines but the log lines; so do two runs of the program that
    differ in [--verbose] only. *)
Theorem X3_verbose_only_adds_log_lines (w : World) :
  (∀ ops p q,
      quieter p q ->
      ∃ r p' q',
        for_ ops (perform w) p = (r, p')
        ∧ for_ ops (perform w) q = (r, q')
        ∧ found_flags (self q') = found_flags (self p')
        ∧ calls q' = calls p'
        ∧ stdout q' = filter (fun line => ¬ is_log_line line) (stdout p'))
  ∧ (∀ url files directory p q,
        truthy_opt truthy_str url || truthy_opt truthy_list files
        || truthy_opt truthy_str directory = true ->
        calls q = calls p ->
        stdout q = filter (fun line => ¬ is_log_line line) (stdout p) ->
        ∃ r p' q',
          main w (Parsed (mkNamespace url files directory true)) p = (r, p')
          ∧ main w (Parsed (mkNamespace url files directory false)) q = (r, q')
          ∧ found_flags (self q') = found_flags (self p')
          ∧ calls q' = calls p'
          ∧ stdout q' = filter (fun line => ¬ is_log_line line) (stdout p')).
Proof.
  destruct (quieter_operations w) as [Hops Hmain]. split.
  - intros ops p q H.
    destruct (Hops ops p q H) as (r & p' & q' & E1 & E2 & F & C & V & O).
    by exists r, p', q'.
  - intros url files directory p q E C O.
    set (a1 := mkNamespace url files directory true).
    set (a2 := mkNamespace url files directory false).
    assert (H : quieter (started a1 p) (started a2 q)).
    { split_and!; cbn [started self stdout calls found_flags FlagFinder_init
                         verbose]; try done.
      rewrite filter_app, <- O. f_equal. }
    destruct (Hmain a1 _ _ H) as (r & p' & q' & E1 & E2 & F & C' & V & O').
    exists r, p', q'.
    rewrite (main_scans w a1 p), (main_scans w a2 q) by exact E.
    split; [exact E1|]. split; [exact E2|]. by split_and!.
Qed.

Lemma X3_verbose_only_adds_log_lines_witness :
  ∃ r p' q',
    main site_world
      (Parsed (mkNamespace None None (Some (lit "site")) true)) boot
    = (r, p')
    ∧ main site_world
        (Parsed (mkNamespace None None (Some (lit "site")) false)) boot
      = (r, q')
    ∧ found_flags (self q') = found_flags (self p')
    ∧ calls q' = calls p'
    ∧ stdout q' = filter (fun line => ¬ is_log_line line) (stdout p').
Proof.
  apply (proj2 (X3_verbose_only_adds_log_lines site_world)
           None None (Some (lit "site")) boot boot); reflexivity.
Defined.

(** ** The unused configuration *)

Lemma same_but_unused_operations w ops :
  related same_but_unused (for_ ops (perform w)) (for_ ops (perform w)).
Proof.
  apply related_operations.
  - intros c p q (F & V & O & C). eexists (inr tt), _, _.
    split; [done|]. split; [done|]. split_and!; cbn; try done. by rewrite C.
  - intros tail.
    split; intros p q (F & V & O & C); rewrite !log_run, V, O;
      by eexists (inr tt), _, _.
  - intros t p q (F & V & O & C). eexists (inr tt), _, _.
    split; [done|]. split; [done|]. split_and!; cbn; try done. by rewrite O.
  - intros text source p q (F & V & O & C). rewrite !find_flags_run, F, O.
    by eexists (inr tt), _, _.
  - intros p q (F & V & O & C). rewrite !print_summary_run, F, O.
    by eexists (inr tt), _, _.
Qed.

(** X4. The fields [crawl], [max_depth], [visited_urls] and [base_domain]
    are never consulted: two objects that differ in these fields only
    behave alike under any sequence of operations: the two runs end the
    same way, with the same flags, the same lines printed and the same
    calls. *)
Theorem X4_unused_configuration_has_no_effect
    (w : World) (ops : list operation) (p : Proc)
    (crawl' : bool) (max_depth' : Z) (visited' : gset str)
    (base' : option str) :
  ∃ r p' q',
    for_ ops (perform w) p = (r, p')
    ∧ for_ ops (perform w)
        (mkProc (mkFlagFinder (found_flags (self p)) (verbose (self p))
                   crawl' max_depth' visited' base')
           (stdout p) (calls p))
      = (r, q')
    ∧ found_flags (self q') = found_flags (self p')
    ∧ stdout q' = stdout p'
    ∧ calls q' = calls p'.
Proof.
  destruct (same_but_unused_operations w ops p
              (mkProc (mkFlagFinder (found_flags (self p)) (verbose (self p))
                         crawl' max_depth' visited' base')
                 (stdout p) (calls p)))
    as (r & p' & q' & E1 & E2 & F & V & O & C); [done|].
  by exists r, p', q'.
Qed.

(** ** The set of flags as a union *)

Lemma ahead_operations w X ops :
  related (ahead X) (for_ ops (perform w)) (for_ ops (perform w)).
Proof.
  apply related_operations.
  - intros c p q H. by eexists (inr tt), _, _.
  - intros tail. split; intros p q H; rewrite !log_run;
      by eexists (inr tt), _, _.
  - intros t p q H. by eexists (inr tt), _, _.
  - intros text source p q H. rewrite !find_flags_run.
    eexists (inr tt), _, _. split; [done|]. split; [done|].
    unfold ahead in *. cbn [self found_flags set_found_flags]. rewrite H.
    set_solver.
  - intros p q H. rewrite !print_summary_run. by eexists (inr tt), _, _.
Qed.

(** A sequence of operations ends as it ends from an empty set, and adds
    to the set what it finds from an empty set. *)
Lemma operations_add w ops p :
  ∃ r p' q',
    for_ ops (perform w) p = (r, p')
    ∧ for_ ops (perform w) boot = (r, q')
    ∧ found_flags (self p') = found_flags (self p) ∪ found_flags (self q').
Proof.
  destruct (ahead_operations w (found_flags (self p)) ops p boot)
    as (r & p' & q' & E1 & E2 & H).
  { unfold ahead. cbn. set_solver. }
  exists r, p', q'. split; [done|]. split; [done|].
  unfold ahead in H. rewrite H. set_solver.
Qed.

Lemma perform_adds w o p :
  ∃ r p', perform w o p = (r, p')
          ∧ found_flags (self p') = found_flags (self p) ∪ flags_of w o.
Proof.
  destruct (operations_add w [o] p) as (r & p' & q' & E1 & E2 & F).
  rewrite for_singleton in E1, E2.
  exists r, p'. split; [done|]. unfold flags_of. by rewrite E2.
Qed.

(** What a sequence that returns normally finds: what each of its
    operations finds on its own. *)
Lemma operations_union w ops p p' :
  for_ ops (perform w) p = (inr tt, p') ->
  found_flags (self p') = found_flags (self p) ∪ ⋃ (map (flags_of w) ops).
Proof.
  revert p. induction ops as [|o ops IH]; intros p.
  - intros [= <-]. cbn. set_solver.
  - cbn [for_]. rewrite bind_run.
    destruct (perform_adds w o p) as (r & p1 & E1 & F1). rewrite E1.
    destruct r as [e|[]]; [done|]. intros E. rewrite (IH _ E), F1.
    cbn [map union_list foldr]. set_solver.
Qed.

(** X5. A sequence of operations ends the same way from any set
    (normally when none of its operations meets an exception, with the
    exception of the scan of a URL otherwise), and leaves the set it
    started from joined with what it finds from an empty set; performing
    it a second time adds nothing.  When it returns normally, what it
    finds is what each operation finds on its own: hence, for the
    sequences whose operations meet no exception, the final set does not
    depend on the order of the operations. *)
Theorem X5_found_flags_is_a_union (w : World) (ops : list operation)
    (p : Proc) :
  (∃ r p' q',
      for_ ops (perform w) p = (r, p')
      ∧ for_ ops (perform w) boot = (r, q')
      ∧ found_flags (self p') = found_flags (self p) ∪ found_flags (self q')
      ∧ (r = inr tt ->
         found_flags (self p')
         = found_flags (self p) ∪ ⋃ (map (flags_of w) ops))
      ∧ (Forall (operation_ok w) ops -> r = inr tt)
      ∧ (¬ Forall (operation_ok w) ops -> ∃ msg, r = inl (Exception msg))
      ∧ ∃ p'',
          for_ ops (perform w) p' = (r, p'')
          ∧ found_flags (self p'') = found_flags (self p'))
  ∧ (∀ ops',
        ops ≡ₚ ops' ->
        Forall (operation_ok w) ops ->
        ∃ p1 p2,
          for_ ops (perform w) p = (inr tt, p1)
          ∧ for_ ops' (perform w) p = (inr tt, p2)
          ∧ found_flags (self p2) = found_flags (self p1)).
Proof.
  split.
  - destruct (operations_add w ops p) as (r & p' & q' & E & Eb & F).
    exists r, p', q'. split; [done|]. split; [done|]. split; [done|].
    split_and!.
    + intros ->. by apply operations_union.
    + intros Hok. destruct (operations_return w ops p Hok) as [q Eq].
      rewrite E in Eq. by injection Eq as ->.
    + intros Hno. destruct (operations_raise w ops p Hno) as (msg & q & Eq).
      rewrite E in Eq. injection Eq as -> _. by exists msg.
    + destruct (operations_add w ops p') as (r' & p'' & q'' & E' & Eb' & F').
      rewrite Eb in Eb'. injection Eb' as <- <-.
      exists p''. split; [done|]. rewrite F', F. set_solver.
  - intros ops' Hperm Hok.
    destruct (operations_return w ops p Hok) as [p1 E1].
    destruct (operations_return w ops' p) as [p2 E2].
    { by rewrite <- Hperm. }
    exists p1, p2. split; [done|]. split; [done|].
    rewrite (operations_union _ _ _ _ E1), (operations_union _ _ _ _ E2).
    assert (H : ⋃ map (flags_of w) ops' ≡ ⋃ map (flags_of w) ops).
    { clear -Hperm. induction Hperm; cbn; set_solver. }
    apply leibniz_equiv in H. by rewrite H.
Qed.

Lemma X5_found_flags_is_a_union_witness :
  ∃ p1 p2,
    for_ [ScanFile (lit "site/a.js"); ScanFile (lit "site/a.txt")]
      (perform site_world) boot
    = (inr tt, p1)
    ∧ for_ [ScanFile (lit "site/a.txt"); ScanFile (lit "site/a.js")]
        (perform site_world) boot
      = (inr tt, p2)
    ∧ found_flags (self p2) = found_flags (self p1).
Proof.
  apply (proj2 (X5_found_flags_is_a_union site_world
                  [ScanFile (lit "site/a.js"); ScanFile (lit "site/a.txt")]
                  boot)).
  - apply perm_swap.
  - repeat constructor.
Defined.

(** ** A run as a sequence of operations *)

(** A run that scans is its opening lines, the operations for its
    arguments, and the summary. *)
Lemma main_as_operations w args p :
  truthy_opt truthy_str (arg_url args)
  || truthy_opt truthy_list (arg_files args)
  || truthy_opt truthy_str (arg_directory args) = true ->
  main w (Parsed args) p
  = (for_ (main_operations args) (perform w);; print_summary) (started args p).
Proof.
  intros E. rewrite (main_scans w args p E).
  generalize (started args p). intros s. unfold main_operations.
  rewrite for_app_then. apply then_ext.
  { intros q. destruct (truthy_opt truthy_str (arg_url args)); [|done].
    by rewrite for_singleton. }
  intros q. rewrite for_app_then. apply then_ext.
  { intros q'. destruct (truthy_opt truthy_list (arg_files args)); [|done].
    by rewrite for_map. }
  intros q'. apply then_ext; [|done].
  intros q''. destruct (truthy_opt truthy_str (arg_directory args)); [|done].
  by rewrite for_singleton.
Qed.

Lemma run_ok_operations w args :
  run_ok w args -> Forall (operation_ok w) (main_operations args).
Proof.
  unfold run_ok, main_operations. intros H. repeat (apply Forall_app; split).
  - destruct (truthy_opt truthy_str (arg_url args)); [|done].
    constructor; [by apply H | done].
  - destruct (truthy_opt truthy_list (arg_files args)); [|done].
    apply Forall_forall. by intros o (f & -> & _)%list_elem_of_fmap.
  - destruct (truthy_opt truthy_str (arg_directory args)); [|done].
    by repeat constructor.
Qed.

Lemma union_list_map_perm (w : World) (l1 l2 : list operation) :
  l1 ≡ₚ l2 -> ⋃ map (flags_of w) l1 = ⋃ map (flags_of w) l2.
Proof.
  intros H. apply leibniz_equiv. induction H; cbn; set_solver.
Qed.

Lemma main_run_union w args p :
  truthy_opt truthy_str (arg_url args)
  || truthy_opt truthy_list (arg_files args)
  || truthy_opt truthy_str (arg_directory args) = true ->
  run_ok w args ->
  ∃ p' out,
    main w (Parsed args) p = (inr tt, p')
    ∧ found_flags (self p') = ⋃ map (flags_of w) (main_operations args)
    ∧ stdout p'
      = stdout p ++ out
        ++ summary_lines
             (sorted (⋃ map (flags_of w) (main_operations args))).
Proof.
  intros E Hok. rewrite (main_as_operations w args p E), bind_run.
  destruct (operations_return w (main_operations args) (started args p))
    as [p1 E1]; [by apply run_ok_operations|].
  pose proof (operations_union _ _ _ _ E1) as F1.
  destruct (operations_grow w (main_operations args) (started args p))
    as (r & p1' & E1' & G & _).
  rewrite E1 in E1'. injection E1' as <- <-.
  destruct (grows_stdout _ _ G) as (o & Ho & _).
  rewrite E1, print_summary_lines.
  cbn [started self found_flags FlagFinder_init] in F1.
  rewrite union_empty_l_L in F1.
  exists (mkProc (self p1)
            (stdout p1 ++ summary_lines (sorted (found_flags (self p1))))
            (calls p1)),
    ([lit "[*] Starting flag search...";
      lit "[*] Looking for pattern: USU{...}" ++ [nl]] ++ o).
  split; [reflexivity|]. cbn [self stdout]. split; [exact F1|].
  rewrite F1, Ho. cbn [started stdout].
  rewrite <- (app_assoc (stdout p)), <- (app_assoc (stdout p)).
  rewrite <- (app_assoc [_; _]). reflexivity.
Qed.

(** X6. A run that scans, and whose scan of the URL meets no exception,
    ends normally with exactly the flags that its sources (the url, each
    file, the directory) yield on their own, and its summary lists them.
    Two runs that differ in the order of the files only end the same way
    with the same set, and, when they end normally, with the same
    summary. *)
Theorem X6_run_lists_the_flags_of_its_sources (w : World) (args : Namespace)
    (p : Proc) :
  truthy_opt truthy_str (arg_url args)
  || truthy_opt truthy_list (arg_files args)
  || truthy_opt truthy_str (arg_directory args) = true ->
  (run_ok w args ->
   ∃ p' out,
     main w (Parsed args) p = (inr tt, p')
     ∧ found_flags (self p') = ⋃ map (flags_of w) (main_operations args)
     ∧ stdout p'
       = stdout p ++ out
         ++ summary_lines
              (sorted (⋃ map (flags_of w) (main_operations args))))
  ∧ (∀ files files',
        arg_files args = Some files -> files ≡ₚ files' ->
        ∃ r p1 p2,
          main w (Parsed args) p = (r, p1)
          ∧ main w (Parsed (mkNamespace (arg_url args) (Some files')
                              (arg_directory args) (arg_verbose args))) p
            = (r, p2)
          ∧ found_flags (self p2) = found_flags (self p1)
          ∧ (r = inr tt ->
             ∃ out1 out2 listing,
               stdout p1 = stdout p ++ out1 ++ summary_lines listing
               ∧ stdout p2 = stdout p ++ out2 ++ summary_lines listing)).
Proof.
  intros E. split; [by apply main_run_union|].
  intros files files' Hf Hperm.
  set (args' := mkNamespace (arg_url args) (Some files') (arg_directory args)
                  (arg_verbose args)).
  assert (E' : truthy_opt truthy_str (arg_url args')
               || truthy_opt truthy_list (arg_files args')
               || truthy_opt truthy_str (arg_directory args') = true).
  { cbn [args' arg_url arg_files arg_directory]. rewrite Hf in E.
    destruct files as [|f fs]; destruct files' as [|f' fs']; try done.
    - by apply Permutation_nil_cons in Hperm.
    - symmetry in Hperm. by apply Permutation_nil_cons in Hperm. }
  destruct (decide (run_ok w args)) as [Hok|Hno].
  - assert (Hok' : run_ok w args') by exact Hok.
    destruct (main_run_union w args p E Hok) as (p1 & o1 & E1 & F1 & O1).
    destruct (main_run_union w args' p E' Hok') as (p2 & o2 & E2 & F2 & O2).
    assert (Hops : main_operations args ≡ₚ main_operations args').
    { unfold main_operations. cbn [args' arg_url arg_files arg_directory].
      rewrite Hf. cbn [truthy_opt default from_option id].
      apply Permutation_app; [done|]. apply Permutation_app; [|done].
      destruct files as [|f fs]; destruct files' as [|f' fs'];
        cbn [truthy_list]; try done.
      - by apply Permutation_nil_cons in Hperm.
      - symmetry in Hperm. by apply Permutation_nil_cons in Hperm.
      - by apply Permutation_map. }
    rewrite <- (union_list_map_perm w _ _ Hops) in F2, O2.
    exists (inr tt), p1, p2. split; [exact E1|]. split; [exact E2|].
    split; [by rewrite F1, F2|]. intros _.
    exists o1, o2, (sorted (⋃ map (flags_of w) (main_operations args))).
    split; [exact O1 | exact O2].
  - assert (Hno' : ¬ run_ok w args') by exact Hno.
    destruct (main_raises w args p Hno) as (msg & p1 & Es & Em).
    destruct (main_raises w args' p Hno') as (msg' & p2 & Es' & Em').
    change (started args' p) with (started args p) in Es'.
    change (arg_url args') with (arg_url args) in Es'.
    rewrite Es in Es'. injection Es' as <- <-.
    exists (inl (Exception msg)), p1, p1.
    split; [exact Em|]. split; [exact Em'|]. split; [done|]. by intros [=].
Qed.

Lemma X6_run_lists_the_flags_of_its_sources_witness :
  let args :=
    mkNamespace None (Some [lit "site/a.txt"; lit "site/a.js"]) None false in
  ∃ p' out,
    main site_world (Parsed args) boot = (inr tt, p')
    ∧ found_flags (self p')
      = ⋃ map (flags_of site_world) (main_operations args)
    ∧ stdout p'
      = stdout boot ++ out
        ++ summary_lines
             (sorted (⋃ map (flags_of site_world) (main_operations args))).
Proof.
  intros args.
  apply (proj1 (X6_run_lists_the_flags_of_its_sources site_world args boot
                  eq_refl)).
  intros H. discriminate H.
Defined.


(** ** What lossy decoding keeps *)













(** ** The edges of a directory scan *)

Lemma path_join_suffix (root file : str) : file `suffix_of` path_join root file.
Proof.
  unfold path_join.
  assert (H : file `suffix_of`
              (if negb (truthy_str root) || endswith root [47%N]
               then root ++ file else root ++ 47%N :: file)).
  { destruct (_ || _); [by exists root|].
    exists (root ++ [47%N]). by rewrite <- app_assoc. }
  destruct file as [|c file]; [done|].
  destruct c as [|c]; [done|].
  repeat (destruct c as [c|c|]; try done).
Qed.

Lemma selected_has_extension w directory extensions path :
  path ∈ selected w directory extensions ->
  ∃ ext, ext ∈ extensions ∧ ext `suffix_of` path.
Proof.
  intros (t & ds & f & _ & _ & (ext & Hin & Hs) & ->)%selected_spec.
  exists ext. split; [done|]. etrans; [exact Hs | apply path_join_suffix].
Qed.

Lemma scan_nothing_files w root (files : list str) p :
  for_ files (fun file =>
    if existsb (fun ext => endswith file ext) [] then
      let filepath := path_join root file in
      scan_file w filepath
    else mret tt) p
  = (inr tt, p).
Proof.
  induction files as [|f files IH]; [done|].
  cbn [for_ existsb]. rewrite bind_run. exact IH.
Qed.

Lemma scan_nothing w (triples : list (str * list str * list str)) p :
  for_ triples (fun '(root, dirs, files) =>
    for_ files (fun file =>
      if existsb (fun ext => endswith file ext) [] then
        let filepath := path_join root file in
        scan_file w filepath
      else mret tt)) p
  = (inr tt, p).
Proof.
  induction triples as [|[[root dirs] files] triples IH]; [done|].
  cbn [for_]. rewrite bind_run.
  match goal with
  | |- context [for_ files ?b p] =>
      replace (for_ files b p) with (@inr exn unit tt, p)
        by (symmetry; apply (scan_nothing_files w root))
  end.
  exact IH.
Qed.

(** X8. [scan_directory] with an explicitly empty list of extensions, or
    on a directory that cannot be listed, walks and does nothing else:
    no file is opened, no flag is added and, unlike for a missing file,
    no diagnostic is printed.  The empty extension selects every file,
    and every path that is opened ends with one of the extensions. *)
Theorem X8_scan_directory_edges (w : World) (directory : str)
    (extensions : option (list str)) (p : Proc) :
  (extensions = Some [] ∨ fs_tree w directory = None ->
   scan_directory w directory extensions p
   = (inr tt,
      mkProc (self p)
        (stdout p
         ++ (if verbose (self p)
             then [lit "[*] " ++ lit "Scanning directory: " ++ directory]
             else []))
        (calls p ++ [Walk directory])))
  ∧ (∀ t, fs_tree w directory = Some t ->
          selected w directory [[]]
          = map (fun rf => path_join (fst rf) (snd rf))
              (tree_files directory t))
  ∧ ∃ p' paths,
      scan_directory w directory extensions p = (inr tt, p')
      ∧ calls p' = calls p ++ Walk directory :: map Open paths
      ∧ Forall (fun path =>
                  ∃ ext, ext ∈ default default_extensions extensions
                         ∧ ext `suffix_of` path) paths.
Proof.
  split_and!.
  - intros H. unfold scan_directory, os_walk.
    rewrite bind_run, log_run, !bind_run. cbn [record mret Py_ret self stdout calls].
    destruct H as [-> | ->].
    + apply scan_nothing.
    + done.
  - intros t Ht. unfold selected. rewrite Ht. f_equal.
    induction (tree_files directory t) as [|rf l IH]; [done|].
    rewrite filter_cons, decide_True, IH; [done|].
    apply Exists_cons_hd. apply suffix_nil.
  - destruct (scan_directory_steps w directory extensions p)
      as ([] & p' & E & _ & C).
    exists p', (selected w directory (default default_extensions extensions)).
    split; [done|]. split; [done|]. apply Forall_forall.
    intros path. apply selected_has_extension.
Qed.

Lemma X8_scan_directory_edges_witness :
  scan_directory site_world (lit "nowhere") None boot
  = (inr tt, mkProc (self boot) [] [Walk (lit "nowhere")]).
Proof.
  apply (proj1 (X8_scan_directory_edges site_world (lit "nowhere") None boot)).
  right. reflexivity.
Defined.

(** ** The flags of a source *)

(** X9. An operation that meets no exception returns normally and adds
    to the set exactly the flags of its source: those of the text, of the
    file if it can be read, of the selected files of the directory, or of
    the page with its scripts, stylesheets, inline styles and text nodes.
    The scan of a URL whose page the parser rejects, or with a reference
    that [urljoin] rejects, ends with that exception; the set has only
    grown.  A run that scans, and whose scan of the URL meets no
    exception, ends with the union of the flags of its sources, and its
    summary lists that union. *)
Theorem X9_operations_add_the_flags_of_their_source (w : World) :
  (∀ o p, ∃ r p',
      perform w o p = (r, p')
      ∧ found_flags (self p) ⊆ found_flags (self p')
      ∧ (operation_ok w o ->
         r = inr tt
         ∧ found_flags (self p') = found_flags (self p) ∪ operation_flags w o)
      ∧ (¬ operation_ok w o -> ∃ msg, r = inl (Exception msg)))
  ∧ (∀ args p,
        truthy_opt truthy_str (arg_url args)
        || truthy_opt truthy_list (arg_files args)
        || truthy_opt truthy_str (arg_directory args) = true ->
        run_ok w args ->
        ∃ p' out,
          main w (Parsed args) p = (inr tt, p')
          ∧ found_flags (self p')
            = ⋃ map (operation_flags w) (main_operations args)
          ∧ stdout p'
            = stdout p ++ out
              ++ summary_lines
                   (sorted (⋃ map (operation_flags w) (main_operations args)))).
Proof.
  assert (Hop : ∀ o p, operation_ok w o ->
             ∃ p', perform w o p = (inr tt, p')
                   ∧ found_flags (self p')
                     = found_flags (self p) ∪ operation_flags w o).
  { intros o p Hok. destruct (adds_perform w o Hok p) as ([] & p' & E & H).
    by exists p'. }
  split.
  - intros o p. destruct (perform_grows w o p) as (r & p' & E & G & _).
    exists r, p'. split; [done|]. split; [apply G|]. split.
    + intros Hok. destruct (Hop o p Hok) as (q & Eq & Fq).
      rewrite E in Eq. by injection Eq as -> ->.
    + intros Hno. destruct (perform_raises w o p Hno) as (msg & q & Eq).
      rewrite E in Eq. injection Eq as -> _. by exists msg.
  - intros args p E Hok.
    destruct (main_run_union w args p E Hok) as (p' & out & Em & F & O).
    assert (Heq : map (flags_of w) (main_operations args)
                  = map (operation_flags w) (main_operations args)).
    { apply map_ext_Forall. eapply Forall_impl; [by apply run_ok_operations|].
      intros o Ho. unfold flags_of.
      destruct (Hop o boot Ho) as (q & -> & Hq). cbn [snd]. rewrite Hq.
      cbn [boot self found_flags FlagFinder_init]. by rewrite union_empty_l_L. }
    rewrite Heq in F, O. by exists p', out.
Qed.

Lemma X9_operations_add_the_flags_of_their_source_witness :
  let args := mkNamespace (Some (lit "http://h/")) None None false in
  ∃ p' out,
    main page_world (Parsed args) boot = (inr tt, p')
    ∧ found_flags (self p')
      = ⋃ map (operation_flags page_world) (main_operations args)
    ∧ stdout p'
      = stdout boot ++ out
        ++ summary_lines
             (sorted (⋃ map (operation_flags page_world)
                          (main_operations args))).
Proof.
  intros args.
  apply (proj2 (X9_operations_add_the_flags_of_their_source page_world)
           args boot eq_refl).
  apply (bool_decide_unpack _). vm_compute. exact I.
Defined.

(** ** Every failure is reported *)

Global Instance reported_preorder w : PreOrder (reported w).
Proof.
  split.
  - intros p. exists [], []. by rewrite !app_nil_r.
  - intros p1 p2 p3 (o1 & l1 & O1 & C1 & N1) (o2 & l2 & O2 & C2 & N2).
    exists (o1 ++ o2), (l1 ++ l2). rewrite O2, O1, C2, C1, !app_assoc.
    split; [done|]. split; [done|].
    rewrite !filter_app, !length_app. by rewrite N1, N2.
Qed.

Lemma not_error_line (line : str) :
  (∀ t, line ≠ 91%N :: 45%N :: 93%N :: 32%N :: 69%N :: t) ->
  ¬ is_error_line line.
Proof. intros H [k ->]. by eapply H. Qed.

Lemma no_error_lines (out : list str) :
  Forall (fun line => ∀ t, line ≠ 91%N :: 45%N :: 93%N :: 32%N :: 69%N :: t)
    out ->
  filter is_error_line out = [].
Proof.
  induction 1 as [|line out H _ IH]; [done|].
  rewrite filter_cons, decide_False by by apply not_error_line. exact IH.
Qed.

Lemma report_no_error source l :
  Forall (fun line : str =>
            ∀ t, line ≠ 91%N :: 45%N :: 93%N :: 32%N :: 69%N :: t)
    (flat_map (report source) l).
Proof.
  induction l as [|x l IH]; cbn [flat_map report app]; [done|].
  constructor; [intros t [=]|]. constructor; [intros t [=] | done].
Qed.

Lemma summary_no_error (s : gset str) :
  Forall (fun line : str =>
            ∀ t, line ≠ 91%N :: 45%N :: 93%N :: 32%N :: 69%N :: t)
    ([nl :: rule]
     ++ (if decide (s = ∅)
         then [lit "[-] No flags found"]
         else [lit "[+] Total flags found: " ++ str_of_nat (size s);
               nl :: lit "All flags:"]
              ++ map (app (lit "  ")) (sorted s))
     ++ [rule]).
Proof.
  repeat (apply Forall_app; split); repeat constructor; try (intros t [=]).
  destruct (decide _); repeat constructor; try (intros t [=]).
  apply Forall_forall. intros line (f & -> & _)%list_elem_of_fmap. intros t [=].
Qed.

Lemma log_no_error (b : bool) (message : str) :
  Forall (fun line : str =>
            ∀ t, line ≠ 91%N :: 45%N :: 93%N :: 32%N :: 69%N :: t)
    (if b then [lit "[*] " ++ message] else []).
Proof. destruct b; repeat constructor. intros t [=]. Qed.

Lemma reported_intro w p s out l :
  length (filter is_error_line out) = length (filter (failed w) l) ->
  reported w p (mkProc s (stdout p ++ out) (calls p ++ l)).
Proof. intros H. by exists out, l. Qed.

Lemma reported_quiet w p s out :
  Forall (fun line : str =>
            ∀ t, line ≠ 91%N :: 45%N :: 93%N :: 32%N :: 69%N :: t) out ->
  reported w p (mkProc s (stdout p ++ out) (calls p)).
Proof.
  intros H. exists out, []. cbn [stdout calls]. rewrite (app_nil_r (calls p)).
  by rewrite no_error_lines.
Qed.

Lemma reported_call w p c :
  ¬ failed w c -> reported w p (mkProc (self p) (stdout p) (calls p ++ [c])).
Proof.
  intros H. exists [], [c]. cbn [stdout calls]. rewrite (app_nil_r (stdout p)).
  split; [done|]. split; [done|]. by rewrite filter_cons, decide_False.
Qed.

Lemma reported_operations w :
  (∀ o, completes (reported w) (perform w o))
  ∧ ∀ args p,
      truthy_opt truthy_str (arg_url args)
      || truthy_opt truthy_list (arg_files args)
      || truthy_opt truthy_str (arg_directory args) = true ->
      ∃ r p', main w (Parsed args) p = (r, p')
              ∧ reported w (started args p) p'
              ∧ ∀ code, r ≠ inl (SystemExit code).
Proof.
  assert (Hwalk : ∀ d, returns (reported w) (record (Walk d))).
  { intros d p. eexists tt, _. split; [done|].
    apply reported_call. intros H. exact H. }
  assert (Hparse : ∀ h, returns (reported w) (record (Parse h))).
  { intros h p. eexists tt, _. split; [done|].
    apply reported_call. intros H. exact H. }
  assert (Hlog : ∀ message, returns (reported w) (log message)).
  { intros message p. rewrite log_run. eexists tt, _. split; [done|].
    apply reported_quiet, log_no_error. }
  assert (Hfind : ∀ text source,
             returns (reported w) (find_flags_in_text text source)).
  { intros text source p. rewrite find_flags_run. eexists tt, _.
    split; [done|]. apply reported_quiet, report_no_error. }
  assert (Hsum : returns (reported w) print_summary).
  { intros p. rewrite print_summary_run. eexists tt, _. split; [done|].
    apply reported_quiet, summary_no_error. }
  assert (Hfile : ∀ filepath, returns (reported w) (scan_file w filepath)).
  { intros filepath p. destruct (fs_read w filepath) as [msg|data] eqn:E.
    - rewrite (scan_file_error _ _ _ _ E). eexists tt, _. split; [done|].
      apply reported_intro.
      rewrite !filter_cons, decide_True, decide_True; [done| |].
      + cbn [failed]. by rewrite E.
      + by eexists.
    - rewrite (scan_file_ok_run _ _ _ _ E). eexists tt, _. split; [done|].
      apply reported_intro.
      rewrite filter_app, (no_error_lines _ (log_no_error _ _)).
      rewrite (no_error_lines _ (report_no_error _ _)).
      rewrite filter_cons, decide_False; [done|]. cbn [failed]. rewrite E. tauto. }
  assert (Hfetch : ∀ url, returns (reported w) (fetch_url_content w url)).
  { intros url p. destruct (fetch_run w url p) as (out & -> & Hout).
    assert (Hcase : (fetch_result w url = None
                     ∧ ∃ msg, out = [lit "[-] Error fetching " ++ url
                                     ++ lit ": " ++ msg])
                    ∨ (fetch_result w url ≠ None ∧ out = [])).
    { unfold fetch_result. destruct (session_get w url) as [msg|response].
      - left. split; [done | by exists msg].
      - destruct (is_error_status _); [by left | by right]. }
    eexists _, _. split; [done|]. apply reported_intro.
    rewrite filter_app, (no_error_lines _ (log_no_error _ _)).
    rewrite filter_cons. cbn [failed app].
    destruct Hcase as [[Hn [msg ->]]|[Hn ->]].
    - rewrite decide_True by done.
      rewrite filter_cons, decide_True; [done | by eexists].
    - by rewrite decide_False. }
  split.
  - intros o. apply composite_perform; auto. apply _.
  - intros args p. apply composite_main; auto. apply _.
Qed.

(** X10. Every failure that the program catches is reported, once:
    over any sequence of operations, and over a run that scans, however
    they end, the number of lines [[-] Error ...] printed is the number
    of files that could not be read plus the number of fetches that
    failed.  A directory that cannot be listed is not a failure and is
    never reported; an exception of the parser or of [urljoin] is not
    caught, hence not reported by such a line: it ends the run.  When the
    scan of the URL meets no exception, the calls counted are all the
    calls of the run. *)
Theorem X10_caught_failures_are_reported_once (w : World) :
  (∀ ops p, ∃ r p' out l,
      for_ ops (perform w) p = (r, p')
      ∧ stdout p' = stdout p ++ out
      ∧ calls p' = calls p ++ l
      ∧ length (filter is_error_line out) = length (filter (failed w) l))
  ∧ (∀ args p,
        truthy_opt truthy_str (arg_url args)
        || truthy_opt truthy_list (arg_files args)
        || truthy_opt truthy_str (arg_directory args) = true ->
        ∃ r p' out l,
          main w (Parsed args) p = (r, p')
          ∧ stdout p' = stdout p ++ out
          ∧ calls p' = calls p ++ l
          ∧ length (filter is_error_line out) = length (filter (failed w) l)
          ∧ (run_ok w args -> r = inr tt ∧ l = main_calls w args)
          ∧ (¬ run_ok w args -> ∃ msg, r = inl (Exception msg))).
Proof.
  destruct (reported_operations w) as [Hop Hmain]. split.
  - intros ops p.
    assert (H : completes (reported w) (for_ ops (perform w)))
      by (apply completes_for; [apply _ | apply Hop]).
    destruct (H p) as (r & p' & E & (out & l & ? & ? & ?) & _).
    by exists r, p', out, l.
  - intros args p E.
    destruct (Hmain args p E) as (r & p' & Em & (out & l & O & C & N) & _).
    exists r, p',
      ([lit "[*] Starting flag search...";
        lit "[*] Looking for pattern: USU{...}" ++ [nl]] ++ out), l.
    split; [done|]. cbn [started stdout calls] in O, C. split_and!.
    + rewrite O. by rewrite <- (app_assoc (stdout p)).
    + exact C.
    + rewrite filter_app, length_app, N. reflexivity.
    + intros Hok. destruct (main_run w args p E Hok) as (p1 & [_ C1] & Em').
      rewrite Em, print_summary_lines in Em'. injection Em' as -> ->.
      split; [done|]. cbn [calls started] in C, C1. rewrite C1 in C.
      by apply app_inv_head in C.
    + intros Hno. destruct (main_raises w args p Hno) as (msg & q & _ & Eq).
      rewrite Em in Eq. injection Eq as -> _. by exists msg.
Qed.

Lemma X10_caught_failures_are_reported_once_witness :
  let args := mkNamespace (Some (lit "http://h/")) (Some [lit "nofile"])
                None false in
  ∃ r p' out l,
    main page_world (Parsed args) boot = (r, p')
    ∧ stdout p' = stdout boot ++ out
    ∧ calls p' = calls boot ++ l
    ∧ length (filter is_error_line out)
      = length (filter (failed page_world) l).
Proof.
  intros args.
  destruct (proj2 (X10_caught_failures_are_reported_once page_world) args boot
              eq_refl) as (r & p' & out & l & E & O & C & N & _).
  exists r, p', out, l. split; [exact E|]. split; [exact O|].
  split; [exact C | exact N].
Defined.
